(** * The resolution core of gitsu's [Manager] (src/lib/core/Manager.js)

    A shallow embedding of the dependency manager: the endpoint objects
    live in a heap indexed by address (object identity is address
    equality), the manager's tables are insertion-ordered string-keyed
    objects holding lists of addresses, and every handler of the
    cooperative scheduler is a state transformer over the manager.

    External libraries (semver, path, the endpoint parser, [Utils]) are
    interfaces; a small concrete instance of each is given for the
    examples. *)

From Stdlib Require Import String Ascii ZArith Lia List Bool Permutation Sorted DecimalString.
From Stdlib Require OrderedTypeEx.
From stdpp Require Import base list strings option.

Set Warnings "-register-all".

Open Scope string_scope.
Open Scope list_scope.

(* ================================================================== *)
(** * JavaScript preliminaries *)
(* ================================================================== *)

(** Truthiness of a string: only the empty string is falsy. *)
Definition truthy (s : string) : bool := negb (String.eqb s "").

(** Truthiness of a possibly [undefined] string. *)
Definition truthy_opt (o : option string) : bool :=
  match o with Some s => truthy s | None => false end.

(** [a === b] on possibly [undefined] strings. *)
Definition opt_str_eqb (a b : option string) : bool :=
  match a, b with
  | Some x, Some y => String.eqb x y
  | None, None => true
  | _, _ => false
  end.

(** A plain JavaScript object used as a map: string keys in insertion
    order (keys that look like array indices are not used by the
    manager's tables). *)
Module JsObj.
Definition t (V : Type) : Type := list (string * V).

Section Ops.
Context {V : Type}.

Fixpoint get (k : string) (o : t V) : option V :=
  match o with
  | [] => None
  | (k', v) :: o' => if String.eqb k k' then Some v else get k o'
  end.

(** [o[k] = v]: an existing key keeps its position. *)
Fixpoint set (k : string) (v : V) (o : t V) : t V :=
  match o with
  | [] => [(k, v)]
  | (k', v') :: o' =>
      if String.eqb k k' then (k', v) :: o' else (k', v') :: set k v o'
  end.

(** [delete o[k]]. *)
Fixpoint del (k : string) (o : t V) : t V :=
  match o with
  | [] => []
  | (k', v') :: o' =>
      if String.eqb k k' then o' else (k', v') :: del k o'
  end.

Definition keys (o : t V) : list string := map fst o.
Definition values (o : t V) : list V := map snd o.
End Ops.
End JsObj.

(** Addresses of endpoint objects. *)
Definition addr := nat.

(** Errors: those built by [createError] carry a code; a [TypeError] is
    what the runtime raises on a property access of [undefined]; a
    transport error is whatever [repository.fetch] failed with. *)
Inductive error :=
| Coded (code message : string) (name : option string) (picks : list addr)
| TypeError (message : string)
| Transport (message : string).

Definition error_code (e : error) : option string :=
  match e with
  | Coded c _ _ _ => Some c
  | _ => None
  end.

(** A call either returns or throws. *)
Inductive result (A : Type) :=
| Ret (a : A)
| Throw (e : error).
Arguments Ret {A} a.
Arguments Throw {A} e.

(* ================================================================== *)
(** * The [semver] library, as the manager sees it *)
(* ================================================================== *)

(** [valid] and [validRange] stand for the truthiness of the library's
    results; [compare] and its relatives are taken on version text the
    library accepts; [satisfies] never throws. *)
Class SemverLib := {
  valid : string -> bool;
  validRange : string -> bool;
  satisfies : string -> string -> bool;
  compare : string -> string -> Z;
  rcompare : string -> string -> Z;
  gt : string -> string -> bool;
  lt : string -> string -> bool;
  eq : string -> string -> bool;
  toComparators : string -> list (list string)
}.

(** [semver.satisfies(version, range)] where [version] may be
    [undefined]: the library answers [false]. *)
Definition satisfies_opt `{SemverLib} (v : option string) (r : string) : bool :=
  match v with Some v => satisfies v r | None => false end.

(* ================================================================== *)
(** * The regular expression of [_getCap] *)
(* ================================================================== *)

(** The pattern is: a lazy run of any characters (first group), then
    three runs of digits separated by dots followed by a greedy run of any
    characters (second group), anchored at the end of the input.  A dot
    of the pattern does not cross a line terminator, so the match starts
    after the last one; the first group is the shortest prefix after
    which a dotted triple of digit runs starts, the second group is the
    rest of the string. *)

Definition is_digit (c : ascii) : bool :=
  let n := nat_of_ascii c in (48 <=? n)%nat && (n <=? 57)%nat.

Definition is_line_terminator (c : ascii) : bool :=
  let n := nat_of_ascii c in (n =? 10)%nat || (n =? 13)%nat.

(** Drop the leading run of digits. *)
Fixpoint drop_digits (s : string) : string :=
  match s with
  | String c s' => if is_digit c then drop_digits s' else s
  | EmptyString => s
  end.

Definition digits1 (s : string) : option string :=
  match s with
  | String c s' => if is_digit c then Some (drop_digits s') else None
  | EmptyString => None
  end.

Definition dot (s : string) : option string :=
  match s with
  | String "." s' => Some s'
  | _ => None
  end.

(** Does a dotted triple of digit runs start at the head of [s]? *)
Definition version_at (s : string) : bool :=
  match digits1 s with
  | Some s1 =>
      match dot s1 with
      | Some s2 =>
          match digits1 s2 with
          | Some s3 =>
              match dot s3 with
              | Some s4 => match digits1 s4 with Some _ => true | None => false end
              | None => false
              end
          | None => false
          end
      | None => false
      end
  | None => false
  end.

Fixpoint has_terminator (s : string) : bool :=
  match s with
  | EmptyString => false
  | String c s' => is_line_terminator c || has_terminator s'
  end.

(** The text after the last line terminator. *)
Fixpoint after_last_terminator (s : string) : string :=
  match s with
  | EmptyString => EmptyString
  | String c s' =>
      if has_terminator s then after_last_terminator s' else s
  end.

(** Lazy prefix: the first position where the version starts. *)
Fixpoint split_version (s : string) : option (string * string) :=
  if version_at s then Some (EmptyString, s)
  else match s with
       | EmptyString => None
       | String c s' =>
           match split_version s' with
           | Some (p, v) => Some (String c p, v)
           | None => None
           end
       end.

Definition match_comparator (s : string) : option (string * string) :=
  split_version (after_last_terminator s).

(* ================================================================== *)
(** * [_getCap] *)
(* ================================================================== *)

(** The argument of [_getCap]: an array whose elements are strings or
    arrays again. *)
Inductive comparator :=
| CStr (s : string)
| CArr (l : list comparator).

(** [{ comparator, version }]; both absent in the initial [{}]. *)
Record cap := {
  cap_version : option string;
  cap_comparator : option string
}.

Definition empty_cap : cap := {| cap_version := None; cap_comparator := None |}.

(** [side === 'lowest' ? semver.lt : semver.gt]. *)
Definition cap_compare `{SemverLib} (side : string) : string -> string -> bool :=
  if String.eqb side "lowest" then lt else gt.

(** [!cap.version || compare(v, cap.version)], where [v] may be
    [undefined]: the library dereferences it and a [TypeError] results. *)
Definition cap_replaces `{SemverLib} (side : string) (v : option string) (c : cap)
  : result bool :=
  match cap_version c with
  | Some cv =>
      if truthy cv then
        match v with
        | Some v => Ret (cap_compare side v cv)
        | None => Throw (TypeError "Invalid Version: undefined")
        end
      else Ret true
  | None => Ret true
  end.

(** One iteration of the [forEach] of [_getCap], on the element [c] and
    the running [cap]. *)
Fixpoint getCap_each `{SemverLib} (side : string) (c : comparator) (acc : cap)
  {struct c} : result cap :=
  match c with
  | CArr l =>
      let inner :=
        (fix each_of (l : list comparator) (a : cap) : result cap :=
           match l with
           | [] => Ret a
           | x :: l' =>
               match getCap_each side x a with
               | Ret a' => each_of l' a'
               | Throw e => Throw e
               end
           end) l empty_cap in
      match inner with
      | Throw e => Throw e
      | Ret candidate =>
          match cap_replaces side (cap_version candidate) acc with
          | Throw e => Throw e
          | Ret true => Ret candidate
          | Ret false => Ret acc
          end
      end
  | CStr s =>
      match match_comparator s with
      | None => Ret acc
      | Some (prefix, v) =>
          match cap_replaces side (Some v) acc with
          | Throw e => Throw e
          | Ret true => Ret {| cap_version := Some v; cap_comparator := Some prefix |}
          | Ret false => Ret acc
          end
      end
  end.

Fixpoint getCap_from `{SemverLib} (side : string) (l : list comparator) (acc : cap)
  : result cap :=
  match l with
  | [] => Ret acc
  | x :: l' =>
      match getCap_each side x acc with
      | Ret a' => getCap_from side l' a'
      | Throw e => Throw e
      end
  end.

(** [Manager.prototype._getCap(comparators, side)]. *)
Definition _getCap `{SemverLib} (comparators : list comparator) (side : string)
  : result cap :=
  getCap_from side comparators empty_cap.

(** The value of [semver.toComparators(range)] as [_getCap] receives it. *)
Definition comparators_of `{SemverLib} (range : string) : list comparator :=
  map (fun group => CArr (map CStr group)) (toComparators range).

(* ================================================================== *)
(** * Data model *)
(* ================================================================== *)

(** The fields of a manifest the manager reads. *)
Module PkgMeta.
Record t := {
  name : string;
  version : option string;
  _release : option string;
  _target : option string;
  _originalSource : option string;
  dependencies : JsObj.t string;
  devDependencies : JsObj.t string
}.

(** [pkgMeta[jsonKey]] for the two keys the manager passes. *)
Definition section (m : t) (jsonKey : string) : JsObj.t string :=
  if String.eqb jsonKey "dependencies" then dependencies m
  else if String.eqb jsonKey "devDependencies" then devDependencies m
  else [].
End PkgMeta.

(** The identity tuple of an endpoint. *)
Module Guid.
Record t := { rId : string; fId : string; id : string }.
End Guid.

(** A decomposed endpoint.  [dependants] and the values of
    [dependencies] are addresses: the same object can sit in several
    tables and lists at once. *)
Module Endpoint.
Record t := {
  name : option string;
  source : string;
  target : string;
  initialName : option string;
  _oldName : option string;
  pkgMeta : option PkgMeta.t;
  canonicalDir : option string;
  dependants : list addr;
  dependencies : option (JsObj.t addr);
  newly : bool;
  unresolvable : bool;
  untargetable : bool;
  linked : bool;
  originalTarget : option string;
  _guid : option Guid.t;
  promise : option nat
}.

Definition with_name (v : option string) (e : t) : t :=
  {| name := v; source := source e; target := target e; initialName := initialName e; _oldName := _oldName e; pkgMeta := pkgMeta e; canonicalDir := canonicalDir e; dependants := dependants e; dependencies := dependencies e; newly := newly e; unresolvable := unresolvable e; untargetable := untargetable e; linked := linked e; originalTarget := originalTarget e; _guid := _guid e; promise := promise e |}.
Definition with_target (v : string) (e : t) : t :=
  {| name := name e; source := source e; target := v; initialName := initialName e; _oldName := _oldName e; pkgMeta := pkgMeta e; canonicalDir := canonicalDir e; dependants := dependants e; dependencies := dependencies e; newly := newly e; unresolvable := unresolvable e; untargetable := untargetable e; linked := linked e; originalTarget := originalTarget e; _guid := _guid e; promise := promise e |}.
Definition with__oldName (v : option string) (e : t) : t :=
  {| name := name e; source := source e; target := target e; initialName := initialName e; _oldName := v; pkgMeta := pkgMeta e; canonicalDir := canonicalDir e; dependants := dependants e; dependencies := dependencies e; newly := newly e; unresolvable := unresolvable e; untargetable := untargetable e; linked := linked e; originalTarget := originalTarget e; _guid := _guid e; promise := promise e |}.
Definition with_pkgMeta (v : option PkgMeta.t) (e : t) : t :=
  {| name := name e; source := source e; target := target e; initialName := initialName e; _oldName := _oldName e; pkgMeta := v; canonicalDir := canonicalDir e; dependants := dependants e; dependencies := dependencies e; newly := newly e; unresolvable := unresolvable e; untargetable := untargetable e; linked := linked e; originalTarget := originalTarget e; _guid := _guid e; promise := promise e |}.
Definition with_canonicalDir (v : option string) (e : t) : t :=
  {| name := name e; source := source e; target := target e; initialName := initialName e; _oldName := _oldName e; pkgMeta := pkgMeta e; canonicalDir := v; dependants := dependants e; dependencies := dependencies e; newly := newly e; unresolvable := unresolvable e; untargetable := untargetable e; linked := linked e; originalTarget := originalTarget e; _guid := _guid e; promise := promise e |}.
Definition with_dependants (v : list addr) (e : t) : t :=
  {| name := name e; source := source e; target := target e; initialName := initialName e; _oldName := _oldName e; pkgMeta := pkgMeta e; canonicalDir := canonicalDir e; dependants := v; dependencies := dependencies e; newly := newly e; unresolvable := unresolvable e; untargetable := untargetable e; linked := linked e; originalTarget := originalTarget e; _guid := _guid e; promise := promise e |}.
Definition with_dependencies (v : option (JsObj.t addr)) (e : t) : t :=
  {| name := name e; source := source e; target := target e; initialName := initialName e; _oldName := _oldName e; pkgMeta := pkgMeta e; canonicalDir := canonicalDir e; dependants := dependants e; dependencies := v; newly := newly e; unresolvable := unresolvable e; untargetable := untargetable e; linked := linked e; originalTarget := originalTarget e; _guid := _guid e; promise := promise e |}.
Definition with_unresolvable (v : bool) (e : t) : t :=
  {| name := name e; source := source e; target := target e; initialName := initialName e; _oldName := _oldName e; pkgMeta := pkgMeta e; canonicalDir := canonicalDir e; dependants := dependants e; dependencies := dependencies e; newly := newly e; unresolvable := v; untargetable := untargetable e; linked := linked e; originalTarget := originalTarget e; _guid := _guid e; promise := promise e |}.
Definition with_untargetable (v : bool) (e : t) : t :=
  {| name := name e; source := source e; target := target e; initialName := initialName e; _oldName := _oldName e; pkgMeta := pkgMeta e; canonicalDir := canonicalDir e; dependants := dependants e; dependencies := dependencies e; newly := newly e; unresolvable := unresolvable e; untargetable := v; linked := linked e; originalTarget := originalTarget e; _guid := _guid e; promise := promise e |}.
Definition with_originalTarget (v : option string) (e : t) : t :=
  {| name := name e; source := source e; target := target e; initialName := initialName e; _oldName := _oldName e; pkgMeta := pkgMeta e; canonicalDir := canonicalDir e; dependants := dependants e; dependencies := dependencies e; newly := newly e; unresolvable := unresolvable e; untargetable := untargetable e; linked := linked e; originalTarget := v; _guid := _guid e; promise := promise e |}.
Definition with__guid (v : option Guid.t) (e : t) : t :=
  {| name := name e; source := source e; target := target e; initialName := initialName e; _oldName := _oldName e; pkgMeta := pkgMeta e; canonicalDir := canonicalDir e; dependants := dependants e; dependencies := dependencies e; newly := newly e; unresolvable := unresolvable e; untargetable := untargetable e; linked := linked e; originalTarget := originalTarget e; _guid := v; promise := promise e |}.
Definition with_promise (v : option nat) (e : t) : t :=
  {| name := name e; source := source e; target := target e; initialName := initialName e; _oldName := _oldName e; pkgMeta := pkgMeta e; canonicalDir := canonicalDir e; dependants := dependants e; dependencies := dependencies e; newly := newly e; unresolvable := unresolvable e; untargetable := untargetable e; linked := linked e; originalTarget := originalTarget e; _guid := _guid e; promise := v |}.

(** The object literal the endpoint parser returns. *)
Definition fresh (n : option string) (s tg : string) : t :=
  {| name := n; source := s; target := tg; initialName := None;
     _oldName := None; pkgMeta := None; canonicalDir := None;
     dependants := []; dependencies := None; newly := false;
     unresolvable := false; untargetable := false; linked := false;
     originalTarget := None; _guid := None; promise := None |}.

(** [decEndpoint.pkgMeta.version], [undefined] when there is none. *)
Definition version (e : t) : option string :=
  match pkgMeta e with Some m => PkgMeta.version m | None => None end.

(** [decEndpoint.pkgMeta._release]. *)
Definition release (e : t) : option string :=
  match pkgMeta e with Some m => PkgMeta._release m | None => None end.
End Endpoint.

(** [this._config]: the options the core reads. *)
Module Config.
Record t := { production : bool; interactive : bool; force : bool }.
End Config.

(** [this._nrFetching]: a number that the fail-fast timer may set to
    [Infinity]. *)
Inductive count :=
| Finite (n : Z)
| Infinity.

Definition incr (c : count) : count :=
  match c with Finite n => Finite (n + 1) | Infinity => Infinity end.

Definition decr (c : count) : count :=
  match c with Finite n => Finite (n - 1) | Infinity => Infinity end.

(** [c <= 0]. *)
Definition none_left (c : count) : bool :=
  match c with Finite n => (n <=? 0)%Z | Infinity => false end.

(** The state of [this._deferred]: settling it twice has no effect. *)
Inductive deferred :=
| Pending
| Resolved
| Rejected (e : error).

(** An entry of [this._pendingDep]. *)
Module PendingDep.
Record t := {
  decEndpoint : addr;
  pkgMeta : PkgMeta.t;
  jsonKey : string;
  promiseList : list nat
}.
End PendingDep.

(** Calls that leave the manager: the repository, the scheduler, the
    file system and the prompt, in the order they are issued. *)
Inductive effect :=
| RepoFetch (a : addr)
| NextTickDissect
| SetFailFastTimeout
| ClearFailFastTimeout
| Mv (oldPath newPath : string)
| Prompt (rId : string) (picks : list addr).

(** The manager object.  [heap] holds the endpoint objects; [promises]
    counts the deferreds created so far and names the next one;
    [trace] records the outgoing calls. *)
Record manager := {
  heap : list Endpoint.t;
  config : Config.t;
  componentsDir : string;
  _conflicted : JsObj.t bool;
  _resolved : JsObj.t (list addr);
  _installed : JsObj.t PkgMeta.t;
  _renamed : JsObj.t string;
  _targets : list addr;
  _incompatibles : JsObj.t (list addr);
  _resolutions : JsObj.t string;
  _forceLatest : bool;
  _working : bool;
  _fetching : JsObj.t (list addr);
  _nrFetching : count;
  _failed : JsObj.t (list error);
  _hasFailed : bool;
  _deferred : option deferred;
  _pendingDep : option (JsObj.t PendingDep.t);
  _dissected : JsObj.t addr;
  _failFastTimeout : bool;
  promises : nat;
  trace : list effect
}.

Definition with_heap (v : list Endpoint.t) (m : manager) : manager :=
  {| heap := v; config := config m; componentsDir := componentsDir m; _conflicted := _conflicted m; _resolved := _resolved m; _installed := _installed m; _renamed := _renamed m; _targets := _targets m; _incompatibles := _incompatibles m; _resolutions := _resolutions m; _forceLatest := _forceLatest m; _working := _working m; _fetching := _fetching m; _nrFetching := _nrFetching m; _failed := _failed m; _hasFailed := _hasFailed m; _deferred := _deferred m; _pendingDep := _pendingDep m; _dissected := _dissected m; _failFastTimeout := _failFastTimeout m; promises := promises m; trace := trace m |}.
Definition with__conflicted (v : JsObj.t bool) (m : manager) : manager :=
  {| heap := heap m; config := config m; componentsDir := componentsDir m; _conflicted := v; _resolved := _resolved m; _installed := _installed m; _renamed := _renamed m; _targets := _targets m; _incompatibles := _incompatibles m; _resolutions := _resolutions m; _forceLatest := _forceLatest m; _working := _working m; _fetching := _fetching m; _nrFetching := _nrFetching m; _failed := _failed m; _hasFailed := _hasFailed m; _deferred := _deferred m; _pendingDep := _pendingDep m; _dissected := _dissected m; _failFastTimeout := _failFastTimeout m; promises := promises m; trace := trace m |}.
Definition with__resolved (v : JsObj.t (list addr)) (m : manager) : manager :=
  {| heap := heap m; config := config m; componentsDir := componentsDir m; _conflicted := _conflicted m; _resolved := v; _installed := _installed m; _renamed := _renamed m; _targets := _targets m; _incompatibles := _incompatibles m; _resolutions := _resolutions m; _forceLatest := _forceLatest m; _working := _working m; _fetching := _fetching m; _nrFetching := _nrFetching m; _failed := _failed m; _hasFailed := _hasFailed m; _deferred := _deferred m; _pendingDep := _pendingDep m; _dissected := _dissected m; _failFastTimeout := _failFastTimeout m; promises := promises m; trace := trace m |}.
Definition with__renamed (v : JsObj.t string) (m : manager) : manager :=
  {| heap := heap m; config := config m; componentsDir := componentsDir m; _conflicted := _conflicted m; _resolved := _resolved m; _installed := _installed m; _renamed := v; _targets := _targets m; _incompatibles := _incompatibles m; _resolutions := _resolutions m; _forceLatest := _forceLatest m; _working := _working m; _fetching := _fetching m; _nrFetching := _nrFetching m; _failed := _failed m; _hasFailed := _hasFailed m; _deferred := _deferred m; _pendingDep := _pendingDep m; _dissected := _dissected m; _failFastTimeout := _failFastTimeout m; promises := promises m; trace := trace m |}.
Definition with__incompatibles (v : JsObj.t (list addr)) (m : manager) : manager :=
  {| heap := heap m; config := config m; componentsDir := componentsDir m; _conflicted := _conflicted m; _resolved := _resolved m; _installed := _installed m; _renamed := _renamed m; _targets := _targets m; _incompatibles := v; _resolutions := _resolutions m; _forceLatest := _forceLatest m; _working := _working m; _fetching := _fetching m; _nrFetching := _nrFetching m; _failed := _failed m; _hasFailed := _hasFailed m; _deferred := _deferred m; _pendingDep := _pendingDep m; _dissected := _dissected m; _failFastTimeout := _failFastTimeout m; promises := promises m; trace := trace m |}.
Definition with__resolutions (v : JsObj.t string) (m : manager) : manager :=
  {| heap := heap m; config := config m; componentsDir := componentsDir m; _conflicted := _conflicted m; _resolved := _resolved m; _installed := _installed m; _renamed := _renamed m; _targets := _targets m; _incompatibles := _incompatibles m; _resolutions := v; _forceLatest := _forceLatest m; _working := _working m; _fetching := _fetching m; _nrFetching := _nrFetching m; _failed := _failed m; _hasFailed := _hasFailed m; _deferred := _deferred m; _pendingDep := _pendingDep m; _dissected := _dissected m; _failFastTimeout := _failFastTimeout m; promises := promises m; trace := trace m |}.
Definition with__working (v : bool) (m : manager) : manager :=
  {| heap := heap m; config := config m; componentsDir := componentsDir m; _conflicted := _conflicted m; _resolved := _resolved m; _installed := _installed m; _renamed := _renamed m; _targets := _targets m; _incompatibles := _incompatibles m; _resolutions := _resolutions m; _forceLatest := _forceLatest m; _working := v; _fetching := _fetching m; _nrFetching := _nrFetching m; _failed := _failed m; _hasFailed := _hasFailed m; _deferred := _deferred m; _pendingDep := _pendingDep m; _dissected := _dissected m; _failFastTimeout := _failFastTimeout m; promises := promises m; trace := trace m |}.
Definition with__fetching (v : JsObj.t (list addr)) (m : manager) : manager :=
  {| heap := heap m; config := config m; componentsDir := componentsDir m; _conflicted := _conflicted m; _resolved := _resolved m; _installed := _installed m; _renamed := _renamed m; _targets := _targets m; _incompatibles := _incompatibles m; _resolutions := _resolutions m; _forceLatest := _forceLatest m; _working := _working m; _fetching := v; _nrFetching := _nrFetching m; _failed := _failed m; _hasFailed := _hasFailed m; _deferred := _deferred m; _pendingDep := _pendingDep m; _dissected := _dissected m; _failFastTimeout := _failFastTimeout m; promises := promises m; trace := trace m |}.
Definition with__nrFetching (v : count) (m : manager) : manager :=
  {| heap := heap m; config := config m; componentsDir := componentsDir m; _conflicted := _conflicted m; _resolved := _resolved m; _installed := _installed m; _renamed := _renamed m; _targets := _targets m; _incompatibles := _incompatibles m; _resolutions := _resolutions m; _forceLatest := _forceLatest m; _working := _working m; _fetching := _fetching m; _nrFetching := v; _failed := _failed m; _hasFailed := _hasFailed m; _deferred := _deferred m; _pendingDep := _pendingDep m; _dissected := _dissected m; _failFastTimeout := _failFastTimeout m; promises := promises m; trace := trace m |}.
Definition with__failed (v : JsObj.t (list error)) (m : manager) : manager :=
  {| heap := heap m; config := config m; componentsDir := componentsDir m; _conflicted := _conflicted m; _resolved := _resolved m; _installed := _installed m; _renamed := _renamed m; _targets := _targets m; _incompatibles := _incompatibles m; _resolutions := _resolutions m; _forceLatest := _forceLatest m; _working := _working m; _fetching := _fetching m; _nrFetching := _nrFetching m; _failed := v; _hasFailed := _hasFailed m; _deferred := _deferred m; _pendingDep := _pendingDep m; _dissected := _dissected m; _failFastTimeout := _failFastTimeout m; promises := promises m; trace := trace m |}.
Definition with__hasFailed (v : bool) (m : manager) : manager :=
  {| heap := heap m; config := config m; componentsDir := componentsDir m; _conflicted := _conflicted m; _resolved := _resolved m; _installed := _installed m; _renamed := _renamed m; _targets := _targets m; _incompatibles := _incompatibles m; _resolutions := _resolutions m; _forceLatest := _forceLatest m; _working := _working m; _fetching := _fetching m; _nrFetching := _nrFetching m; _failed := _failed m; _hasFailed := v; _deferred := _deferred m; _pendingDep := _pendingDep m; _dissected := _dissected m; _failFastTimeout := _failFastTimeout m; promises := promises m; trace := trace m |}.
Definition with__deferred (v : option deferred) (m : manager) : manager :=
  {| heap := heap m; config := config m; componentsDir := componentsDir m; _conflicted := _conflicted m; _resolved := _resolved m; _installed := _installed m; _renamed := _renamed m; _targets := _targets m; _incompatibles := _incompatibles m; _resolutions := _resolutions m; _forceLatest := _forceLatest m; _working := _working m; _fetching := _fetching m; _nrFetching := _nrFetching m; _failed := _failed m; _hasFailed := _hasFailed m; _deferred := v; _pendingDep := _pendingDep m; _dissected := _dissected m; _failFastTimeout := _failFastTimeout m; promises := promises m; trace := trace m |}.
Definition with__pendingDep (v : option (JsObj.t PendingDep.t)) (m : manager) : manager :=
  {| heap := heap m; config := config m; componentsDir := componentsDir m; _conflicted := _conflicted m; _resolved := _resolved m; _installed := _installed m; _renamed := _renamed m; _targets := _targets m; _incompatibles := _incompatibles m; _resolutions := _resolutions m; _forceLatest := _forceLatest m; _working := _working m; _fetching := _fetching m; _nrFetching := _nrFetching m; _failed := _failed m; _hasFailed := _hasFailed m; _deferred := _deferred m; _pendingDep := v; _dissected := _dissected m; _failFastTimeout := _failFastTimeout m; promises := promises m; trace := trace m |}.
Definition with__dissected (v : JsObj.t addr) (m : manager) : manager :=
  {| heap := heap m; config := config m; componentsDir := componentsDir m; _conflicted := _conflicted m; _resolved := _resolved m; _installed := _installed m; _renamed := _renamed m; _targets := _targets m; _incompatibles := _incompatibles m; _resolutions := _resolutions m; _forceLatest := _forceLatest m; _working := _working m; _fetching := _fetching m; _nrFetching := _nrFetching m; _failed := _failed m; _hasFailed := _hasFailed m; _deferred := _deferred m; _pendingDep := _pendingDep m; _dissected := v; _failFastTimeout := _failFastTimeout m; promises := promises m; trace := trace m |}.
Definition with__failFastTimeout (v : bool) (m : manager) : manager :=
  {| heap := heap m; config := config m; componentsDir := componentsDir m; _conflicted := _conflicted m; _resolved := _resolved m; _installed := _installed m; _renamed := _renamed m; _targets := _targets m; _incompatibles := _incompatibles m; _resolutions := _resolutions m; _forceLatest := _forceLatest m; _working := _working m; _fetching := _fetching m; _nrFetching := _nrFetching m; _failed := _failed m; _hasFailed := _hasFailed m; _deferred := _deferred m; _pendingDep := _pendingDep m; _dissected := _dissected m; _failFastTimeout := v; promises := promises m; trace := trace m |}.
Definition with_promises (v : nat) (m : manager) : manager :=
  {| heap := heap m; config := config m; componentsDir := componentsDir m; _conflicted := _conflicted m; _resolved := _resolved m; _installed := _installed m; _renamed := _renamed m; _targets := _targets m; _incompatibles := _incompatibles m; _resolutions := _resolutions m; _forceLatest := _forceLatest m; _working := _working m; _fetching := _fetching m; _nrFetching := _nrFetching m; _failed := _failed m; _hasFailed := _hasFailed m; _deferred := _deferred m; _pendingDep := _pendingDep m; _dissected := _dissected m; _failFastTimeout := _failFastTimeout m; promises := v; trace := trace m |}.
Definition with_trace (v : list effect) (m : manager) : manager :=
  {| heap := heap m; config := config m; componentsDir := componentsDir m; _conflicted := _conflicted m; _resolved := _resolved m; _installed := _installed m; _renamed := _renamed m; _targets := _targets m; _incompatibles := _incompatibles m; _resolutions := _resolutions m; _forceLatest := _forceLatest m; _working := _working m; _fetching := _fetching m; _nrFetching := _nrFetching m; _failed := _failed m; _hasFailed := _hasFailed m; _deferred := _deferred m; _pendingDep := _pendingDep m; _dissected := _dissected m; _failFastTimeout := _failFastTimeout m; promises := promises m; trace := v |}.

(** [decEndpoint.x] for the object at address [a]. *)
Definition deref (m : manager) (a : addr) : Endpoint.t :=
  default (Endpoint.fresh None "" "") (heap m !! a).

(** In-place update of the object at [a]. *)
Definition update (a : addr) (f : Endpoint.t -> Endpoint.t) (m : manager) : manager :=
  with_heap (<[a := f (deref m a)]> (heap m)) m.

(** A new object; its address is the next free one. *)
Definition alloc (e : Endpoint.t) (m : manager) : addr * manager :=
  (length (heap m), with_heap (heap m ++ [e]) m).

Definition emit (x : effect) (m : manager) : manager :=
  with_trace (trace m ++ [x]) m.

(* ================================================================== *)
(** * [Utils], [path] and the endpoint parser *)
(* ================================================================== *)

(** [Utils.getGuid(decEndpoint, initialName)], [Utils.uniqueId] and
    [Utils.resolvedId] are functions of the endpoint's own fields;
    [path.join] and [endpointParser.json2decomposed] (which yields name,
    source and target) come from outside the repository; [isDtUpdated]
    is the file-system test of [_isDtUpdated]. *)
Class Env := {
  getGuid : Endpoint.t -> option string -> Guid.t;
  uniqueId : Endpoint.t -> string;
  resolvedId : Endpoint.t -> string;
  path_join : string -> string -> string;
  json2decomposed : string -> string -> string * string * string;
  isDtUpdated : string -> bool
}.

(* ================================================================== *)
(** * Array helpers *)
(* ================================================================== *)

(** [Array.prototype.sort] with a comparator, as a stable insertion
    sort: an element goes before the first one it compares below. *)
Fixpoint insert_sorted {A : Type} (cmp : A -> A -> Z) (x : A) (l : list A) : list A :=
  match l with
  | [] => [x]
  | y :: l' => if (cmp x y <? 0)%Z then x :: l else y :: insert_sorted cmp x l'
  end.

Definition js_sort {A : Type} (cmp : A -> A -> Z) (l : list A) : list A :=
  fold_left (fun acc x => insert_sorted cmp x acc) l [].

(** [mout.array.remove(arr, item)]: the first occurrence only. *)
Fixpoint remove_first (a : addr) (l : list addr) : list addr :=
  match l with
  | [] => []
  | b :: l' => if (a =? b)%nat then l' else b :: remove_first a l'
  end.

(** [mout.array.findIndex]. *)
Fixpoint findIndex {A : Type} (p : A -> bool) (l : list A) : option nat :=
  match l with
  | [] => None
  | x :: l' => if p x then Some 0%nat else option_map S (findIndex p l')
  end.

(** [arr.splice(index, 1)]. *)
Fixpoint splice1 {A : Type} (i : nat) (l : list A) : list A :=
  match l, i with
  | [], _ => []
  | _ :: l', O => l'
  | x :: l', S i' => x :: splice1 i' l'
  end.

(** [mout.array.find] with a predicate that may throw. *)
Fixpoint find_throwing {A : Type} (p : A -> result bool) (l : list A)
  : result (option A) :=
  match l with
  | [] => Ret None
  | x :: l' =>
      match p x with
      | Throw e => Throw e
      | Ret true => Ret (Some x)
      | Ret false => find_throwing p l'
      end
  end.

(** [Object.keys(o).sort()]: code-unit order. *)
Definition str_cmp (a b : string) : Z :=
  match String.compare a b with
  | Lt => (-1)%Z
  | Eq => 0%Z
  | Gt => 1%Z
  end.

(* ================================================================== *)
(** * [_areCompatible] *)
(* ================================================================== *)

Section Compatibility.
Context `{SemverLib}.

(** The comparison of the two highest caps. *)
Definition same_cap (highestCandidate highestResolved : cap) : bool :=
  match cap_version highestResolved, cap_version highestCandidate with
  | Some rv, Some cv =>
      if negb (truthy rv) || negb (truthy cv) then false
      else eq cv rv &&
           opt_str_eqb (cap_comparator highestCandidate)
                       (cap_comparator highestResolved)
  | _, _ => false
  end.

(** The branch of [_areCompatible] taken when the resolved endpoint
    has no version yet: the decision is made on the two targets. *)
Definition compatible_targets (ct rt : string) : result bool :=
  let candidateIsRange := validRange ct in
  let resolvedIsRange := validRange rt in
  let candidateIsVersion := valid ct in
  let resolvedIsVersion := valid rt in
  if candidateIsVersion && resolvedIsRange then Ret (satisfies ct rt)
  else if resolvedIsVersion && candidateIsRange then Ret (satisfies rt ct)
  else if resolvedIsVersion && candidateIsVersion then Ret (eq rt ct)
  else if resolvedIsRange && candidateIsRange then
    match _getCap (comparators_of ct) "highest" with
    | Throw e => Throw e
    | Ret highestCandidate =>
        match _getCap (comparators_of rt) "highest" with
        | Throw e => Throw e
        | Ret highestResolved =>
            Ret (same_cap highestCandidate highestResolved)
        end
    end
  else Ret false.

(** [Manager.prototype._areCompatible(candidate, resolved)]. *)
Definition _areCompatible (candidate resolved : Endpoint.t) : result bool :=
  let ct := Endpoint.target candidate in
  let rt := Endpoint.target resolved in
  if String.eqb ct rt then Ret true
  else if negb (truthy_opt (Endpoint.version resolved)) then
    compatible_targets ct rt
  else
    let resolvedVersion := default "" (Endpoint.version resolved) in
    if valid ct then Ret (eq ct resolvedVersion)
    else if validRange ct then Ret (satisfies resolvedVersion ct)
    else Ret false.
End Compatibility.

(* ================================================================== *)
(** * The manager's operations *)
(* ================================================================== *)

(** Handlers run to completion on the manager and may throw; what they
    wrote before throwing stays written. *)
Definition M (A : Type) : Type := manager -> result A * manager.

Definition ret {A : Type} (a : A) : M A := fun m => (Ret a, m).
Definition throw {A : Type} (e : error) : M A := fun m => (Throw e, m).
Definition bind {A B : Type} (c : M A) (k : A -> M B) : M B :=
  fun m => match c m with
           | (Ret a, m') => k a m'
           | (Throw e, m') => (Throw e, m')
           end.
Definition gets {A : Type} (f : manager -> A) : M A := fun m => (Ret (f m), m).
Definition modify (f : manager -> manager) : M unit := fun m => (Ret tt, f m).
Definition lift {A : Type} (r : result A) : M A := fun m => (r, m).

Declare Scope manager_scope.
Delimit Scope manager_scope with mgr.
Notation "x <- c ;; k" := (bind c (fun x => k))
  (at level 100, c at next level, right associativity) : manager_scope.
Notation "c ;; k" := (bind c (fun _ => k))
  (at level 100, right associativity) : manager_scope.

(** [arr.forEach(f)]. *)
Fixpoint forEach {A : Type} (f : A -> M unit) (l : list A) : M unit :=
  match l with
  | [] => ret tt
  | x :: l' => bind (f x) (fun _ => forEach f l')
  end.

Definition run {A : Type} (c : M A) (m : manager) : manager := snd (c m).
Definition outcome {A : Type} (c : M A) (m : manager) : result A := fst (c m).

(** [decEndpoints.filter(...)] of [_uniquify]: an element is dropped when
    a later one is the same object, or has the same name (the same
    source when neither is named) and the same target. *)
Definition same_package (current decEndpoint : Endpoint.t) : bool :=
  if negb (truthy_opt (Endpoint.name current))
     && negb (truthy_opt (Endpoint.name decEndpoint))
  then String.eqb (Endpoint.source current) (Endpoint.source decEndpoint)
  else opt_str_eqb (Endpoint.name current) (Endpoint.name decEndpoint).

Definition shadowed_by (m : manager) (a current : addr) : bool :=
  (current =? a)%nat
  || (same_package (deref m current) (deref m a)
      && String.eqb (Endpoint.target (deref m current)) (Endpoint.target (deref m a))).

(** [Manager.prototype._uniquify(decEndpoints)]. *)
Fixpoint _uniquify (m : manager) (decEndpoints : list addr) : list addr :=
  match decEndpoints with
  | [] => []
  | a :: rest =>
      if existsb (shadowed_by m a) rest then _uniquify m rest
      else a :: _uniquify m rest
  end.

(** The JSON-shaped report of [toData]. *)
Inductive data :=
| Data (endpoint : option string * string * string)
       (canonicalDir : option string)
       (pkgMeta : option PkgMeta.t)
       (extra : list string)
       (dependencies : option (list (string * data)))
       (nrDependants : nat).

(** The flags [extraKeys] can select; a flag is mixed into the report
    when it is truthy. *)
Definition flag (e : Endpoint.t) (key : string) : bool :=
  if String.eqb key "newly" then Endpoint.newly e
  else if String.eqb key "unresolvable" then Endpoint.unresolvable e
  else if String.eqb key "untargetable" then Endpoint.untargetable e
  else if String.eqb key "linked" then Endpoint.linked e
  else false.

(** The [names.forEach] of [toData]: [recur] is the recursive call and
    [skipped] the ancestor test. *)
Fixpoint toData_children (recur : addr -> option data) (skipped : addr -> bool)
  (dependencies : JsObj.t addr) (names : list string)
  : option (list (string * data)) :=
  match names with
  | [] => Some []
  | name :: names' =>
      match JsObj.get name dependencies with
      | None => toData_children recur skipped dependencies names'
      | Some depDecEndpoint =>
          if skipped depDecEndpoint
          then toData_children recur skipped dependencies names'
          else
            match recur depDecEndpoint with
            | None => None
            | Some d =>
                match toData_children recur skipped dependencies names' with
                | None => None
                | Some ds => Some ((name, d) :: ds)
                end
            end
      end
  end.

(** What the continuation [nextStep] of [_onFetchSuccess] closes over. *)
Module Frame.
Record t := {
  decEndpoint : addr;
  canonicalDir : string;
  pkgMeta : PkgMeta.t;
  isTargetable : bool;
  initialName : option string;
  name : string;
  oldGuid : Guid.t
}.
End Frame.

(** [_onFetchSuccess] either ran [nextStep] at once or is waiting for
    the move of the renamed package to finish. *)
Inductive success_state :=
| Stepped
| Moving (frame : Frame.t).

(** [resolved[index.dependants]] in the merge of [nextStep]: [index] is
    a number, its [dependants] property is [undefined], and the array
    has no element under that key, so [push.apply] receives [undefined]
    and appends nothing. *)
Definition resolved_at_index_dependants (resolved : list addr) (index : nat)
  : list addr := [].

(** What [_electSuitable] hands back: the promise is resolved with the
    elected endpoint, or the user is being asked to choose among the
    picks. *)
Inductive election :=
| Elected (suitable : addr)
| Asking (picks : list addr).

(** The answer to the prompt, as the continuation decodes it: [save] is
    set when the text starts or ends with an exclamation mark, [index] is
    the position [choice - 1] when the number typed denotes one. *)
Module Reply.
Record t := { save : bool; index : option nat }.
End Reply.

(** One election scheduled by [_dissect]. *)
Module Job.
Record t := { rId : string; semvers : list addr; nonSemvers : list addr }.
End Job.

(** What [resolve()] returns at once: a promise already rejected, or
    the promise of the run. *)
Inductive resolve_reply :=
| RejectedWith (e : error)
| Started.

Section Operations.
Context `{SemverLib} `{Env}.
Local Open Scope manager_scope.

(** [Manager.prototype.toData(decEndpoint, extraKeys, upperDeps)];
    [fuel] bounds the depth of the recursion, [None] means it ran
    out. *)
Fixpoint toData (fuel : nat) (m : manager) (decEndpoint : addr)
  (extraKeys : list string) (upperDeps : list string) : option data :=
  match fuel with
  | O => None
  | S fuel' =>
      let e := deref m decEndpoint in
      let id := uniqueId e in
      let shown := truthy_opt (Endpoint.canonicalDir e) in
      let finish deps :=
        Data (Endpoint.name e, Endpoint.source e, Endpoint.target e)
             (if shown then Endpoint.canonicalDir e else None)
             (if shown then Endpoint.pkgMeta e else None)
             (List.filter (flag e) extraKeys)
             deps
             (length (Endpoint.dependants e)) in
      match Endpoint.dependencies e with
      | None => Some (finish None)
      | Some dependencies =>
          let names := js_sort str_cmp (JsObj.keys dependencies) in
          match toData_children
                  (fun child => toData fuel' m child extraKeys (upperDeps ++ [id]))
                  (fun child =>
                     existsb (String.eqb (uniqueId (deref m child))) upperDeps)
                  dependencies names with
          | None => None
          | Some children => Some (finish (Some children))
          end
      end
  end.

(** [Manager.prototype._fetch(decEndpoint)]: returns the promise of
    the fetch, or [undefined] once the run has started to fail. *)
Definition _fetch (decEndpoint : addr) : M (option nat) :=
  fun m =>
    if _hasFailed m then (Ret None, m)
    else
      let guid := getGuid (deref m decEndpoint) None in
      let m := update decEndpoint (Endpoint.with__guid (Some guid)) m in
      let fId := Guid.fId guid in
      let m := with__fetching
                 (JsObj.set fId
                    (default [] (JsObj.get fId (_fetching m)) ++ [decEndpoint])
                    (_fetching m)) m in
      let m := with__nrFetching (incr (_nrFetching m)) m in
      let deferred := promises m in
      let m := with_promises (S deferred) m in
      let m := update decEndpoint (Endpoint.with_promise (Some deferred)) m in
      let m := emit (RepoFetch decEndpoint) m in
      (Ret (Some deferred), m).

(** [Manager.prototype._failFast()]. *)
Definition _failFast : M unit :=
  fun m =>
    if _hasFailed m then (Ret tt, m)
    else
      let m := with__hasFailed true m in
      let m := with__failFastTimeout true m in
      (Ret tt, emit SetFailFastTimeout m).

(** [Manager.prototype._onFetchError(decEndpoint, err)]; the note of
    the endpoint that the handler attaches to the error is not kept. *)
Definition _onFetchError (decEndpoint : addr) (err : error) : M unit :=
  guid <- gets (fun m => getGuid (deref m decEndpoint) None) ;;
  modify (update decEndpoint (Endpoint.with__guid (Some guid))) ;;
  modify (fun m =>
    match JsObj.get (Guid.fId guid) (_fetching m) with
    | Some fetching =>
        with__fetching
          (JsObj.set (Guid.fId guid) (remove_first decEndpoint fetching)
             (_fetching m)) m
    | None => m
    end) ;;
  modify (fun m => with__nrFetching (decr (_nrFetching m)) m) ;;
  modify (fun m =>
    with__failed
      (JsObj.set (Guid.rId guid)
         (default [] (JsObj.get (Guid.rId guid) (_failed m)) ++ [err])
         (_failed m)) m) ;;
  modify (update decEndpoint (Endpoint.with_promise None)) ;;
  _failFast ;;
  nr <- gets _nrFetching ;;
  if none_left nr then modify (emit NextTickDissect) else ret tt.

(** One iteration of the [forOwn] of [_parseDependencies], for the
    entry [key: value] of the manifest section. *)
Definition parseDependency (decEndpoint : addr) (pkgMeta : PkgMeta.t)
  (jsonKey key value : string) : M unit :=
  let '(n, s, t) := json2decomposed key value in
  child <- (fun m => let (c, m') := alloc (Endpoint.fresh (Some n) s t) m in
                     (Ret c, m')) ;;
  renamed <- gets (fun m => JsObj.get n (_renamed m)) ;;
  (if truthy_opt renamed
   then modify (update child
                  (fun e => Endpoint.with_name renamed
                              (Endpoint.with__oldName (Some n) e)))
   else ret tt) ;;
  guid <- gets (fun m => getGuid (deref m child) None) ;;
  modify (update child (Endpoint.with__guid (Some guid))) ;;
  let attach : M unit :=
    (* neither resolved nor awaited: fetch it *)
    modify (fun m =>
      update child
        (Endpoint.with_unresolvable (Endpoint.unresolvable (deref m decEndpoint)))
        m) ;;
    modify (fun m =>
      update decEndpoint
        (fun e => Endpoint.with_dependencies
                    (Some (JsObj.set key child
                             (default [] (Endpoint.dependencies e)))) e) m) ;;
    modify (update child (Endpoint.with_dependants [decEndpoint])) ;;
    _ <- _fetch child ;;
    ret tt in
  let awaited : M unit :=
    fetching <- gets (fun m => JsObj.get (Guid.fId guid) (_fetching m)) ;;
    match fetching with
    | None => attach
    | Some fetching =>
        compatible <- (fun m =>
          (find_throwing
             (fun f => _areCompatible (deref m child) (deref m f)) fetching, m)) ;;
        promise <- gets (fun m =>
          match compatible with
          | Some c => Endpoint.promise (deref m c)
          | None => None
          end) ;;
        match promise with
        | None => attach
        | Some promise =>
            pGuid <- gets (fun m => getGuid (deref m decEndpoint) None) ;;
            pending <- gets _pendingDep ;;
            match pending with
            | None =>
                throw (TypeError "Cannot read property of undefined")
            | Some pending =>
                let info :=
                  default {| PendingDep.decEndpoint := decEndpoint;
                             PendingDep.pkgMeta := pkgMeta;
                             PendingDep.jsonKey := jsonKey;
                             PendingDep.promiseList := [] |}
                          (JsObj.get (Guid.id pGuid) pending) in
                let info :=
                  {| PendingDep.decEndpoint := PendingDep.decEndpoint info;
                     PendingDep.pkgMeta := PendingDep.pkgMeta info;
                     PendingDep.jsonKey := PendingDep.jsonKey info;
                     PendingDep.promiseList :=
                       PendingDep.promiseList info ++ [promise] |} in
                modify (with__pendingDep
                          (Some (JsObj.set (Guid.id pGuid) info pending)))
            end
        end
    end in
  resolved <- gets (fun m => JsObj.get (Guid.rId guid) (_resolved m)) ;;
  match resolved with
  | None => awaited
  | Some resolved =>
      exact <- gets (fun m =>
        find (fun r => String.eqb (Endpoint.target (deref m child))
                                  (Endpoint.target (deref m r))) resolved) ;;
      match exact with
      | Some compatible =>
          modify (fun m =>
            update decEndpoint
              (fun e => Endpoint.with_dependencies
                          (Some (JsObj.set key compatible
                                   (default [] (Endpoint.dependencies e)))) e) m) ;;
          modify (fun m =>
            update compatible
              (fun e => Endpoint.with_dependants
                          (Endpoint.dependants e ++ [decEndpoint]) e) m) ;;
          modify (fun m =>
            update compatible
              (fun e => Endpoint.with_dependants
                          (_uniquify m (Endpoint.dependants e)) e) m)
      | None =>
          compatible <- (fun m =>
            (find_throwing
               (fun r => _areCompatible (deref m child) (deref m r)) resolved, m)) ;;
          match compatible with
          | Some compatible =>
              modify (fun m =>
                let c := deref m compatible in
                update child
                  (fun e =>
                     Endpoint.with_dependants [decEndpoint]
                       (Endpoint.with_dependencies (Endpoint.dependencies c)
                          (Endpoint.with_pkgMeta (Endpoint.pkgMeta c)
                             (Endpoint.with_canonicalDir
                                (Endpoint.canonicalDir c) e)))) m) ;;
              modify (fun m =>
                with__resolved
                  (JsObj.set (Guid.rId guid)
                     (default [] (JsObj.get (Guid.rId guid) (_resolved m))
                      ++ [child])
                     (_resolved m)) m)
          | None => awaited
          end
      end
  end.

(** [Manager.prototype._parseDependencies(decEndpoint, pkgMeta, jsonKey)]. *)
Definition _parseDependencies (decEndpoint : addr) (pkgMeta : PkgMeta.t)
  (jsonKey : string) : M unit :=
  modify (fun m =>
    update decEndpoint
      (fun e => Endpoint.with_dependencies
                  (Some (default [] (Endpoint.dependencies e))) e) m) ;;
  forEach (fun kv => parseDependency decEndpoint pkgMeta jsonKey (fst kv) (snd kv))
          (PkgMeta.section pkgMeta jsonKey).

(** The function [nextStep(oldName, newName)] inside
    [_onFetchSuccess]. *)
Definition nextStep (fr : Frame.t) (oldName newName : option string) : M unit :=
  let decEndpoint := Frame.decEndpoint fr in
  let oldFId := Guid.fId (Frame.oldGuid fr) in
  (* var fetching = this._fetching[oldGuid.fId] *)
  fetching <- gets (fun m => JsObj.get oldFId (_fetching m)) ;;
  modify (fun m =>
    match JsObj.get oldFId (_fetching m) with
    | Some l =>
        with__fetching
          (JsObj.set oldFId (remove_first decEndpoint l) (_fetching m)) m
    | None => m
    end) ;;
  modify (fun m => with__nrFetching (decr (_nrFetching m)) m) ;;
  (if truthy_opt oldName
   then modify (update decEndpoint
                  (fun e => Endpoint.with_name newName
                              (Endpoint.with__oldName oldName e)))
   else modify (update decEndpoint (Endpoint.with_name (Some (Frame.name fr))))) ;;
  modify (update decEndpoint
            (fun e => Endpoint.with_pkgMeta (Some (Frame.pkgMeta fr))
                        (Endpoint.with_canonicalDir
                           (Some (Frame.canonicalDir fr)) e))) ;;
  newGuid <- gets (fun m => getGuid (deref m decEndpoint) (Frame.initialName fr)) ;;
  modify (update decEndpoint (Endpoint.with__guid (Some newGuid))) ;;
  let rId := Guid.rId newGuid in
  let resolved_now (m : manager) := default [] (JsObj.get rId (_resolved m)) in
  (* resolved = this._resolved[rId] = this._resolved[rId] || [] *)
  modify (fun m => with__resolved (JsObj.set rId (resolved_now m) (_resolved m)) m) ;;
  index <- gets (fun m =>
    findIndex
      (fun r =>
         String.eqb (Endpoint.target (deref m r))
                    (Endpoint.target (deref m decEndpoint))
         && String.eqb (Endpoint.source (deref m r))
                       (Endpoint.source (deref m decEndpoint)))
      (resolved_now m)) ;;
  match index with
  | Some index =>
      modify (fun m =>
        update decEndpoint
          (fun e => Endpoint.with_dependants
                      (Endpoint.dependants e
                       ++ resolved_at_index_dependants (resolved_now m) index) e)
          m) ;;
      modify (fun m =>
        update decEndpoint
          (fun e => Endpoint.with_dependants
                      (_uniquify m (Endpoint.dependants e)) e) m) ;;
      modify (fun m =>
        with__resolved
          (JsObj.set rId (splice1 index (resolved_now m)) (_resolved m)) m)
  | None => ret tt
  end ;;
  modify (fun m =>
    with__resolved
      (JsObj.set rId (resolved_now m ++ [decEndpoint]) (_resolved m)) m) ;;
  _parseDependencies decEndpoint (Frame.pkgMeta fr) "dependencies" ;;
  production <- gets (fun m => Config.production (config m)) ;;
  (if production then ret tt
   else _parseDependencies decEndpoint (Frame.pkgMeta fr) "devDependencies") ;;
  incompatibles <- gets (fun m => JsObj.get rId (_incompatibles m)) ;;
  match incompatibles with
  | Some incompatibles =>
      unresolved <- gets (fun m =>
        List.filter
          (fun incompatible =>
             negb (existsb
                     (fun r => String.eqb (Endpoint.target (deref m incompatible))
                                          (Endpoint.target (deref m r)))
                     (resolved_now m)))
          incompatibles) ;;
      unfetched <-
        match unresolved, fetching with
        | [], _ => ret []
        | _ :: _, None =>
            throw (TypeError "Cannot read property 'some' of undefined")
        | _ :: _, Some _ =>
            gets (fun m =>
              List.filter
                (fun incompatible =>
                   negb (existsb
                           (fun f =>
                              String.eqb (Endpoint.target (deref m incompatible))
                                         (Endpoint.target (deref m f)))
                           (default [] (JsObj.get oldFId (_fetching m)))))
                unresolved)
        end ;;
      forEach (fun incompatible => _ <- _fetch incompatible ;; ret tt) unfetched ;;
      modify (fun m => with__incompatibles (JsObj.del rId (_incompatibles m)) m)
  | None => ret tt
  end ;;
  (if Frame.isTargetable fr then ret tt
   else modify (update decEndpoint (Endpoint.with_untargetable true))) ;;
  nr <- gets _nrFetching ;;
  if none_left nr then modify (emit NextTickDissect) else ret tt.

(** [Manager.prototype._onFetchSuccess(decEndpoint, canonicalDir,
    pkgMeta, isTargetable)], up to the point where it either calls
    [nextStep] or hands the move to the file system. *)
Definition _onFetchSuccess (decEndpoint : addr) (canonicalDir : string)
  (pkgMeta : PkgMeta.t) (isTargetable : bool) : M success_state :=
  e <- gets (fun m => deref m decEndpoint) ;;
  let initialName :=
    match Endpoint.initialName e with
    | Some n => Some n
    | None => Endpoint.name e
    end in
  let name := path_join (Endpoint.source e) (Endpoint.target e) in
  componentsDir <- gets componentsDir ;;
  let pkgPath := path_join componentsDir (PkgMeta.name pkgMeta) in
  let oldGuid := getGuid e initialName in
  modify (update decEndpoint (Endpoint.with__guid (Some oldGuid))) ;;
  let fr := {| Frame.decEndpoint := decEndpoint;
               Frame.canonicalDir := canonicalDir;
               Frame.pkgMeta := pkgMeta;
               Frame.isTargetable := isTargetable;
               Frame.initialName := initialName;
               Frame.name := name;
               Frame.oldGuid := oldGuid |} in
  renamed <- gets (fun m => JsObj.get (PkgMeta.name pkgMeta) (_renamed m)) ;;
  if negb (String.eqb name (PkgMeta.name pkgMeta))
     && negb (opt_str_eqb renamed (Some name))
  then
    modify (fun m =>
      with__resolved
        (JsObj.set (Guid.rId oldGuid)
           (default [] (JsObj.get (Guid.rId oldGuid) (_resolved m))
            ++ [decEndpoint])
           (_resolved m)) m) ;;
    let oldPath := path_join componentsDir name in
    modify (fun m => with__renamed (JsObj.set name (PkgMeta.name pkgMeta) (_renamed m)) m) ;;
    modify (emit (Mv oldPath pkgPath)) ;;
    ret (Moving fr)
  else
    nextStep fr None None ;;
    ret Stepped.

(** The callback of [mv], when the move succeeded and the emptied
    directories were pruned: [nextStep(name, pkgMeta.name)]. *)
Definition moved (fr : Frame.t) : M unit :=
  nextStep fr (Some (Frame.name fr)) (Some (PkgMeta.name (Frame.pkgMeta fr))).

(** The continuation [_fetch] attaches to [_onFetchSuccess]: the
    promise is deleted from the endpoint. *)
Definition settled (decEndpoint : addr) : M unit :=
  modify (update decEndpoint (Endpoint.with_promise None)).

(** The handlers [_fetch] chains on [repository.fetch]: a success runs
    [_onFetchSuccess], and whatever it throws reaches the failure
    handler, [_onFetchError]. *)
Definition fetched (decEndpoint : addr) (canonicalDir : string)
  (pkgMeta : PkgMeta.t) (isTargetable : bool) : M success_state :=
  fun m =>
    match _onFetchSuccess decEndpoint canonicalDir pkgMeta isTargetable m with
    | (Ret s, m') => (Ret s, m')
    | (Throw err, m') =>
        match _onFetchError decEndpoint err m' with
        | (Ret _, m'') => (Ret Stepped, m'')
        | (Throw e, m'') => (Throw e, m'')
        end
    end.

(** [Manager.prototype.resolve()], up to the point where it returns
    the promise. *)
Definition resolve : manager -> resolve_reply * manager :=
  fun m =>
    if _working m
    then (RejectedWith (Coded "EWORKING" "Already working" None []), m)
    else
      let m := with__fetching [] m in
      let m := with__nrFetching (Finite 0) m in
      let m := with__failed [] m in
      let m := with__hasFailed false m in
      let m := with__deferred (Some Pending) m in
      match _targets m with
      | [] => (Started, emit NextTickDissect m)
      | targets =>
          (Started,
           run (forEach (fun t => _ <- _fetch t ;; ret tt) targets) m)
      end.

(** The [fin] handler [resolve()] attaches to its promise. *)
Definition resolve_fin (m : manager) : manager := with__working false m.

(** The [then] handler [resolve()] attaches to its promise, for the
    entry [id] of [_pendingDep] once the promises it waits for are
    settled. *)
Definition pending_ready (id : string) : M unit :=
  pending <- gets _pendingDep ;;
  match pending with
  | None => ret tt
  | Some pending =>
      match JsObj.get id pending with
      | None => ret tt
      | Some info =>
          modify (with__pendingDep (Some (JsObj.del id pending))) ;;
          _parseDependencies (PendingDep.decEndpoint info)
            (PendingDep.pkgMeta info) (PendingDep.jsonKey info)
      end
  end.

(** [this._deferred.resolve()] and [this._deferred.reject(err)]. *)
Definition settle (d : deferred) (m : manager) : manager :=
  match _deferred m with
  | Some Pending => with__deferred (Some d) m
  | _ => m
  end.

(** [Manager.prototype._storeResolution(pick)]. *)
Definition _storeResolution (pick : addr) : M unit :=
  modify (fun m =>
    let e := deref m pick in
    let guid := default (getGuid e None) (Endpoint._guid e) in
    let resolution :=
      if String.eqb (Endpoint.target e) "*"
      then (if truthy_opt (Endpoint.release e)
            then default "*" (Endpoint.release e) else "*")
      else Endpoint.target e in
    with__resolutions (JsObj.set (Guid.rId guid) resolution (_resolutions m)) m).

(** The test of the [find] over [semvers]: [subject] is the same
    object as, or its version satisfies the target of, every
    candidate. *)
Definition suits_all (m : manager) (semvers : list addr) (subject : addr) : bool :=
  forallb
    (fun decEndpoint =>
       (subject =? decEndpoint)%nat
       || satisfies_opt (Endpoint.version (deref m subject))
                        (Endpoint.target (deref m decEndpoint)))
    semvers.

(** The first part of [_electSuitable]: the endpoint elected without
    a conflict, or the picks of the conflict. *)
Definition candidates (m : manager) (semvers nonSemvers : list addr)
  : addr + list addr :=
  match semvers, nonSemvers with
  | _ :: _, _ :: _ => inr (semvers ++ nonSemvers)
  | _, [single] => inl single
  | _, _ :: _ => inr nonSemvers
  | _, [] =>
      match find (suits_all m semvers) semvers with
      | Some suitable => inl suitable
      | None => inr semvers
      end
  end.

(** The comparator of [picks.sort]. *)
Definition pick_order (m : manager) (pick1 pick2 : addr) : Z :=
  let version1 := Endpoint.version (deref m pick1) in
  let version2 := Endpoint.version (deref m pick2) in
  let n1 := length (Endpoint.dependants (deref m pick1)) in
  let n2 := length (Endpoint.dependants (deref m pick2)) in
  let by_dependants :=
    if (n2 <? n1)%nat then (-1)%Z
    else if (n1 <? n2)%nat then 1%Z else 0%Z in
  if truthy_opt version1 && truthy_opt version2 then
    let comp := compare (default "" version1) (default "" version2) in
    if (comp =? 0)%Z then by_dependants else comp
  else if truthy_opt version1 then 1%Z
  else if truthy_opt version2 then (-1)%Z
  else by_dependants.

(** The index a stored resolution selects among the sorted picks. *)
Definition resolution_index (m : manager) (resolution : string)
  (picks : list addr) : option nat :=
  let by_range :=
    if validRange resolution then
      findIndex
        (fun pick =>
           truthy_opt (Endpoint.version (deref m pick))
           && satisfies_opt (Endpoint.version (deref m pick)) resolution)
        picks
    else None in
  match by_range with
  | Some i => Some i
  | None =>
      findIndex
        (fun pick =>
           String.eqb (Endpoint.target (deref m pick)) resolution
           || opt_str_eqb (Endpoint.release (deref m pick)) (Some resolution))
        picks
  end.

(** The pick a stored resolution settles the conflict with, if it
    applies: there is a resolution, no pick is unresolvable, and it
    selects one of the picks. *)
Definition resolution_pick (m : manager) (rId : string) (picks : list addr)
  : option addr :=
  match JsObj.get rId (_resolutions m) with
  | Some resolution =>
      if truthy resolution
         && negb (existsb (fun pick => Endpoint.unresolvable (deref m pick)) picks)
      then
        match resolution_index m resolution picks with
        | Some i => picks !! i
        | None => None
        end
      else None
  | None => None
  end.

(** [Manager.prototype._electSuitable(rId, semvers, nonSemvers)].
    The picks handed to the logger and to the error are the sorted
    picks; their rendering by [toData] is not kept.  The endpoints come
    from [_dissect], which has read the manifest of each of them: a
    version is read through [Endpoint.version]. *)
Definition _electSuitable (rId : string) (semvers nonSemvers : list addr)
  : M election :=
  m0 <- gets (fun m => m) ;;
  match candidates m0 semvers nonSemvers with
  | inl suitable => ret (Elected suitable)
  | inr picks =>
      modify (fun m => with__conflicted (JsObj.set rId true (_conflicted m)) m) ;;
      picks <- gets (fun m => js_sort (pick_order m) picks) ;;
      chosen <- gets (fun m => resolution_pick m rId picks) ;;
      match chosen with
      | Some suitable => ret (Elected suitable)
      | None =>
          forceLatest <- gets _forceLatest ;;
          if forceLatest then
            match picks !! (length picks - 1)%nat with
            | Some suitable =>
                _storeResolution suitable ;;
                ret (Elected suitable)
            | None =>
                throw (TypeError "Cannot read property '_guid' of undefined")
            end
          else
            interactive <- gets (fun m => Config.interactive (config m)) ;;
            if negb interactive then
              throw (Coded "ECONFLICT"
                       ("Unable to find suitable version for " ++ rId)
                       (Some rId) picks)
            else
              modify (emit (Prompt rId picks)) ;;
              ret (Asking picks)
      end
  end.

(** The continuation of the prompt of [_electSuitable]. *)
Definition answered (picks : list addr) (reply : Reply.t) : M (option addr) :=
  let pick :=
    match Reply.index reply with
    | Some i => picks !! i
    | None => None
    end in
  if Reply.save reply then
    match pick with
    | Some p => _storeResolution p ;; ret (Some p)
    | None => throw (TypeError "Cannot read property '_guid' of undefined")
    end
  else ret pick.

(** [!!decEndpoint.pkgMeta.version]; an endpoint without [pkgMeta]
    makes the property access throw. *)
Definition has_version (decEndpoint : addr) : M bool :=
  fun m =>
    match Endpoint.pkgMeta (deref m decEndpoint) with
    | Some pkgMeta => (Ret (truthy_opt (PkgMeta.version pkgMeta)), m)
    | None => (Throw (TypeError "Cannot read property 'version' of undefined"), m)
    end.

(** [decEndpoints.filter(...)] with a test that may throw. *)
Fixpoint filter_by (keep : addr -> M bool) (l : list addr) : M (list addr) :=
  match l with
  | [] => ret []
  | a :: l' =>
      b <- keep a ;;
      rest <- filter_by keep l' ;;
      ret (if b then a :: rest else rest)
  end.

(** The comparator of [semvers.sort] in [_dissect]. *)
Definition semver_order (m : manager) (first second : addr) : Z :=
  let result :=
    rcompare (default "" (Endpoint.version (deref m first)))
             (default "" (Endpoint.version (deref m second))) in
  if (result =? 0)%Z then
    if String.eqb (Endpoint.target (deref m first)) "*" then 1%Z
    else if String.eqb (Endpoint.target (deref m second)) "*" then (-1)%Z
    else result
  else result.

(** The body of the [semvers.forEach] of [_dissect]: a wildcard target
    of a newly added, targetable endpoint becomes a tilde range. *)
Definition promote (decEndpoint : addr) : M unit :=
  modify (fun m =>
    let e := deref m decEndpoint in
    if Endpoint.newly e && String.eqb (Endpoint.target e) "*"
       && negb (Endpoint.untargetable e)
    then
      update decEndpoint
        (fun e => Endpoint.with_originalTarget (Some "*")
                    (Endpoint.with_target
                       ("~" ++ default "undefined" (Endpoint.version e)) e)) m
    else m).

(** The callback of the [forOwn] over [_resolved] in [_dissect], up to
    the election it schedules. *)
Definition prepare (rId : string) (decEndpoints : list addr) : M Job.t :=
  semvers <- filter_by has_version decEndpoints ;;
  semvers <- gets (fun m => js_sort (semver_order m) semvers) ;;
  forEach promote semvers ;;
  nonSemvers <- filter_by (fun a => b <- has_version a ;; ret (negb b)) decEndpoints ;;
  ret {| Job.rId := rId; Job.semvers := semvers; Job.nonSemvers := nonSemvers |}.

Fixpoint prepare_all (resolved : JsObj.t (list addr)) : M (list Job.t) :=
  match resolved with
  | [] => ret []
  | (rId, decEndpoints) :: rest =>
      job <- prepare rId decEndpoints ;;
      jobs <- prepare_all rest ;;
      ret (job :: jobs)
  end.

(** [Manager.prototype._dissect()], the part that runs at once: on a
    failed run the promise of [resolve()] is rejected with the first
    error and nothing is scheduled; otherwise the elections are. *)
Definition _dissect : M (option (list Job.t)) :=
  hasFailed <- gets _hasFailed ;;
  if hasFailed then
    modify (fun m => emit ClearFailFastTimeout (with__failFastTimeout false m)) ;;
    failed <- gets (fun m => JsObj.values (_failed m)) ;;
    match failed with
    | (err :: _) :: _ => modify (settle (Rejected err)) ;; ret None
    | _ => throw (TypeError "Cannot read property '0' of undefined")
    end
  else
    resolved <- gets _resolved ;;
    jobs <- prepare_all resolved ;;
    ret (Some jobs).

(** The chain of elections: each one waits for the one before, and
    for the user's reply when it asks. *)
Fixpoint elections (replies : string -> Reply.t) (jobs : list Job.t)
  (suitables : JsObj.t (option addr)) : M (JsObj.t (option addr)) :=
  match jobs with
  | [] => ret suitables
  | job :: jobs' =>
      e <- _electSuitable (Job.rId job) (Job.semvers job) (Job.nonSemvers job) ;;
      suitable <-
        match e with
        | Elected suitable => ret (Some suitable)
        | Asking picks => answered picks (replies (Job.rId job))
        end ;;
      elections replies jobs' (JsObj.set (Job.rId job) suitable suitables)
  end.

(** The test of the filter that computes [_dissected]. *)
Definition needs_install (m : manager) (rId : string) (decEndpoint : addr) : bool :=
  let e := deref m decEndpoint in
  let dst := path_join (componentsDir m) rId in
  if Endpoint.linked e then false
  else if opt_str_eqb (Some dst) (Endpoint.canonicalDir e) && negb (isDtUpdated dst)
  then false
  else
    match JsObj.get rId (_installed m) with
    | Some installedMeta =>
        if opt_str_eqb (PkgMeta._target installedMeta) (Some (Endpoint.target e))
           && opt_str_eqb (PkgMeta._originalSource installedMeta)
                          (Some (Endpoint.source e))
           && opt_str_eqb (PkgMeta._release installedMeta) (Endpoint.release e)
        then Config.force (config m)
        else true
    | None => true
    end.

Fixpoint dissected_of (m : manager) (suitables : JsObj.t (option addr))
  : result (JsObj.t addr) :=
  match suitables with
  | [] => Ret []
  | (rId, None) :: _ => Throw (TypeError "Cannot read property 'linked' of undefined")
  | (rId, Some a) :: rest =>
      match dissected_of m rest with
      | Throw e => Throw e
      | Ret d => Ret (if needs_install m rId a then (rId, a) :: d else d)
      end
  end.

(** What [_dissect] chains after the elections: stale resolutions are
    dropped and the endpoints to install are kept. *)
Definition finish (suitables : JsObj.t (option addr)) : M unit :=
  modify (fun m =>
    with__resolutions
      (List.filter
         (fun kv => default false (JsObj.get (fst kv) (_conflicted m)))
         (_resolutions m)) m) ;;
  d <- (fun m => (dissected_of m suitables, m)) ;;
  modify (with__dissected d).

(** A whole dissection: the part that runs at once, then the chain,
    whose outcome settles the promise of [resolve()]. *)
Definition dissect (replies : string -> Reply.t) : M unit :=
  jobs <- _dissect ;;
  match jobs with
  | None => ret tt
  | Some jobs =>
      fun m =>
        match (suitables <- elections replies jobs [] ;; finish suitables) m with
        | (Ret _, m') => (Ret tt, settle Resolved m')
        | (Throw err, m') => (Ret tt, settle (Rejected err) m')
        end
  end.

(** The callback of the fail-fast timer. *)
Definition failFastTimer (replies : string -> Reply.t) : M unit :=
  modify (with__nrFetching Infinity) ;;
  dissect replies.
End Operations.

(* ================================================================== *)
(** * A fragment of semver, for the examples *)
(* ================================================================== *)

(** Versions are [X.Y.Z], possibly followed by the prerelease tag [-0];
    ranges are the wildcard, a version, a tilde range, or primitive
    comparators separated by single spaces.  The comparator sets are
    those of the library release the source comments quote: a tilde
    range on [X.Y.Z] is [>=X.Y.Z-0 <X.(Y+1).0-0]. *)
Module MiniSemver.
Fixpoint digits_value (s : string) (acc : nat) : nat :=
  match s with
  | String c s' =>
      if is_digit c then digits_value s' (10 * acc + (nat_of_ascii c - 48))
      else acc
  | EmptyString => acc
  end.

(** A run of digits and what follows it. *)
Definition number (s : string) : option (nat * string) :=
  match digits1 s with
  | Some rest => Some (digits_value s 0, rest)
  | None => None
  end.

(** Major, minor, patch, and whether the version is the prerelease
    [-0]. *)
Definition parse (s : string) : option (nat * nat * nat * bool) :=
  match number s with
  | Some (x, s1) =>
      match dot s1 with
      | Some s2 =>
          match number s2 with
          | Some (y, s3) =>
              match dot s3 with
              | Some s4 =>
                  match number s4 with
                  | Some (z, s5) =>
                      if String.eqb s5 "" then Some (x, y, z, false)
                      else if String.eqb s5 "-0" then Some (x, y, z, true)
                      else None
                  | None => None
                  end
              | None => None
              end
          | None => None
          end
      | None => None
      end
  | None => None
  end.

Definition cmp_nat (a b : nat) : Z :=
  if (a <? b)%nat then (-1)%Z else if (b <? a)%nat then 1%Z else 0%Z.

Definition compare_parsed (a b : nat * nat * nat * bool) : Z :=
  let '(x1, y1, z1, p1) := a in
  let '(x2, y2, z2, p2) := b in
  if negb (cmp_nat x1 x2 =? 0)%Z then cmp_nat x1 x2
  else if negb (cmp_nat y1 y2 =? 0)%Z then cmp_nat y1 y2
  else if negb (cmp_nat z1 z2 =? 0)%Z then cmp_nat z1 z2
  else match p1, p2 with
       | true, false => (-1)%Z
       | false, true => 1%Z
       | _, _ => 0%Z
       end.

Definition compare (a b : string) : Z :=
  match parse a, parse b with
  | Some va, Some vb => compare_parsed va vb
  | _, _ => 0%Z
  end.

Definition show (n : nat) : string := NilEmpty.string_of_uint (Nat.to_uint n).

Definition show_version (x y z : nat) (pre : bool) : string :=
  show x +:+ "." +:+ show y +:+ "." +:+ show z +:+ (if pre then "-0" else "").

(** Split at single spaces. *)
Fixpoint words (s : string) (current : string) : list string :=
  match s with
  | EmptyString => [current]
  | String " " s' => current :: words s' ""
  | String c s' => words s' (current +:+ String c "")
  end.

(** A primitive comparator: operator and version. *)
Definition primitive (s : string) : option (string * (nat * nat * nat * bool)) :=
  match split_version s with
  | Some (op, v) =>
      match parse v with
      | Some pv =>
          if String.eqb op ">=" || String.eqb op "<=" || String.eqb op ">"
             || String.eqb op "<" || String.eqb op "=" || String.eqb op ""
          then Some (op, pv) else None
      | None => None
      end
  | None => None
  end.

(** The text of a comparator in the set: an upper bound [<X.Y.Z] is
    kept as [<X.Y.Z-0]. *)
Definition normal (c : string * (nat * nat * nat * bool)) : string :=
  let '(op, (x, y, z, pre)) := c in
  if String.eqb op "<" then op +:+ show_version x y z true
  else if String.eqb op "=" then show_version x y z pre
  else op +:+ show_version x y z pre.

Fixpoint primitives (ws : list string) : option (list string) :=
  match ws with
  | [] => Some []
  | w :: ws' =>
      match primitive w, primitives ws' with
      | Some c, Some cs => Some (normal c :: cs)
      | _, _ => None
      end
  end.

(** The comparator set of a range, when the fragment covers it. *)
Definition comparator_set (range : string) : option (list (list string)) :=
  if String.eqb range "*" || String.eqb range "" then Some [[""]]
  else
    match range with
    | String "~" v =>
        match parse v with
        | Some (x, y, z, false) =>
            Some [[">=" +:+ show_version x y z true;
                   "<" +:+ show_version x (S y) 0 true]]
        | _ => None
        end
    | _ =>
        match primitives (words range "") with
        | Some cs => Some [cs]
        | None => None
        end
    end.

(** Does the version meet one comparator of a set? *)
Definition meets (v : nat * nat * nat * bool) (c : string) : bool :=
  if String.eqb c "" then true
  else
    match primitive c with
    | Some (op, bound) =>
        let r := compare_parsed v bound in
        if String.eqb op ">=" then (0 <=? r)%Z
        else if String.eqb op "<=" then (r <=? 0)%Z
        else if String.eqb op ">" then (0 <? r)%Z
        else if String.eqb op "<" then (r <? 0)%Z
        else (r =? 0)%Z
    | None => false
    end.

Definition satisfies (version range : string) : bool :=
  match parse version, comparator_set range with
  | Some v, Some groups => existsb (forallb (meets v)) groups
  | _, _ => false
  end.

Definition toComparators (range : string) : list (list string) :=
  default [] (comparator_set range).
End MiniSemver.

#[export] Instance mini_semver : SemverLib := {|
  valid := fun v => match MiniSemver.parse v with Some _ => true | None => false end;
  validRange := fun r =>
    match MiniSemver.comparator_set r with Some _ => true | None => false end;
  satisfies := MiniSemver.satisfies;
  compare := MiniSemver.compare;
  rcompare := fun a b => MiniSemver.compare b a;
  gt := fun a b => (0 <? MiniSemver.compare a b)%Z;
  lt := fun a b => (MiniSemver.compare a b <? 0)%Z;
  eq := fun a b => (MiniSemver.compare a b =? 0)%Z;
  toComparators := MiniSemver.toComparators
|}.

(* ================================================================== *)
(** * [Utils] as the specification describes it *)
(* ================================================================== *)

(** Modelled from the spec: [Utils.getGuid], [Utils.uniqueId] and
    [Utils.resolvedId] (lib/util/Utils.js is not among the sources).
    The resolved id is the name if known, else the source; the fetch id
    combines the source with the requested target; the id includes name,
    source and target.  The specification does not say how the second
    argument of [getGuid] enters the tuple: it is not used here. *)
Module SpecUtils.
Definition rId (e : Endpoint.t) : string :=
  if truthy_opt (Endpoint.name e) then default "" (Endpoint.name e)
  else Endpoint.source e.

Definition fId (e : Endpoint.t) : string :=
  Endpoint.source e ++ "#" ++ Endpoint.target e.

Definition id (e : Endpoint.t) : string :=
  default "" (Endpoint.name e) ++ "|" ++ Endpoint.source e ++ "#" ++ Endpoint.target e.

Definition getGuid (e : Endpoint.t) (initialName : option string) : Guid.t :=
  {| Guid.rId := rId e; Guid.fId := fId e; Guid.id := id e |}.
End SpecUtils.

(** The environment of the examples: [path.join] on two plain segments
    and a parser that reads [key: target] with the key as source. *)
#[export] Instance spec_env : Env := {|
  getGuid := SpecUtils.getGuid;
  uniqueId := SpecUtils.id;
  resolvedId := SpecUtils.rId;
  path_join := fun a b => a +:+ "/" +:+ b;
  json2decomposed := fun key value => (key, key, value);
  isDtUpdated := fun _ => false
|}.

(* ================================================================== *)
(** * Vocabulary of the statements *)
(* ================================================================== *)

Section Vocabulary.
Context `{SemverLib} `{Env}.

(** What [_storeResolution] writes for a pick. *)
Definition stored_resolution (m : manager) (pick : addr) : string :=
  if String.eqb (Endpoint.target (deref m pick)) "*"
  then (if truthy_opt (Endpoint.release (deref m pick))
        then default "*" (Endpoint.release (deref m pick)) else "*")
  else Endpoint.target (deref m pick).

(** The key [_storeResolution] writes under: the [rId] of the pick's
    own identity tuple. *)
Definition resolution_key (m : manager) (pick : addr) : string :=
  Guid.rId (default (getGuid (deref m pick) None) (Endpoint._guid (deref m pick))).

(** [this._conflicted[rId] = true]. *)
Definition mark_conflicted (rId : string) (m : manager) : manager :=
  with__conflicted (JsObj.set rId true (_conflicted m)) m.

(** The error [_electSuitable] throws. *)
Definition ECONFLICT (rId : string) (picks : list addr) : error :=
  Coded "ECONFLICT" ("Unable to find suitable version for " ++ rId) (Some rId) picks.

(** The comparator orders three elements coherently: what is below an
    element is not above anything that element is not above. *)
Definition coherent_at {A : Type} (cmp : A -> A -> Z) (x y z : A) : bool :=
  implb ((cmp x y <? 0)%Z && (0 <=? cmp z y)%Z) (0 <=? cmp z x)%Z.

(** [b] is not below [a]. *)
Definition not_below {A : Type} (cmp : A -> A -> Z) (a b : A) : Prop :=
(0 <= cmp b a)%Z.

(** No element is below itself, and any three are ordered
    coherently. *)
Definition coherent_on {A : Type} (cmp : A -> A -> Z) (l : list A) : bool :=
  forallb (fun x => (0 <=? cmp x x)%Z) l
  && forallb (fun x => forallb (fun y => forallb (coherent_at cmp x y) l) l) l.

(** The ids [toData] can meet: those of the objects of the heap. *)
Definition all_ids (m : manager) : list string :=
uniqueId (Endpoint.fresh None "" "") :: map uniqueId (heap m).

Definition is_ancestor (upperDeps : list string) (id : string) : bool :=
existsb (String.eqb id) upperDeps.

(** The ids that are not in the ancestor chain yet. *)
Definition unseen (m : manager) (upperDeps : list string) : list string :=
List.filter (fun id => negb (is_ancestor upperDeps id)) (all_ids m).

(** A bound on the depth of the calls below [toData(decEndpoint, _,
    upperDeps)]: each level either adds a new id to the chain, or had
    its own id in the chain already, which its children cannot have. *)
Definition toData_depth (m : manager) (decEndpoint : addr) (upperDeps : list string)
  : nat :=
2 * length (unseen m upperDeps)
+ (if is_ancestor upperDeps (uniqueId (deref m decEndpoint)) then 1 else 0).

(** Enough fuel for any call of [toData] on the heap of [m]. *)
Definition toData_fuel (m : manager) : nat := 2 * length (heap m) + 4.

(** What the scheduler can deliver to the manager during a run. *)
Inductive event :=
| FetchSucceeded (decEndpoint : addr) (canonicalDir : string)
                 (pkgMeta : PkgMeta.t) (isTargetable : bool)
| MoveDone (frame : Frame.t)
| FetchSettled (decEndpoint : addr)
| FetchFailed (decEndpoint : addr) (err : error)
| PendingReady (id : string)
| DissectTick
| TimerFired.

(** The handler of an event; [replies] are the answers the user would
    give to the prompts. *)
Definition handle (replies : string -> Reply.t) (ev : event) : M unit :=
match ev with
| FetchSucceeded a dir meta targetable =>
    bind (fetched a dir meta targetable) (fun _ => ret tt)
| MoveDone frame => moved frame
| FetchSettled a => settled a
| FetchFailed a err => _onFetchError a err
| PendingReady id => pending_ready id
| DissectTick => dissect replies
| TimerFired => failFastTimer replies
end.

(** The manager after a sequence of events; an exception that escapes a
    handler ends that handler only. *)
Definition run_events (replies : string -> Reply.t) (evs : list event)
  (m : manager) : manager :=
fold_left (fun m ev => run (handle replies ev) m) evs m.

(** [c] keeps the property [I] of the manager, however it ends. *)
Definition preserves {A : Type} (I : manager -> Prop) (c : M A) : Prop :=
forall m, I m -> I (snd (c m)).

Definition is_repo_fetch (x : effect) : bool :=
match x with RepoFetch _ => true | _ => false end.

(** The calls of [repository.fetch] made so far. *)
Definition repo_fetches (m : manager) : list effect :=
List.filter is_repo_fetch (trace m).

(** The endpoint is an element of some list of [_fetching]. *)
Definition in_fetching (m : manager) (a : addr) : Prop :=
exists fId l, JsObj.get fId (_fetching m) = Some l /\ In a l.

(** The endpoint is an element of some list of [_resolved]. *)
Definition in_resolved (m : manager) (a : addr) : Prop :=
exists rId l, JsObj.get rId (_resolved m) = Some l /\ In a l.

(** The counter was only decremented, or forced to [Infinity]. *)
Definition not_incremented (before after : count) : Prop :=
match after, before with
| Finite n, Finite n0 => (n <= n0)%Z
| Infinity, _ => True
| Finite _, Infinity => False
end.

(** Since [m0], a state in which the run had failed, nothing was
    fetched: no call of the repository, no new deferred, no endpoint
    added to [_fetching], no increment of [_nrFetching]. *)
Definition failing_since (m0 m : manager) : Prop :=
_hasFailed m = true /\
repo_fetches m = repo_fetches m0 /\
promises m = promises m0 /\
(forall a, in_fetching m a -> in_fetching m0 a) /\
not_incremented (_nrFetching m0) (_nrFetching m).

(** The manager at the point where [nextStep] has taken the endpoint
    out of [_fetching] and given it its name, directory and manifest. *)
Definition named (fr : Frame.t) (oldName newName : option string) (m : manager)
  : manager :=
let decEndpoint := Frame.decEndpoint fr in
let oldFId := Guid.fId (Frame.oldGuid fr) in
let m :=
  match JsObj.get oldFId (_fetching m) with
  | Some l =>
      with__fetching (JsObj.set oldFId (remove_first decEndpoint l) (_fetching m)) m
  | None => m
  end in
let m := with__nrFetching (decr (_nrFetching m)) m in
let m :=
  if truthy_opt oldName
  then update decEndpoint
         (fun e => Endpoint.with_name newName (Endpoint.with__oldName oldName e)) m
  else update decEndpoint (Endpoint.with_name (Some (Frame.name fr))) m in
update decEndpoint
  (fun e => Endpoint.with_pkgMeta (Some (Frame.pkgMeta fr))
              (Endpoint.with_canonicalDir (Some (Frame.canonicalDir fr)) e)) m.

(** The identity computed from the authoritative name, and its [rId]. *)
Definition newGuid (fr : Frame.t) (oldName newName : option string) (m : manager)
  : Guid.t :=
getGuid (deref (named fr oldName newName m) (Frame.decEndpoint fr))
        (Frame.initialName fr).

Definition new_rId (fr : Frame.t) (oldName newName : option string) (m : manager)
  : string :=
Guid.rId (newGuid fr oldName newName m).

(** The manager at the point where [nextStep] has pushed the endpoint
    into [_resolved], after the merge with an exact twin. *)
Definition recorded (fr : Frame.t) (oldName newName : option string) (m : manager)
  : manager :=
let decEndpoint := Frame.decEndpoint fr in
let rId := new_rId fr oldName newName m in
let m := update decEndpoint
           (Endpoint.with__guid (Some (newGuid fr oldName newName m)))
           (named fr oldName newName m) in
let resolved_now (m : manager) := default [] (JsObj.get rId (_resolved m)) in
let m := with__resolved (JsObj.set rId (resolved_now m) (_resolved m)) m in
let index :=
  findIndex
    (fun r =>
       String.eqb (Endpoint.target (deref m r)) (Endpoint.target (deref m decEndpoint))
       && String.eqb (Endpoint.source (deref m r))
                     (Endpoint.source (deref m decEndpoint)))
    (resolved_now m) in
let m :=
  match index with
  | Some index =>
      let m :=
        update decEndpoint
          (fun e => Endpoint.with_dependants
                      (Endpoint.dependants e
                       ++ resolved_at_index_dependants (resolved_now m) index) e) m in
      let m :=
        update decEndpoint
          (fun e => Endpoint.with_dependants (_uniquify m (Endpoint.dependants e)) e)
          m in
      with__resolved (JsObj.set rId (splice1 index (resolved_now m)) (_resolved m)) m
  | None => m
  end in
with__resolved (JsObj.set rId (resolved_now m ++ [decEndpoint]) (_resolved m)) m.

(** What [nextStep] does after that: the dependencies are expanded, the
    incompatibles of [rId] not resolved and not in flight are fetched,
    an untargetable endpoint is flagged, the dissection is scheduled
    when nothing is in flight.  [fetching] is the array the variable of
    that name was bound to, if any. *)
Definition expand (fr : Frame.t) (rId : string) (fetching : option (list addr))
  : M unit :=
let decEndpoint := Frame.decEndpoint fr in
let oldFId := Guid.fId (Frame.oldGuid fr) in
let resolved_now (m : manager) := default [] (JsObj.get rId (_resolved m)) in
bind (_parseDependencies decEndpoint (Frame.pkgMeta fr) "dependencies") (fun _ =>
bind (gets (fun m => Config.production (config m))) (fun production =>
bind (if production then ret tt
      else _parseDependencies decEndpoint (Frame.pkgMeta fr) "devDependencies")
     (fun _ =>
bind (gets (fun m => JsObj.get rId (_incompatibles m))) (fun incompatibles =>
bind
  match incompatibles with
  | Some incompatibles =>
      bind (gets (fun m =>
        List.filter
          (fun incompatible =>
             negb (existsb
                     (fun r => String.eqb (Endpoint.target (deref m incompatible))
                                          (Endpoint.target (deref m r)))
                     (resolved_now m)))
          incompatibles)) (fun unresolved =>
      bind
        match unresolved, fetching with
        | [], _ => ret []
        | _ :: _, None =>
            throw (TypeError "Cannot read property 'some' of undefined")
        | _ :: _, Some _ =>
            gets (fun m =>
              List.filter
                (fun incompatible =>
                   negb (existsb
                           (fun f =>
                              String.eqb (Endpoint.target (deref m incompatible))
                                         (Endpoint.target (deref m f)))
                           (default [] (JsObj.get oldFId (_fetching m)))))
                unresolved)
        end (fun unfetched =>
      bind (forEach (fun incompatible => bind (_fetch incompatible) (fun _ => ret tt))
                    unfetched) (fun _ =>
      modify (fun m => with__incompatibles (JsObj.del rId (_incompatibles m)) m))))
  | None => ret tt
  end (fun _ =>
bind (if Frame.isTargetable fr then ret tt
      else modify (update decEndpoint (Endpoint.with_untargetable true))) (fun _ =>
bind (gets _nrFetching) (fun nr =>
if none_left nr then modify (emit NextTickDissect) else ret tt))))))).

(** The endpoint sits in [_fetching] under [fId] only, and once. *)
Definition fetching_once (m : manager) (a : addr) (fId : string) : Prop :=
(forall k l, JsObj.get k (_fetching m) = Some l -> In a l -> k = fId) /\
(forall l, JsObj.get fId (_fetching m) = Some l -> ~ In a (remove_first a l)).

(** The endpoint is an object of the heap, is in no list of [_fetching]
    and is in the list of [_resolved] under [rId]. *)
Definition settled_under (a : addr) (rId : string) (m : manager) : Prop :=
a < length (heap m) /\
~ in_fetching m a /\
exists l, JsObj.get rId (_resolved m) = Some l /\ In a l.

(** [decEndpoint.initialName != null ? decEndpoint.initialName :
    decEndpoint.name]. *)
Definition initialName_of (e : Endpoint.t) : option string :=
match Endpoint.initialName e with
| Some n => Some n
| None => Endpoint.name e
end.

(** The variables [_onFetchSuccess] binds before it branches. *)
Definition frame_of (a : addr) (canonicalDir : string) (pkgMeta : PkgMeta.t)
  (isTargetable : bool) (m : manager) : Frame.t :=
let e := deref m a in
{| Frame.decEndpoint := a;
   Frame.canonicalDir := canonicalDir;
   Frame.pkgMeta := pkgMeta;
   Frame.isTargetable := isTargetable;
   Frame.initialName := initialName_of e;
   Frame.name := path_join (Endpoint.source e) (Endpoint.target e);
   Frame.oldGuid := getGuid e (initialName_of e) |}.

(** The test of the rename branch of [_onFetchSuccess]. *)
Definition renames (fr : Frame.t) (m : manager) : bool :=
negb (String.eqb (Frame.name fr) (PkgMeta.name (Frame.pkgMeta fr)))
&& negb (opt_str_eqb (JsObj.get (PkgMeta.name (Frame.pkgMeta fr)) (_renamed m))
                     (Some (Frame.name fr))).

(** The manager when the rename branch hands the move to the file
    system. *)
Definition moving (fr : Frame.t) (m : manager) : manager :=
let a := Frame.decEndpoint fr in
let rId := Guid.rId (Frame.oldGuid fr) in
let m := update a (Endpoint.with__guid (Some (Frame.oldGuid fr))) m in
let m :=
  with__resolved
    (JsObj.set rId (default [] (JsObj.get rId (_resolved m)) ++ [a]) (_resolved m))
    m in
let m :=
  with__renamed
    (JsObj.set (Frame.name fr) (PkgMeta.name (Frame.pkgMeta fr)) (_renamed m)) m in
emit (Mv (path_join (componentsDir m) (Frame.name fr))
         (path_join (componentsDir m) (PkgMeta.name (Frame.pkgMeta fr)))) m.

(** The endpoint after the promotion step of [_dissect]. *)
Definition promoted (e : Endpoint.t) : Endpoint.t :=
if Endpoint.newly e && String.eqb (Endpoint.target e) "*"
   && negb (Endpoint.untargetable e)
then Endpoint.with_originalTarget (Some "*")
       (Endpoint.with_target ("~" ++ default "undefined" (Endpoint.version e)) e)
else e.

(** Every endpoint listed in [_resolved] carries its manifest. *)
Definition all_fetched (m : manager) : Prop :=
Forall (fun entry : string * list addr =>
          Forall (fun b => Endpoint.pkgMeta (deref m b) <> None) (snd entry))
       (_resolved m).

(** Since [m0] every object is as it was, or promoted. *)
Definition promoted_since (m0 m : manager) : Prop :=
forall c, deref m c = deref m0 c \/ deref m c = promoted (deref m0 c).

(** [c] throws no error that carries a code. *)
Definition quiet {A : Type} (c : M A) : Prop :=
forall m e, fst (c m) = Throw e -> error_code e = None.
End Vocabulary.

(* ================================================================== *)
(** * The configuration of the manager *)
(* ================================================================== *)

(** The argument of [configure]: [resolved] and [installed] are
    objects, read as empty when absent; [targets], [incompatibles] and
    [resolutions] default to empty ones. *)
Module Setup.
Record t := {
  resolved : JsObj.t addr;
  installed : JsObj.t PkgMeta.t;
  targets : list addr;
  incompatibles : list addr;
  resolutions : JsObj.t string;
  forceLatest : bool
}.
End Setup.

Definition with__installed (v : JsObj.t PkgMeta.t) (m : manager) : manager :=
  {| heap := heap m; config := config m; componentsDir := componentsDir m; _conflicted := _conflicted m; _resolved := _resolved m; _installed := v; _renamed := _renamed m; _targets := _targets m; _incompatibles := _incompatibles m; _resolutions := _resolutions m; _forceLatest := _forceLatest m; _working := _working m; _fetching := _fetching m; _nrFetching := _nrFetching m; _failed := _failed m; _hasFailed := _hasFailed m; _deferred := _deferred m; _pendingDep := _pendingDep m; _dissected := _dissected m; _failFastTimeout := _failFastTimeout m; promises := promises m; trace := trace m |}.
Definition with__targets (v : list addr) (m : manager) : manager :=
  {| heap := heap m; config := config m; componentsDir := componentsDir m; _conflicted := _conflicted m; _resolved := _resolved m; _installed := _installed m; _renamed := _renamed m; _targets := v; _incompatibles := _incompatibles m; _resolutions := _resolutions m; _forceLatest := _forceLatest m; _working := _working m; _fetching := _fetching m; _nrFetching := _nrFetching m; _failed := _failed m; _hasFailed := _hasFailed m; _deferred := _deferred m; _pendingDep := _pendingDep m; _dissected := _dissected m; _failFastTimeout := _failFastTimeout m; promises := promises m; trace := trace m |}.
Definition with__forceLatest (v : bool) (m : manager) : manager :=
  {| heap := heap m; config := config m; componentsDir := componentsDir m; _conflicted := _conflicted m; _resolved := _resolved m; _installed := _installed m; _renamed := _renamed m; _targets := _targets m; _incompatibles := _incompatibles m; _resolutions := _resolutions m; _forceLatest := v; _working := _working m; _fetching := _fetching m; _nrFetching := _nrFetching m; _failed := _failed m; _hasFailed := _hasFailed m; _deferred := _deferred m; _pendingDep := _pendingDep m; _dissected := _dissected m; _failFastTimeout := _failFastTimeout m; promises := promises m; trace := trace m |}.

(** [decEndpoint.initialName = v]. *)
Definition with_initialName (v : option string) (e : Endpoint.t) : Endpoint.t :=
  {| Endpoint.name := Endpoint.name e; Endpoint.source := Endpoint.source e; Endpoint.target := Endpoint.target e; Endpoint.initialName := v; Endpoint._oldName := Endpoint._oldName e; Endpoint.pkgMeta := Endpoint.pkgMeta e; Endpoint.canonicalDir := Endpoint.canonicalDir e; Endpoint.dependants := Endpoint.dependants e; Endpoint.dependencies := Endpoint.dependencies e; Endpoint.newly := Endpoint.newly e; Endpoint.unresolvable := Endpoint.unresolvable e; Endpoint.untargetable := Endpoint.untargetable e; Endpoint.linked := Endpoint.linked e; Endpoint.originalTarget := Endpoint.originalTarget e; Endpoint._guid := Endpoint._guid e; Endpoint.promise := Endpoint.promise e |}.

Section Configuration.
Context `{Env}.

(** The callback of the [forOwn] over [setup.resolved].  The
    dependants of an endpoint are kept as the list of the values of the
    object given; an endpoint without a manifest leaves [undefined] under
    its key in [_installed], which reads like an absent key. *)
Definition configure_resolved (m : manager) (entry : string * addr) : manager :=
  let (rId, decEndpoint) := entry in
  let m := with__resolved (JsObj.set rId [decEndpoint] (_resolved m)) m in
  match Endpoint.pkgMeta (deref m decEndpoint) with
  | Some pkgMeta => with__installed (JsObj.set rId pkgMeta (_installed m)) m
  | None => with__installed (JsObj.del rId (_installed m)) m
  end.

(** The callback of the [forOwn] over [setup.installed]. *)
Definition configure_installed (m : manager) (entry : string * PkgMeta.t) : manager :=
  with__installed (JsObj.set (fst entry) (snd entry) (_installed m)) m.

(** The callback of [this._targets.forEach]; [targetsHash] is threaded
    along. *)
Definition configure_target (st : manager * JsObj.t bool) (decEndpoint : addr)
  : manager * JsObj.t bool :=
  let (m, targetsHash) := st in
  let m := update decEndpoint (fun e => with_initialName (Endpoint.name e) e) m in
  let guid := getGuid (deref m decEndpoint) None in
  let m := update decEndpoint (Endpoint.with__guid (Some guid)) m in
  let targetsHash := JsObj.set (Guid.id guid) true targetsHash in
  let m := update decEndpoint
             (fun e => Endpoint.with_unresolvable (Endpoint.newly e) e) m in
  (m, targetsHash).

(** The callback of [setup.incompatibles.forEach]. *)
Definition configure_incompatible (targetsHash : JsObj.t bool) (m : manager)
  (decEndpoint : addr) : manager :=
  let guid := getGuid (deref m decEndpoint) None in
  let m := update decEndpoint (Endpoint.with__guid (Some guid)) m in
  let rId := Guid.rId guid in
  let m := with__incompatibles
             (JsObj.set rId
                (default [] (JsObj.get rId (_incompatibles m)) ++ [decEndpoint])
                (_incompatibles m)) m in
  let m := with__conflicted (JsObj.set rId true (_conflicted m)) m in
  if negb (default false (JsObj.get (Guid.id guid) targetsHash))
     && negb (match JsObj.get rId (_resolved m) with Some _ => true | None => false end)
  then with__targets (_targets m ++ [decEndpoint]) m
  else m.

(** [Manager.prototype.configure(setup)]. *)
Definition configure (setup : Setup.t) (m : manager) : manager :=
  let m := with__conflicted [] m in
  let m := with__resolved [] m in
  let m := with__installed [] m in
  let m := with__renamed [] m in
  let m := fold_left configure_resolved (Setup.resolved setup) m in
  let m := fold_left configure_installed (Setup.installed setup) m in
  let m := with__targets (Setup.targets setup) m in
  let (m, targetsHash) := fold_left configure_target (Setup.targets setup) (m, []) in
  let m := with__incompatibles [] m in
  let incompatibles := _uniquify m (Setup.incompatibles setup) in
  let m := fold_left (configure_incompatible targetsHash) incompatibles m in
  let m := with__resolutions (Setup.resolutions setup) m in
  let m := with__targets (_uniquify m (_targets m)) m in
  with__forceLatest (Setup.forceLatest setup) m.

(** [new Manager(config, logger)]: the constructor stores its
    arguments and configures the manager with an empty setup; the tables
    of a run are not created before [resolve()], and [_pendingDep] is
    assigned nowhere. *)
Definition Manager (config : Config.t) (componentsDir : string) : manager :=
  configure
    {| Setup.resolved := []; Setup.installed := []; Setup.targets := [];
       Setup.incompatibles := []; Setup.resolutions := [];
       Setup.forceLatest := false |}
    {| heap := []; config := config; componentsDir := componentsDir;
       _conflicted := []; _resolved := []; _installed := []; _renamed := [];
       _targets := []; _incompatibles := []; _resolutions := [];
       _forceLatest := false; _working := false; _fetching := [];
       _nrFetching := Finite 0; _failed := []; _hasFailed := false;
       _deferred := None; _pendingDep := None; _dissected := [];
       _failFastTimeout := false; promises := 0; trace := [] |}.
End Configuration.

(* ================================================================== *)
(** * The base resolver (src/lib/core/resolvers/Resolver.js) *)
(* ================================================================== *)

(** The fields of a manifest the resolver reads or writes: [main] is
    the truthiness of the entry of that name, [_resolution] is present
    when the manifest has one and holds its [type], if any. *)
Module ResolverMeta.
Record t := {
  name : option string;
  main : bool;
  ignore : option (list string);
  _source : option string;
  _target : option string;
  _resolution : option (option string)
}.
End ResolverMeta.

(** [path.basename] and [process.pid], as text. *)
Class Host := {
  basename : string -> string;
  pid : string
}.

Module Resolver.

(** Calls that leave the resolver, in the order they are issued. *)
Inductive call :=
| ReadJson (dir : option string)
| ReadJsonFile (dir file : string)
| LogDebug (id : string)
| LogWarn (id subject : string) (attr : option string)
| RemoveIgnores (dir : option string)
| WriteFile (dir : option string) (file : string) (contents : ResolverMeta.t)
| PostResolved (name : option string) (dir : option string)
| Mkdirp (dir : string)
| TmpDir (dir name pid : string)
| Rimraf (dir : string).

(** The resolver object; [calls] records the outgoing calls. *)
Record t := {
  _source : string;
  _target : string;
  _name : option string;
  _guessedName : bool;
  _working : bool;
  _workingDir : option string;
  _pkgMeta : option ResolverMeta.t;
  tmp : string;
  calls : list call
}.

Definition with__name (v : option string) (r : t) : t :=
  {| _source := _source r; _target := _target r; _name := v; _guessedName := _guessedName r; _working := _working r; _workingDir := _workingDir r; _pkgMeta := _pkgMeta r; tmp := tmp r; calls := calls r |}.
Definition with__working (v : bool) (r : t) : t :=
  {| _source := _source r; _target := _target r; _name := _name r; _guessedName := _guessedName r; _working := v; _workingDir := _workingDir r; _pkgMeta := _pkgMeta r; tmp := tmp r; calls := calls r |}.
Definition with__workingDir (v : option string) (r : t) : t :=
  {| _source := _source r; _target := _target r; _name := _name r; _guessedName := _guessedName r; _working := _working r; _workingDir := v; _pkgMeta := _pkgMeta r; tmp := tmp r; calls := calls r |}.
Definition with__pkgMeta (v : option ResolverMeta.t) (r : t) : t :=
  {| _source := _source r; _target := _target r; _name := _name r; _guessedName := _guessedName r; _working := _working r; _workingDir := _workingDir r; _pkgMeta := v; tmp := tmp r; calls := calls r |}.
Definition with_calls (v : list call) (r : t) : t :=
  {| _source := _source r; _target := _target r; _name := _name r; _guessedName := _guessedName r; _working := _working r; _workingDir := _workingDir r; _pkgMeta := _pkgMeta r; tmp := tmp r; calls := v |}.

Definition issue (c : call) (r : t) : t := with_calls (calls r ++ [c]) r.

(** What the resolver fails with: the error of
    [createError('Already working', 'EWORKING')], an [Error] with the
    message given, or an error of the kinds the manager knows. *)
Inductive failure :=
| EWORKING
| Plain (message : string)
| Raised (e : error).

(** How a promise settles. *)
Inductive outcome (A : Type) :=
| Fulfilled (a : A)
| Failed (e : failure).
Arguments Fulfilled {A} a.
Arguments Failed {A} e.

(** [meta._source = source; meta._target = target]. *)
Definition stamped (source target : string) (meta : ResolverMeta.t) : ResolverMeta.t :=
  {| ResolverMeta.name := ResolverMeta.name meta;
     ResolverMeta.main := ResolverMeta.main meta;
     ResolverMeta.ignore := ResolverMeta.ignore meta;
     ResolverMeta._source := Some source;
     ResolverMeta._target := Some target;
     ResolverMeta._resolution := ResolverMeta._resolution meta |}.

(** What a method that returns a promise does at once: it returns a
    promise that is rejected already, it throws, or it returns the
    promise of work in progress. *)
Inductive reply :=
| RejectedWith (e : failure)
| Thrown (e : failure)
| Promised.

(** How the calls that leave the resolver during [resolve()] end:
    [readJson] (with the name of what the manifest uses that is
    deprecated, if anything), [removeIgnores], [fs.writeFile], and the
    step [scripts.postresolved] adds to the chain. *)
Record io := {
  read : outcome (ResolverMeta.t * option string);
  removed : outcome unit;
  written : outcome unit;
  scripted : outcome unit
}.

(** The calls that write the manifest or run the script after it. *)
Definition writes (c : call) : bool :=
  match c with
  | WriteFile _ _ _ | PostResolved _ _ => true
  | _ => false
  end.

Section Methods.
Context `{Host}.

(** [new Resolver(decEndpoint, config, logger)]; [tmp] is
    [config.tmp]. *)
Definition Resolver (decEndpoint : Endpoint.t) (tmp : string) : t :=
  {| _source := Endpoint.source decEndpoint;
     _target := if truthy (Endpoint.target decEndpoint)
                then Endpoint.target decEndpoint else "*";
     _name := if truthy_opt (Endpoint.name decEndpoint)
              then Endpoint.name decEndpoint
              else Some (basename (Endpoint.source decEndpoint));
     _guessedName := negb (truthy_opt (Endpoint.name decEndpoint));
     _working := false;
     _workingDir := None;
     _pkgMeta := None;
     tmp := tmp;
     calls := [] |}.

Definition getSource (r : t) : string := _source r.
Definition getName (r : t) : option string := _name r.
Definition getTarget (r : t) : string := _target r.
Definition getTempDir (r : t) : option string := _workingDir r.
Definition getPkgMeta (r : t) : option ResolverMeta.t := _pkgMeta r.

(** [Resolver.prototype._hasNew]: resolved with [true]. *)
Definition _hasNew (canonicalDir : string) (pkgMeta : ResolverMeta.t) : outcome bool :=
  Fulfilled true.

(** [Resolver.prototype.hasNew(canonicalDir, pkgMeta)], up to the point
    where it returns the promise. *)
Definition hasNew (canonicalDir : string) (pkgMeta : option ResolverMeta.t) (r : t)
  : reply * t :=
  if _working r then (RejectedWith EWORKING, r)
  else
    let r := with__working true r in
    match pkgMeta with
    | Some _ => (Promised, r)
    | None => (Promised, issue (ReadJsonFile canonicalDir ".gitsu.json") r)
    end.

(** How that promise settles: [json] is how the reading of the
    manifest ended, when the manifest was not given. *)
Definition hasNew_settled (canonicalDir : string) (pkgMeta : option ResolverMeta.t)
  (json : outcome ResolverMeta.t) (r : t) : outcome bool * t :=
  let (answer, r) :=
    match pkgMeta with
    | Some pkgMeta => (_hasNew canonicalDir pkgMeta, r)
    | None =>
        match json with
        | Fulfilled pkgMeta => (_hasNew canonicalDir pkgMeta, r)
        | Failed err => (Fulfilled true, issue (LogDebug "read-json") r)
        end
    end in
  (answer, with__working false r).

(** What a [_resolve] does: it throws at once, or it returns a
    promise and tells how the promise settles ([true] when it is resolved
    with [null]) and the resolver as the work left it. *)
Inductive resolving :=
| Throws (e : failure)
| Returns (settles : outcome bool) (left : t).

(** [Resolver.prototype._resolve], which a concrete resolver
    replaces. *)
Definition _resolve (r : t) : resolving :=
  Throws (Plain "_resolve not implemented").

(** [Resolver.prototype._applyPkgMeta(meta)]. *)
Definition _applyPkgMeta (w : io) (meta : ResolverMeta.t) (r : t)
  : outcome ResolverMeta.t * t :=
  let r :=
    if negb (opt_str_eqb (ResolverMeta.name meta) (_name r)) && _guessedName r
    then with__name (ResolverMeta.name meta) r
    else r in
  match ResolverMeta.ignore meta with
  | None | Some [] => (Fulfilled meta, r)
  | Some (_ :: _) =>
      let r := issue (RemoveIgnores (_workingDir r)) r in
      match removed w with
      | Fulfilled _ => (Fulfilled meta, r)
      | Failed e => (Failed e, r)
      end
  end.

(** The warning for an entry the manifest lacks. *)
Definition warn_missing (meta : ResolverMeta.t) (attr : string) (present : bool)
  (r : t) : t :=
  if present then r
  else issue (LogWarn "invalid-meta"
                (if truthy_opt (ResolverMeta.name meta)
                 then default "" (ResolverMeta.name meta) else "component")
                (Some attr)) r.

(** [Resolver.prototype._savePkgMeta(meta, dir, gitsuName, skipWrite)];
    the manifest given is changed in place, and is the one kept in
    [_pkgMeta]. *)
Definition _savePkgMeta (w : io) (meta : ResolverMeta.t) (dir gitsuName : option string)
  (skipWrite : bool) (r : t) : outcome ResolverMeta.t * t :=
  let dir := if truthy_opt dir then dir else _workingDir r in
  let meta := stamped (_source r) (_target r) meta in
  let r := warn_missing meta "main" (ResolverMeta.main meta) r in
  let r := warn_missing meta "ignore"
             (match ResolverMeta.ignore meta with Some _ => true | None => false end) r in
  if negb skipWrite then
    let file := if truthy_opt gitsuName then default "" gitsuName else ".gitsu.json" in
    let r := issue (WriteFile dir file meta) r in
    match written w with
    | Fulfilled _ => (Fulfilled meta, with__pkgMeta (Some meta) r)
    | Failed e => (Failed e, r)
    end
  else (Fulfilled meta, with__pkgMeta (Some meta) r).

(** [Resolver.prototype._readJson(dir)]. *)
Definition _readJson (w : io) (dir : option string) (r : t)
  : outcome ResolverMeta.t * t :=
  let dir := if truthy_opt dir then dir else _workingDir r in
  let r := issue (ReadJson dir) r in
  match read w with
  | Failed e => (Failed e, r)
  | Fulfilled (json, deprecated) =>
      (Fulfilled json,
       if truthy_opt deprecated
       then issue (LogWarn "deprecated" (default "undefined" (_name r)) deprecated) r
       else r)
  end.

Section Resolving.
(** The [_resolve] of the resolver at hand. *)
Variable this_resolve : t -> resolving.

(** [Resolver.prototype.resolve()], up to the point where it returns
    the promise; the third component is how the promise of [_resolve]
    settles. *)
Definition resolve (r : t) : reply * t * option (outcome bool) :=
  if _working r then (RejectedWith EWORKING, r, None)
  else
    let r := with__working true r in
    match this_resolve r with
    | Throws e => (Thrown e, r, None)
    | Returns settles r' => (Promised, r', Some settles)
    end.

(** The handlers [resolve()] chains on the promise of [_resolve].
    When something was resolved, [scripts.postresolved] is called once
    [_savePkgMeta] has returned its promise, and what it returns is run
    after the write, if the write succeeds. *)
Definition resolve_settled (w : io) (settles : outcome bool) (r : t)
  : outcome (option string) * t :=
  let (chain, r) :=
    match settles with
    | Failed e => (Failed e, r)
    | Fulfilled nothing_resolved =>
        match _readJson w None r with
        | (Failed e, r) => (Failed e, r)
        | (Fulfilled meta, r) =>
            match _applyPkgMeta w meta r with
            | (Failed e, r) => (Failed e, r)
            | (Fulfilled _, r) =>
                if nothing_resolved
                then _savePkgMeta w meta None None true r
                else
                  let (saved, r) := _savePkgMeta w meta None None false r in
                  let r := issue (PostResolved (_name r) (_workingDir r)) r in
                  match saved with
                  | Failed e => (Failed e, r)
                  | Fulfilled saved =>
                      match scripted w with
                      | Fulfilled _ => (Fulfilled saved, r)
                      | Failed e => (Failed e, r)
                      end
                  end
            end
        end
    end in
  match chain with
  | Fulfilled _ => (Fulfilled (_workingDir r), with__working false r)
  | Failed err => (Failed err, with__working false (with__workingDir None r))
  end.
End Resolving.

Definition is_separator (c : ascii) : bool :=
  Ascii.eqb c "/" || Ascii.eqb c "\".

Definition is_upper (c : ascii) : bool :=
  let n := nat_of_ascii c in (65 <=? n)%nat && (n <=? 90)%nat.

(** At most two dots, then a separator, at the head of the text. *)
Definition relative_at (s : string) : bool :=
  match s with
  | String c s1 =>
      if is_separator c then true
      else if Ascii.eqb c "." then
        match s1 with
        | String c1 s2 =>
            if is_separator c1 then true
            else if Ascii.eqb c1 "." then
              match s2 with
              | String c2 _ => is_separator c2
              | EmptyString => false
              end
            else false
        | EmptyString => false
        end
      else false
  | EmptyString => false
  end.

(** The text left of [s] after the text [p] at its head. *)
Fixpoint strip (p s : string) : option string :=
  match p with
  | EmptyString => Some s
  | String c p' =>
      match s with
      | String d s' => if Ascii.eqb c d then strip p' s' else None
      | EmptyString => None
      end
  end.

(** The text after [file:] and two separators, when the text starts
    so. *)
Definition after_file (s : string) : option string :=
  match strip "file:" s with
  | Some (String c1 (String c2 rest)) =>
      if is_separator c1 && is_separator c2 then Some rest else None
  | _ => None
  end.

(** The text after a drive letter and a colon. *)
Definition after_drive (s : string) : option string :=
  match s with
  | String c (String colon rest) =>
      if is_upper c && Ascii.eqb colon ":" then Some rest else None
  | _ => None
  end.

(** The test of the pattern of [isNotCacheable] on the source: an
    optional [file:] with two separators or drive letter with a colon,
    then at most two dots and a separator, from the start of the text. *)
Definition local_source (s : string) : bool :=
  match after_file s with
  | Some rest => relative_at rest
  | None => false
  end
  || match after_drive s with
     | Some rest => relative_at rest
     | None => false
     end
  || relative_at s.

(** The sources the pattern describes, in words: an optional
    [file:] with two separators, or a capital letter with a colon; at
    most two dots; a separator; anything. *)
Definition local_path (s : string) : Prop :=
  exists prefix dots c rest,
    s = prefix +:+ dots +:+ String c rest /\
    is_separator c = true /\
    (dots = "" \/ dots = "." \/ dots = "..") /\
    (prefix = "" \/
     (exists c1 c2, is_separator c1 = true /\ is_separator c2 = true /\
        prefix = "file:" +:+ String c1 (String c2 "")) \/
     (exists d, is_upper d = true /\ prefix = String d ":")).

(** [Resolver.prototype.isNotCacheable()]. *)
Definition isNotCacheable (r : t) : bool :=
  if truthy (_source r) && local_source (_source r) then true
  else
    match _pkgMeta r with
    | Some pkgMeta =>
        match ResolverMeta._resolution pkgMeta with
        | Some type => opt_str_eqb type (Some "branch")
        | None => false
        end
    | None => false
    end.

(** [name.replace(/\//g, "-")]. *)
Fixpoint dashed (s : string) : string :=
  match s with
  | EmptyString => EmptyString
  | String c s' => String (if Ascii.eqb c "/" then "-"%char else c) (dashed s')
  end.

(** The replacement of a leading percent sign or colon by nothing. *)
Definition unprefixed (s : string) : string :=
  match s with
  | String c s' => if Ascii.eqb c "%" || Ascii.eqb c ":" then s' else s
  | EmptyString => EmptyString
  end.

(** The name [_createTempDir] gives to [tmp.dir] in the template. *)
Definition temp_name (name : string) : string := unprefixed (dashed name).

(** [Resolver.prototype._createTempDir()]: [made] is how [mkdirp]
    ended and [dir] how [tmp.dir] did. *)
Definition _createTempDir (made : outcome unit) (dir : outcome string) (r : t)
  : outcome string * t :=
  let r := issue (Mkdirp (tmp r)) r in
  match made with
  | Failed e => (Failed e, r)
  | Fulfilled _ =>
      match _name r with
      | None =>
          (Failed (Raised (TypeError "Cannot read property 'replace' of undefined")), r)
      | Some name =>
          let r := issue (TmpDir (tmp r) (temp_name name) pid) r in
          match dir with
          | Failed e => (Failed e, r)
          | Fulfilled dir => (Fulfilled dir, with__workingDir (Some dir) r)
          end
      end
  end.

(** [Resolver.prototype._cleanTempDir()]: [removed] is how [rimraf]
    ended and [made] how [mkdirp] did. *)
Definition _cleanTempDir (removed made : outcome unit) (r : t)
  : outcome (option string) * t :=
  match _workingDir r with
  | None => (Fulfilled None, r)
  | Some tempDir =>
      if negb (truthy tempDir) then (Fulfilled None, r)
      else
        let r := issue (Rimraf tempDir) r in
        match removed with
        | Failed e => (Failed e, r)
        | Fulfilled _ =>
            let r := issue (Mkdirp tempDir) r in
            match made with
            | Failed e => (Failed e, r)
            | Fulfilled _ => (Fulfilled (Some tempDir), r)
            end
        end
  end.
End Methods.
End Resolver.

(** The host of the examples: the segment after the last slash of a
    source that does not end in one, and a fixed process id. *)
Fixpoint has_slash (s : string) : bool :=
  match s with
  | EmptyString => false
  | String c s' => Ascii.eqb c "/" || has_slash s'
  end.

Fixpoint last_segment (s : string) : string :=
  match s with
  | EmptyString => EmptyString
  | String c s' =>
      if has_slash s' then last_segment s'
      else if Ascii.eqb c "/" then s' else s
  end.

#[export] Instance spec_host : Host := {|
  basename := last_segment;
  pid := "4242"
|}.

(* ================================================================== *)
(** * More vocabulary of the statements *)
(* ================================================================== *)

(** The comparator and the version of every string of the tree that the
    pattern of [_getCap] matches, in the order of the traversal. *)
Fixpoint caps_of (c : comparator) : list (string * string) :=
  match c with
  | CStr s =>
      match match_comparator s with
      | Some pv => [pv]
      | None => []
      end
  | CArr l => concat (map caps_of l)
  end.

Definition caps_in (comparators : list comparator) : list (string * string) :=
  concat (map caps_of comparators).

(** On the versions [vs] the comparison is a strict weak order: no
    version is above itself, the comparison is transitive, and a version
    above another is above, or has below it, any third. *)
Definition orders_strictly (above : string -> string -> bool) (vs : list string)
  : bool :=
  forallb (fun a => negb (above a a)) vs
  && forallb (fun a => forallb (fun b => forallb (fun c =>
       implb (above a b && above b c) (above a c)
       && implb (above a c) (above a b || above b c)) vs) vs) vs.

(** The running cap of [_getCap] after the strings [seen] were visited:
    nothing was matched and the cap is still empty, or the cap is one of
    the matches and none of the versions seen is above its version. *)
Definition cap_of `{SemverLib} (side : string) (seen : list (string * string))
  (c : cap) : Prop :=
  match cap_version c with
  | None => seen = [] /\ c = empty_cap
  | Some v =>
      truthy v = true /\
      (exists p, cap_comparator c = Some p /\ In (p, v) seen) /\
      forall w, In w (map snd seen) -> cap_compare side w v = false
  end.

(** Every object stands for the same request in both managers: it has
    the name, the source and the target it has in the other. *)
Definition same_requests (m1 m2 : manager) : Prop :=
  length (heap m1) = length (heap m2) /\
  forall a,
    Endpoint.name (deref m1 a) = Endpoint.name (deref m2 a) /\
    Endpoint.source (deref m1 a) = Endpoint.source (deref m2 a) /\
    Endpoint.target (deref m1 a) = Endpoint.target (deref m2 a) /\
    Endpoint.newly (deref m1 a) = Endpoint.newly (deref m2 a).

(** The incompatible endpoint carries its identity tuple, its package
    is marked as conflicted and it is queued under that package in
    [_incompatibles]. *)
Definition filed_incompatible (m : manager) (j : addr) : Prop :=
  exists g l,
    Endpoint._guid (deref m j) = Some g /\
    JsObj.get (Guid.rId g) (_conflicted m) = Some true /\
    JsObj.get (Guid.rId g) (_incompatibles m) = Some l /\
    In j l.

(** The objects of [m1] are those of [m2], up to their identity
    tuples. *)
Definition same_but_guid (m1 m2 : manager) : Prop :=
  length (heap m1) = length (heap m2) /\
  forall a, deref m1 a = Endpoint.with__guid (Endpoint._guid (deref m1 a)) (deref m2 a).

(** [mout.object.values(this._failed)[0][0]], when there is one. *)
Definition first_error (m : manager) : option error :=
  match JsObj.values (_failed m) with
  | (err :: _) :: _ => Some err
  | _ => None
  end.

Definition is_timer (x : effect) : bool :=
  match x with SetFailFastTimeout => true | _ => false end.

(** The number of fail-fast timers armed so far. *)
Definition timers (m : manager) : nat := length (List.filter is_timer (trace m)).

Section MoreVocabulary.
Context `{SemverLib} `{Env}.

(** The endpoint [_parseDependencies] builds for the entry [key: value]
    of a manifest: the one the parser returns, under its new name when
    the package was renamed. *)
Definition child_of (m : manager) (key value : string) : Endpoint.t :=
  let '(n, s, t) := json2decomposed key value in
  let renamed := JsObj.get n (_renamed m) in
  if truthy_opt renamed
  then Endpoint.with_name renamed
         (Endpoint.with__oldName (Some n) (Endpoint.fresh (Some n) s t))
  else Endpoint.fresh (Some n) s t.

(** The manager when the callback of [_parseDependencies] has built the
    child endpoint and given it its identity tuple. *)
Definition with_child (m : manager) (key value : string) : manager :=
  let child := child_of m key value in
  with_heap
    (heap m ++ [Endpoint.with__guid (Some (getGuid child None)) child]) m.
End MoreVocabulary.

(* ================================================================== *)
(** * Example inputs *)
(* ================================================================== *)

Module Examples.
(** Requests for one package: an exact version, a tilde range and a
    range written as two bounds. *)
Definition exact_candidate : Endpoint.t := Endpoint.fresh None "pkg" "1.2.3".
Definition tilde_resolved : Endpoint.t := Endpoint.fresh None "pkg" "~1.2.0".
Definition bounded_candidate : Endpoint.t :=
  Endpoint.fresh None "pkg" ">=1.0.0 <1.3.0".

(** A manager right after construction, with nothing configured. *)
Definition blank : manager :=
  {| heap := [];
     config := {| Config.production := false; Config.interactive := false;
                  Config.force := false |};
     componentsDir := "components";
     _conflicted := []; _resolved := []; _installed := []; _renamed := [];
     _targets := []; _incompatibles := []; _resolutions := [];
     _forceLatest := false; _working := false; _fetching := [];
     _nrFetching := Finite 0; _failed := []; _hasFailed := false;
     _deferred := None; _pendingDep := None; _dissected := [];
     _failFastTimeout := false; promises := 0; trace := [] |}.

Definition manifest (n : string) (v : option string) : PkgMeta.t :=
  {| PkgMeta.name := n; PkgMeta.version := v; PkgMeta._release := v;
     PkgMeta._target := None; PkgMeta._originalSource := None;
     PkgMeta.dependencies := []; PkgMeta.devDependencies := [] |}.

(** An endpoint of package [n], requested at target [t] and fetched at
    version [v]. *)
Definition fetched_endpoint (n t v : string) : Endpoint.t :=
  Endpoint.with__guid (Some {| Guid.rId := n; Guid.fId := n +:+ "#" +:+ t;
                               Guid.id := n +:+ "|" +:+ n +:+ "#" +:+ t |})
    (Endpoint.with_pkgMeta (Some (manifest n (Some v)))
       (Endpoint.with_canonicalDir (Some ("/tmp/" +:+ n +:+ "/" +:+ v))
          (Endpoint.fresh (Some n) n t))).

(** Two requests for [pkg] that version 1.2.3 serves. *)
Definition agreeing : manager :=
  with_heap [fetched_endpoint "pkg" "~1.2.0" "1.2.3";
             fetched_endpoint "pkg" ">=1.0.0 <1.3.0" "1.2.3"] blank.

(** Two dependants asked for [a] in ranges no single version serves;
    both versions were fetched. *)
Definition conflicting : manager :=
  with__resolved [("a", [0; 1])]
    (with_heap [fetched_endpoint "a" "~1.0.0" "1.0.0";
                fetched_endpoint "a" "~2.0.0" "2.0.0"] blank).

Definition forcing : manager :=
  {| heap := heap conflicting; config := config conflicting;
     componentsDir := componentsDir conflicting;
     _conflicted := []; _resolved := _resolved conflicting; _installed := [];
     _renamed := []; _targets := []; _incompatibles := []; _resolutions := [];
     _forceLatest := true; _working := false; _fetching := [];
     _nrFetching := Finite 0; _failed := []; _hasFailed := false;
     _deferred := Some Pending; _pendingDep := None; _dissected := [];
     _failFastTimeout := false; promises := 2; trace := [] |}.

(** The same, with a resolution stored for [a] by an earlier run. *)
Definition forcing_with_resolution : manager :=
  with__resolutions [("a", "1.0.0")] forcing.

(** Two packages that depend on each other, and one that depends on
    itself. *)
Definition cyclic : manager :=
with_heap
  [Endpoint.with_dependencies (Some [("b", 1); ("self", 0)])
     (fetched_endpoint "a" "~1.0.0" "1.0.0");
   Endpoint.with_dependencies (Some [("a", 0)])
     (fetched_endpoint "b" "~2.0.0" "2.0.0")] blank.

(** A configured manager with the single target [repo#v1], not yet
    named. *)
Definition one_target : manager :=
{| heap := [Endpoint.fresh None "repo" "v1"];
   config := config blank; componentsDir := componentsDir blank;
   _conflicted := []; _resolved := []; _installed := []; _renamed := [];
   _targets := [0]; _incompatibles := []; _resolutions := [];
   _forceLatest := false; _working := false; _fetching := [];
   _nrFetching := Finite 0; _failed := []; _hasFailed := false;
   _deferred := None; _pendingDep := None; _dissected := [];
   _failFastTimeout := false; promises := 0; trace := [] |}.

(** The run on that target, while its fetch is in flight. *)
Definition resolving : manager := snd (resolve one_target).

(** The same run after the fetch failed. *)
Definition failed_run : manager :=
run (_onFetchError 0 (Transport "ENOTFOUND")) resolving.

(** A configured manager with the two targets [left#v1] and
    [right#v1]. *)
Definition two_targets : manager :=
{| heap := [Endpoint.fresh None "left" "v1"; Endpoint.fresh None "right" "v1"];
   config := config blank; componentsDir := componentsDir blank;
   _conflicted := []; _resolved := []; _installed := []; _renamed := [];
   _targets := [0; 1]; _incompatibles := []; _resolutions := [];
   _forceLatest := false; _working := false; _fetching := [];
   _nrFetching := Finite 0; _failed := []; _hasFailed := false;
   _deferred := None; _pendingDep := None; _dissected := [];
   _failFastTimeout := false; promises := 0; trace := [] |}.

(** Its run, after the fetch of the first target failed and while the
    fetch of the second is in flight. *)
Definition half_failed : manager :=
run (_onFetchError 0 (Transport "ENOTFOUND")) (snd (resolve two_targets)).

(** [repo#v1] is resolved already under the name its manifest gives,
    with the dependant [p]; the same source and target are fetched again
    for the dependant [q], the name not being known from the start. *)
Definition twin : Endpoint.t :=
Endpoint.with_dependants [0]
  (Endpoint.with__guid
     (Some {| Guid.rId := "repo/v1"; Guid.fId := "repo#v1";
              Guid.id := "repo/v1|repo#v1" |})
     (Endpoint.with_pkgMeta (Some (manifest "repo/v1" None))
        (Endpoint.with_canonicalDir (Some "/tmp/repo")
           (Endpoint.fresh (Some "repo/v1") "repo" "v1")))).

Definition with_twin : manager :=
run (_fetch 3)
  {| heap := [fetched_endpoint "p" "~1.0.0" "1.0.0";
              fetched_endpoint "q" "~1.0.0" "1.0.0";
              twin;
              Endpoint.with_dependants [1] (Endpoint.fresh None "repo" "v1")];
     config := config blank; componentsDir := componentsDir blank;
     _conflicted := [];
     _resolved := [("p", [0]); ("q", [1]); ("repo/v1", [2])];
     _installed := []; _renamed := [];
     _targets := [3]; _incompatibles := []; _resolutions := [];
     _forceLatest := false; _working := false; _fetching := [];
     _nrFetching := Finite 0; _failed := []; _hasFailed := false;
     _deferred := Some Pending; _pendingDep := None; _dissected := [];
     _failFastTimeout := false; promises := 0; trace := [] |}.

(** The manifest fetched for [repo#v1] declares the name [foo]. *)
Definition foo_manifest : PkgMeta.t := manifest "foo" (Some "1.0.0").

(** The run on [repo#v1] when that fetch has succeeded and the move of
    the renamed package is in progress. *)
Definition renaming : manager :=
run (fetched 0 "/tmp/repo" foo_manifest true) resolving.

(** A target added by the user without a version, and a second
    target. *)
Definition newly_added (s : string) : Endpoint.t :=
{| Endpoint.name := None; Endpoint.source := s; Endpoint.target := "*";
   Endpoint.initialName := None; Endpoint._oldName := None;
   Endpoint.pkgMeta := None; Endpoint.canonicalDir := None;
   Endpoint.dependants := []; Endpoint.dependencies := None;
   Endpoint.newly := true; Endpoint.unresolvable := true;
   Endpoint.untargetable := false; Endpoint.linked := false;
   Endpoint.originalTarget := None; Endpoint._guid := None;
   Endpoint.promise := None |}.

Definition adding : manager :=
{| heap := [newly_added "a"; Endpoint.fresh None "b" "v1"];
   config := config blank; componentsDir := componentsDir blank;
   _conflicted := []; _resolved := []; _installed := []; _renamed := [];
   _targets := [0; 1]; _incompatibles := []; _resolutions := [];
   _forceLatest := false; _working := false; _fetching := [];
   _nrFetching := Finite 0; _failed := []; _hasFailed := false;
   _deferred := None; _pendingDep := None; _dissected := [];
   _failFastTimeout := false; promises := 0; trace := [] |}.

Definition a_manifest : PkgMeta.t := manifest "a" (Some "1.2.3").

(** The run on both, when [a] has been fetched at version 1.2.3, moved
    to its declared name and recorded. *)
Definition a_resolved : manager :=
let m1 := snd (resolve adding) in
let m2 := run (fetched 0 "/tmp/a" a_manifest true) m1 in
run (settled 0) (run (moved (frame_of 0 "/tmp/a" a_manifest true m1)) m2).

(** That run when the fetch of [b] has succeeded too, and when it has
    failed. *)
Definition both_resolved : manager :=
run (settled 1)
  (run (moved (frame_of 1 "/tmp/b" (manifest "b" None) true a_resolved))
     (run (fetched 1 "/tmp/b" (manifest "b" None) true) a_resolved)).

Definition b_failed : manager :=
run (_onFetchError 1 (Transport "ENOTFOUND")) a_resolved.

Definition silent (rId : string) : Reply.t :=
{| Reply.save := false; Reply.index := None |}.

(** Two requests for [left] at different targets, and a setup that
    has the first as target and the second as incompatible. *)
Definition two_requests : manager :=
with_heap [Endpoint.fresh None "left" "v1"; Endpoint.fresh None "left" "v2"] blank.

Definition one_incompatible : Setup.t :=
{| Setup.resolved := []; Setup.installed := []; Setup.targets := [0];
   Setup.incompatibles := [1]; Setup.resolutions := [];
   Setup.forceLatest := false |}.

(** A resolver for [user/repo], built without a name or a target. *)
Definition repo_resolver : Resolver.t :=
Resolver.Resolver (Endpoint.fresh None "user/repo" "") "/tmp".
End Examples.

(* ================================================================== *)
(** * Properties *)
(* ================================================================== *)

(** ** The compatibility oracle *)

Section CompatibilityFacts.
Context `{SemverLib}.

Lemma getCap_each_array side l acc :
  getCap_each side (CArr l) acc =
  match getCap_from side l empty_cap with
  | Throw e => Throw e
  | Ret candidate =>
      match cap_replaces side (cap_version candidate) acc with
      | Throw e => Throw e
      | Ret true => Ret candidate
      | Ret false => Ret acc
      end
  end.
Proof.
  simpl.
  assert (E : forall l a,
    (fix each_of (l : list comparator) (a : cap) : result cap :=
       match l with
       | [] => Ret a
       | x :: l' =>
           match getCap_each side x a with
           | Ret a' => each_of l' a'
           | Throw e => Throw e
           end
       end) l a = getCap_from side l a).
  { clear. induction l as [|x l IH]; intros a; simpl; [reflexivity|].
    destruct (getCap_each side x a); auto. }
  rewrite E. reflexivity.
Qed.

(** The comparison of the caps says: both caps carry a version, the
    versions are equal for semver, and the prefixes are identical. *)
Lemma same_cap_spec hc hr :
  same_cap hc hr = true <->
  exists cv rv,
    cap_version hc = Some cv /\ cap_version hr = Some rv /\
    truthy cv = true /\ truthy rv = true /\
    eq cv rv = true /\
    opt_str_eqb (cap_comparator hc) (cap_comparator hr) = true.
Proof.
  unfold same_cap. split.
  - destruct (cap_version hr) as [rv|]; [|discriminate].
    destruct (cap_version hc) as [cv|]; [|discriminate].
    destruct (truthy rv) eqn:Er, (truthy cv) eqn:Ec; simpl; try discriminate.
    intros E. apply andb_true_iff in E as [E1 E2].
    exists cv, rv. repeat split; auto.
  - intros (cv & rv & -> & -> & -> & -> & E1 & E2). simpl.
    rewrite E1, E2. reflexivity.
Qed.

Lemma areCompatible_on_ranges candidate resolved :
  Endpoint.target candidate <> Endpoint.target resolved ->
  validRange (Endpoint.target candidate) = true ->
  validRange (Endpoint.target resolved) = true ->
  valid (Endpoint.target candidate) = false ->
  valid (Endpoint.target resolved) = false ->
  truthy_opt (Endpoint.version resolved) = false ->
  _areCompatible candidate resolved =
  match _getCap (comparators_of (Endpoint.target candidate)) "highest" with
  | Throw e => Throw e
  | Ret hc =>
      match _getCap (comparators_of (Endpoint.target resolved)) "highest" with
      | Throw e => Throw e
      | Ret hr => Ret (same_cap hc hr)
      end
  end.
Proof.
  intros Hne Hc Hr Vc Vr Hv. unfold _areCompatible.
  destruct (String.eqb_spec (Endpoint.target candidate) (Endpoint.target resolved));
    [contradiction|].
  rewrite Hv. simpl. unfold compatible_targets.
  rewrite Hc, Hr, Vc, Vr. reflexivity.
Qed.

End CompatibilityFacts.

(** The two examples in the documentation of [_getCap]. *)
Example getCap_documented :
  _getCap [CArr [CStr ">=2.1.1-0"; CStr "<2.2.0-0"]; CStr "<3.2.0"] "highest"
    = Ret {| cap_version := Some "3.2.0"; cap_comparator := Some "<" |} /\
  _getCap [CArr [CStr ">=2.1.1-0"; CStr "<2.2.0-0"]; CStr "<3.2.0"] "lowest"
    = Ret {| cap_version := Some "2.1.1-0"; cap_comparator := Some ">=" |}.
Proof. split; vm_compute; reflexivity. Qed.

(** A group without a version after one with a version: the comparison
    receives [undefined] and throws. *)
Example getCap_undefined_version :
  _getCap [CArr [CStr "1.0.0"]; CArr [CStr ""]] "highest"
    = Throw (TypeError "Invalid Version: undefined").
Proof. vm_compute. reflexivity. Qed.

(** Two ranges with the cap [<1.3.0-0] and different lower bounds are
    compatible; two open ranges that differ in their only bound are
    not. *)
Example areCompatible_shared_cap :
  _areCompatible Examples.bounded_candidate Examples.tilde_resolved = Ret true /\
  _areCompatible (Endpoint.fresh None "pkg" ">=1.0.0")
                 (Endpoint.fresh None "pkg" ">=2.0.0") = Ret false.
Proof. split; vm_compute; reflexivity. Qed.



(** ** Objects and arrays *)

Lemma JsObj_get_set_eq {V : Type} (k : string) (v : V) (o : JsObj.t V) :
  JsObj.get k (JsObj.set k v o) = Some v.
Proof.
  induction o as [|[k' v'] o IH]; simpl.
  - rewrite String.eqb_refl. reflexivity.
  - destruct (String.eqb k k') eqn:E; simpl; rewrite E; auto.
Qed.

Lemma JsObj_get_set_ne {V : Type} (k k' : string) (v : V) (o : JsObj.t V) :
  k <> k' -> JsObj.get k' (JsObj.set k v o) = JsObj.get k' o.
Proof.
  intros Hne. induction o as [|[k0 v0] o IH]; simpl.
  - destruct (String.eqb_spec k' k); congruence.
  - destruct (String.eqb_spec k k0) as [->|]; simpl.
    + destruct (String.eqb_spec k' k0); congruence.
    + destruct (String.eqb k' k0); auto.
Qed.

Lemma JsObj_in_set {V : Type} (k k' : string) (v v' : V) (o : JsObj.t V) :
  In (k', v') (JsObj.set k v o) -> In (k', v') o \/ (k' = k /\ v' = v).
Proof.
  induction o as [|[k0 v0] o IH]; simpl.
  - intros [E|[]]. injection E as <- <-. auto.
  - destruct (String.eqb_spec k k0) as [->|]; simpl.
    + intros [E|Hin]; [injection E as <- <-|]; auto.
    + intros [E|Hin]; auto. destruct (IH Hin); auto.
Qed.

Lemma JsObj_get_in {V : Type} (k : string) (v : V) (o : JsObj.t V) :
  JsObj.get k o = Some v -> In (k, v) o.
Proof.
  induction o as [|[k0 v0] o IH]; simpl; [discriminate|].
  destruct (String.eqb_spec k k0) as [->|].
  - intros E. injection E as ->. auto.
  - auto.
Qed.

Lemma insert_sorted_perm {A : Type} (cmp : A -> A -> Z) x l :
  Permutation (insert_sorted cmp x l) (x :: l).
Proof.
  induction l as [|y l IH]; simpl; [reflexivity|].
  destruct (cmp x y <? 0)%Z; [reflexivity|].
  rewrite IH. apply perm_swap.
Qed.

Lemma js_sort_from_perm {A : Type} (cmp : A -> A -> Z) l acc :
  Permutation (fold_left (fun acc x => insert_sorted cmp x acc) l acc) (acc ++ l).
Proof.
  revert acc. induction l as [|x l IH]; intros acc; simpl.
  - rewrite app_nil_r. reflexivity.
  - rewrite IH, insert_sorted_perm.
    change (x :: acc) with ([x] ++ acc).
    rewrite (Permutation_app_comm [x] acc), <- app_assoc. reflexivity.
Qed.

(** Sorting rearranges the array and nothing else. *)
Lemma js_sort_perm {A : Type} (cmp : A -> A -> Z) l :
  Permutation (js_sort cmp l) l.
Proof. apply (js_sort_from_perm cmp l []). Qed.

Lemma js_sort_in {A : Type} (cmp : A -> A -> Z) l x :
  In x (js_sort cmp l) <-> In x l.
Proof.
  split; apply Permutation_in; [|symmetry]; apply js_sort_perm.
Qed.

Lemma lookup_last_snoc {A : Type} (l : list A) :
  l <> [] -> exists front x, l = front ++ [x] /\ l !! (length l - 1)%nat = Some x.
Proof.
  intros Hne. destruct (exists_last Hne) as (front & x & ->).
  exists front, x. split; [reflexivity|].
  rewrite length_app. simpl.
  replace (length front + 1 - 1)%nat with (length front) by lia.
  rewrite lookup_app_r by lia.
  replace (length front - length front)%nat with 0%nat by lia. reflexivity.
Qed.

(** With a coherent comparator the sort puts every element after those
    it is not below. *)
Section SortFacts.
Context {A : Type} (cmp : A -> A -> Z) (all : list A).
Hypothesis coherent : coherent_on cmp all = true.

Lemma coherent_refl x : In x all -> (0 <= cmp x x)%Z.
Proof.
  intros Hx. unfold coherent_on in coherent.
  apply andb_true_iff in coherent as [R _].
  rewrite forallb_forall in R. apply Z.leb_le. auto.
Qed.

Lemma coherent_trans x y z :
  In x all -> In y all -> In z all ->
  (cmp x y < 0)%Z -> (0 <= cmp z y)%Z -> (0 <= cmp z x)%Z.
Proof.
  intros Hx Hy Hz Hxy Hzy. unfold coherent_on in coherent.
  apply andb_true_iff in coherent as [_ T].
  rewrite forallb_forall in T. specialize (T x Hx).
  rewrite forallb_forall in T. specialize (T y Hy).
  rewrite forallb_forall in T. specialize (T z Hz).
  unfold coherent_at in T.
  apply Z.ltb_lt in Hxy. apply Z.leb_le in Hzy.
  rewrite Hxy, Hzy in T. simpl in T. apply Z.leb_le. exact T.
Qed.

Lemma insert_sorted_sorted x l :
  In x all -> incl l all ->
  StronglySorted (not_below cmp) l -> StronglySorted (not_below cmp) (insert_sorted cmp x l).
Proof.
  intros Hx. induction l as [|y l IH]; intros Hl Hs; simpl.
  - repeat constructor.
  - assert (Hy : In y all) by (apply Hl; left; reflexivity).
    assert (Hl' : incl l all) by (intros p Hp; apply Hl; right; exact Hp).
    inversion Hs as [|? ? Hs' Hall]; subst.
    destruct (cmp x y <? 0)%Z eqn:E.
    + apply Z.ltb_lt in E. constructor; [exact Hs|].
      constructor.
      * apply (coherent_trans x y y); auto. apply coherent_refl; auto.
      * rewrite Forall_forall in *. intros p Hp.
        apply (coherent_trans x y p); auto. apply (Hall p Hp).
    + apply Z.ltb_ge in E. constructor; [apply IH; auto|].
      rewrite Forall_forall in *. intros p Hp.
      apply (Permutation_in _ (insert_sorted_perm cmp x l)) in Hp.
      destruct Hp as [<-|Hp]; [exact E|exact (Hall p Hp)].
Qed.

Lemma js_sort_from_sorted l acc :
  incl l all -> incl acc all -> StronglySorted (not_below cmp) acc ->
  StronglySorted (not_below cmp) (fold_left (fun acc x => insert_sorted cmp x acc) l acc).
Proof.
  revert acc. induction l as [|x l IH]; intros acc Hl Ha Hs; simpl; [exact Hs|].
  apply IH.
  - intros p Hp. apply Hl. right. exact Hp.
  - intros p Hp. apply (Permutation_in _ (insert_sorted_perm cmp x acc)) in Hp.
    destruct Hp as [<-|Hp]; [apply Hl; left; reflexivity|auto].
  - apply insert_sorted_sorted; auto. apply Hl. left. reflexivity.
Qed.

Lemma sorted_last_max front z :
  incl (front ++ [z]) all -> StronglySorted (not_below cmp) (front ++ [z]) ->
  forall p, In p (front ++ [z]) -> (0 <= cmp z p)%Z.
Proof.
  induction front as [|y front IH]; simpl; intros Hi Hs p Hp.
  - destruct Hp as [<-|[]]. apply coherent_refl. apply Hi. left. reflexivity.
  - inversion Hs as [|? ? Hs' Hall]; subst.
    destruct Hp as [<-|Hp].
    + rewrite Forall_forall in Hall. apply Hall.
      apply in_or_app. right. left. reflexivity.
    + apply IH; auto. intros q Hq. apply Hi. right. exact Hq.
Qed.

(** The last element of the sorted array is below none of them. *)
Lemma js_sort_last_max front z :
  js_sort cmp all = front ++ [z] ->
  forall p, In p all -> (0 <= cmp z p)%Z.
Proof.
  intros E p Hp.
  assert (Hperm := js_sort_perm cmp all).
  apply (sorted_last_max front z).
  - rewrite <- E. intros q Hq. apply (Permutation_in _ Hperm). exact Hq.
  - rewrite <- E. apply js_sort_from_sorted.
    + intros q Hq; exact Hq.
    + intros q [].
    + constructor.
  - rewrite <- E. apply (Permutation_in _ (Permutation_sym Hperm)). exact Hp.
Qed.
End SortFacts.

(** ** Election *)

Section ElectionFacts.
Context `{SemverLib} `{Env}.

(** [_electSuitable], branch by branch. *)
Lemma electSuitable_cases rId semvers nonSemvers m :
  _electSuitable rId semvers nonSemvers m =
  match candidates m semvers nonSemvers with
  | inl suitable => (Ret (Elected suitable), m)
  | inr picks =>
      let m1 := mark_conflicted rId m in
      let sorted := js_sort (pick_order m) picks in
      match resolution_pick m rId sorted with
      | Some suitable => (Ret (Elected suitable), m1)
      | None =>
          if _forceLatest m then
            match sorted !! (length sorted - 1)%nat with
            | Some suitable =>
                (Ret (Elected suitable),
                 with__resolutions
                   (JsObj.set (resolution_key m suitable)
                      (stored_resolution m suitable) (_resolutions m)) m1)
            | None =>
                (Throw (TypeError "Cannot read property '_guid' of undefined"), m1)
            end
          else if Config.interactive (config m)
               then (Ret (Asking sorted), emit (Prompt rId sorted) m1)
               else (Throw (ECONFLICT rId sorted), m1)
      end
  end.
Proof.
  unfold _electSuitable, bind, gets, modify, ret, throw. simpl.
  destruct (candidates m semvers nonSemvers) as [s|picks]; [reflexivity|].
  simpl.
  change (resolution_pick (with__conflicted _ m) rId) with (resolution_pick m rId).
  change (pick_order (with__conflicted _ m)) with (pick_order m).
  destruct (resolution_pick m rId (js_sort (pick_order m) picks)); [reflexivity|].
  simpl. destruct (_forceLatest m).
  - destruct (js_sort (pick_order m) picks !! _); reflexivity.
  - change (config (with__conflicted (JsObj.set rId true (_conflicted m)) m))
      with (config m).
    destruct (Config.interactive (config m)); reflexivity.
Qed.

(** C1: when there are only semver candidates and the version of one
    of them satisfies the target of every other candidate,
    [_electSuitable] resolves with a candidate that does, and leaves
    the manager, [_conflicted] included, as it was. *)
Theorem electSuitable_semvers_agree rId semvers m :
  (exists c, In c semvers /\
     forall d, In d semvers -> d <> c ->
       satisfies_opt (Endpoint.version (deref m c))
                     (Endpoint.target (deref m d)) = true) ->
  exists suitable,
    _electSuitable rId semvers [] m = (Ret (Elected suitable), m) /\
    In suitable semvers /\
    (forall d, In d semvers -> d <> suitable ->
       satisfies_opt (Endpoint.version (deref m suitable))
                     (Endpoint.target (deref m d)) = true) /\
    JsObj.get rId (_conflicted (run (_electSuitable rId semvers []) m)) =
    JsObj.get rId (_conflicted m).
Proof.
  intros (c & Hc & Hsat).
  assert (Hsuits : suits_all m semvers c = true).
  { unfold suits_all. apply forallb_forall. intros d Hd.
    destruct (Nat.eqb_spec c d) as [->|Hne]; [reflexivity|].
    simpl. apply Hsat; auto. }
  destruct (find (suits_all m semvers) semvers) as [s|] eqn:Hfind.
  - exists s.
    assert (E : _electSuitable rId semvers [] m = (Ret (Elected s), m)).
    { rewrite electSuitable_cases. unfold candidates.
      destruct semvers; rewrite Hfind; reflexivity. }
    apply find_some in Hfind as [Hin Hs].
    split; [exact E|]. split; [exact Hin|]. split.
    + intros d Hd Hne. unfold suits_all in Hs.
      rewrite forallb_forall in Hs. specialize (Hs d Hd).
      destruct (Nat.eqb_spec s d); [congruence|]. exact Hs.
    + unfold run. rewrite E. reflexivity.
  - exfalso. apply (find_none _ _ Hfind) in Hc. congruence.
Qed.
End ElectionFacts.

(** Two requests one version serves: the election is silent. *)
Lemma electSuitable_semvers_agree_witness :
  exists suitable,
    _electSuitable "pkg" [0; 1] [] Examples.agreeing
      = (Ret (Elected suitable), Examples.agreeing) /\
    In suitable [0; 1] /\
    (forall d, In d [0; 1] -> d <> suitable ->
       satisfies_opt (Endpoint.version (deref Examples.agreeing suitable))
                     (Endpoint.target (deref Examples.agreeing d)) = true) /\
    JsObj.get "pkg"
      (_conflicted (run (_electSuitable "pkg" [0; 1] []) Examples.agreeing)) =
    JsObj.get "pkg" (_conflicted Examples.agreeing).
Proof.
  apply (electSuitable_semvers_agree "pkg" [0; 1] Examples.agreeing).
  exists 0. split; [simpl; auto|].
  intros d [<-|[<-|[]]] Hne; [congruence|vm_compute; reflexivity].
Defined.

Section ConflictFacts.
Context `{SemverLib} `{Env}.

(** The comparator of the picks: two versions that differ decide by
    themselves; a pick with a version is above one without; otherwise
    the pick with more dependants comes first. *)
Lemma pick_order_spec m p1 p2 :
  let v1 := Endpoint.version (deref m p1) in
  let v2 := Endpoint.version (deref m p2) in
  let n1 := length (Endpoint.dependants (deref m p1)) in
  let n2 := length (Endpoint.dependants (deref m p2)) in
  let tie := (truthy_opt v1 && truthy_opt v2
              && (compare (default "" v1) (default "" v2) =? 0)%Z)
             || (negb (truthy_opt v1) && negb (truthy_opt v2)) in
  (truthy_opt v1 = true -> truthy_opt v2 = true ->
   compare (default "" v1) (default "" v2) <> 0%Z ->
   pick_order m p1 p2 = compare (default "" v1) (default "" v2)) /\
  (truthy_opt v1 = true -> truthy_opt v2 = false -> pick_order m p1 p2 = 1%Z) /\
  (truthy_opt v1 = false -> truthy_opt v2 = true -> pick_order m p1 p2 = (-1)%Z) /\
  (tie = true -> (n2 < n1)%nat -> pick_order m p1 p2 = (-1)%Z) /\
  (tie = true -> (n1 < n2)%nat -> pick_order m p1 p2 = 1%Z) /\
  (tie = true -> n1 = n2 -> pick_order m p1 p2 = 0%Z).
Proof.
  cbv zeta. unfold pick_order.
  destruct (truthy_opt (Endpoint.version (deref m p1))),
           (truthy_opt (Endpoint.version (deref m p2))); simpl;
    rewrite ?orb_false_r; repeat split; intros; try discriminate;
    repeat match goal with
           | E : (_ =? 0)%Z = true |- _ => rewrite E; clear E
           | E : _ <> 0%Z |- _ => apply Z.eqb_neq in E; rewrite E; clear E
           end;
    try reflexivity;
    repeat match goal with
           | E : (?a < ?b)%nat |- _ =>
               assert ((b <? a)%nat = false) by (apply Nat.ltb_ge; lia);
               apply Nat.ltb_lt in E
           | E : ?a = ?b :> nat |- _ => rewrite E; rewrite Nat.ltb_irrefl
           end;
    repeat match goal with
           | E : (_ <? _)%nat = _ |- _ => rewrite E; clear E
           end;
    reflexivity.
Qed.

End ConflictFacts.




(** ** The report of [toData] *)

Section ReportFacts.
Context `{SemverLib} `{Env}.

Lemma filter_sub_length_le {A : Type} (f g : A -> bool) (l : list A) :
  (forall x, g x = true -> f x = true) ->
  length (List.filter g l) <= length (List.filter f l).
Proof.
  intros Hgf. induction l as [|x l IH]; simpl; [lia|].
  destruct (g x) eqn:G.
  - rewrite (Hgf x G). simpl. lia.
  - destruct (f x); simpl; lia.
Qed.

Lemma filter_sub_length_lt {A : Type} (f g : A -> bool) (l : list A) (i : A) :
  (forall x, g x = true -> f x = true) ->
  In i l -> f i = true -> g i = false ->
  length (List.filter g l) < length (List.filter f l).
Proof.
  intros Hgf. induction l as [|x l IH]; simpl; [intros []|].
  intros [->|Hin] Fi Gi.
  - rewrite Fi, Gi. simpl.
    pose proof (filter_sub_length_le f g l Hgf). lia.
  - specialize (IH Hin Fi Gi). destruct (g x) eqn:G.
    + rewrite (Hgf x G). simpl. lia.
    + destruct (f x); simpl; lia.
Qed.

Lemma is_ancestor_snoc upperDeps id j :
  is_ancestor (upperDeps ++ [id]) j = is_ancestor upperDeps j || String.eqb j id.
Proof.
  unfold is_ancestor. rewrite existsb_app. simpl. rewrite orb_false_r. reflexivity.
Qed.

Lemma uniqueId_in_all_ids m a : In (uniqueId (deref m a)) (all_ids m).
Proof.
  unfold all_ids, deref. destruct (heap m !! a) as [e|] eqn:E; simpl.
  - right. apply in_map. apply list_elem_of_In.
    apply (list_elem_of_lookup_2 _ a). exact E.
  - left. reflexivity.
Qed.

Lemma unseen_bound m upperDeps : length (unseen m upperDeps) <= S (length (heap m)).
Proof.
  unfold unseen. etransitivity; [apply List.filter_length_le|].
  unfold all_ids. simpl. rewrite length_map. lia.
Qed.

(** A child that is visited sits strictly lower than its parent. *)
Lemma toData_depth_child m a child upperDeps :
  is_ancestor upperDeps (uniqueId (deref m child)) = false ->
  toData_depth m child (upperDeps ++ [uniqueId (deref m a)])
  < toData_depth m a upperDeps.
Proof.
  intros Hc. unfold toData_depth.
  set (id := uniqueId (deref m a)). set (cid := uniqueId (deref m child)) in *.
  rewrite is_ancestor_snoc, Hc. simpl.
  destruct (is_ancestor upperDeps id) eqn:Ha.
  - assert (E : String.eqb cid id = false).
    { destruct (String.eqb_spec cid id) as [->|]; congruence. }
    rewrite E.
    assert (length (unseen m (upperDeps ++ [id])) <= length (unseen m upperDeps)).
    { apply filter_sub_length_le. intros x. rewrite is_ancestor_snoc.
      destruct (is_ancestor upperDeps x); simpl; auto. }
    lia.
  - assert (length (unseen m (upperDeps ++ [id])) < length (unseen m upperDeps)).
    { apply (filter_sub_length_lt _ _ _ id).
      - intros x. rewrite is_ancestor_snoc.
        destruct (is_ancestor upperDeps x); simpl; auto.
      - apply uniqueId_in_all_ids.
      - rewrite Ha. reflexivity.
      - rewrite is_ancestor_snoc, String.eqb_refl, orb_true_r. reflexivity. }
    destruct (String.eqb cid id); lia.
Qed.

Lemma toData_children_total recur skipped dependencies names :
  (forall child, skipped child = false -> exists d, recur child = Some d) ->
  exists ds, toData_children recur skipped dependencies names = Some ds.
Proof.
  intros Hrec. induction names as [|name names [ds IH]]; simpl; [eauto|].
  destruct (JsObj.get name dependencies) as [child|]; [|eauto].
  destruct (skipped child) eqn:S; [eauto|].
  destruct (Hrec child S) as [d ->]. rewrite IH. eauto.
Qed.

Lemma toData_children_ext recur recur' skipped dependencies names ds :
  (forall child d, recur child = Some d -> recur' child = Some d) ->
  toData_children recur skipped dependencies names = Some ds ->
  toData_children recur' skipped dependencies names = Some ds.
Proof.
  intros Hrec. revert ds. induction names as [|name names IH]; simpl; [auto|].
  intros ds. destruct (JsObj.get name dependencies) as [child|]; [|auto].
  destruct (skipped child); [auto|].
  destruct (recur child) as [d|] eqn:R; [|discriminate].
  rewrite (Hrec child d R).
  destruct (toData_children recur skipped dependencies names) as [ds'|];
    [|discriminate].
  rewrite (IH ds' eq_refl). auto.
Qed.

(** With fuel above the depth bound the call returns. *)
Lemma toData_returns fuel m a extraKeys upperDeps :
  toData_depth m a upperDeps < fuel ->
  exists d, toData fuel m a extraKeys upperDeps = Some d.
Proof.
  revert a upperDeps. induction fuel as [|fuel IH]; intros a upperDeps Hd; [lia|].
  simpl. destruct (Endpoint.dependencies (deref m a)) as [deps|]; [|eauto].
  destruct (toData_children_total
              (fun child => toData fuel m child extraKeys
                              (upperDeps ++ [uniqueId (deref m a)]))
              (fun child => existsb (String.eqb (uniqueId (deref m child))) upperDeps)
              deps (js_sort str_cmp (JsObj.keys deps))) as [ds ->]; [|eauto].
  intros child Hskip. apply IH.
  pose proof (toData_depth_child m a child upperDeps Hskip). lia.
Qed.

(** More fuel does not change a report. *)
Lemma toData_fuel_mono fuel m a extraKeys upperDeps d :
  toData fuel m a extraKeys upperDeps = Some d ->
  toData (S fuel) m a extraKeys upperDeps = Some d.
Proof.
  revert a upperDeps d. induction fuel as [|fuel IH]; intros a upperDeps d;
    [discriminate|].
  intros E. simpl in E. change (toData (S (S fuel)) m a extraKeys upperDeps)
    with (let e := deref m a in
      let id := uniqueId e in
      let shown := truthy_opt (Endpoint.canonicalDir e) in
      let finish deps :=
        Data (Endpoint.name e, Endpoint.source e, Endpoint.target e)
             (if shown then Endpoint.canonicalDir e else None)
             (if shown then Endpoint.pkgMeta e else None)
             (List.filter (flag e) extraKeys)
             deps
             (length (Endpoint.dependants e)) in
      match Endpoint.dependencies e with
      | None => Some (finish None)
      | Some dependencies =>
          let names := js_sort str_cmp (JsObj.keys dependencies) in
          match toData_children
                  (fun child => toData (S fuel) m child extraKeys (upperDeps ++ [id]))
                  (fun child =>
                     existsb (String.eqb (uniqueId (deref m child))) upperDeps)
                  dependencies names with
          | None => None
          | Some children => Some (finish (Some children))
          end
      end).
  cbv zeta. destruct (Endpoint.dependencies (deref m a)) as [deps|]; [|exact E].
  destruct (toData_children _ _ deps _) as [ds|] eqn:C in E; [|discriminate].
  rewrite (toData_children_ext _
             (fun child => toData (S fuel) m child extraKeys
                             (upperDeps ++ [uniqueId (deref m a)])) _ _ _ ds
             (fun child d => IH child _ d) C).
  exact E.
Qed.

Lemma toData_fuel_ge fuel fuel' m a extraKeys upperDeps d :
  fuel <= fuel' ->
  toData fuel m a extraKeys upperDeps = Some d ->
  toData fuel' m a extraKeys upperDeps = Some d.
Proof.
  induction 1; [auto|]. intros E. apply toData_fuel_mono. auto.
Qed.

(** C9: [toData] returns on every heap of endpoints, whatever cycles
    and self-loops the [dependencies] objects form and whatever the
    ancestor chain it is given: the recursion only enters a child whose
    id is not in the chain, so a depth of twice the number of objects
    plus four is never exceeded, and the report is the same for any
    larger bound. *)
Theorem toData_terminates m decEndpoint extraKeys upperDeps :
  exists report,
    forall fuel, toData_fuel m <= fuel ->
      toData fuel m decEndpoint extraKeys upperDeps = Some report.
Proof.
  destruct (toData_returns (toData_fuel m) m decEndpoint extraKeys upperDeps)
    as [d Hd].
  - unfold toData_depth, toData_fuel.
    pose proof (unseen_bound m upperDeps).
    destruct (is_ancestor upperDeps (uniqueId (deref m decEndpoint))); lia.
  - exists d. intros fuel Hf. apply (toData_fuel_ge _ _ _ _ _ _ _ Hf Hd).
Qed.
End ReportFacts.

(** The cyclic heap: the bound of the theorem is enough fuel. *)
Lemma toData_terminates_witness :
  exists report,
    toData (toData_fuel Examples.cyclic) Examples.cyclic 0 [] [] = Some report.
Proof.
  destruct (toData_terminates Examples.cyclic 0 [] []) as [report Hr].
  exists report. apply Hr. apply Nat.le_refl.
Defined.

(** The report of a package in a cycle with a self-loop: the cycle is
    cut where it comes back to the package, the self-loop is entered
    once, because the chain a call checks does not hold its own id. *)
Example toData_cyclic :
  toData (toData_fuel Examples.cyclic) Examples.cyclic 0 [] [] =
  let a := ((Some "a", "a", "~1.0.0"), Some "/tmp/a/1.0.0",
            Some (Examples.manifest "a" (Some "1.0.0"))) in
  let b := ((Some "b", "b", "~2.0.0"), Some "/tmp/b/2.0.0",
            Some (Examples.manifest "b" (Some "2.0.0"))) in
  let leaf x deps := Data (fst (fst x)) (snd (fst x)) (snd x) [] (Some deps) 0 in
  Some (leaf a [("b", leaf b []);
                ("self", leaf a [("b", leaf b [])])]).
Proof. vm_compute. reflexivity. Qed.


(** ** Properties kept by the handlers *)

Section Preservation.
Context `{SemverLib} `{Env}.
Context (I : manager -> Prop).

Lemma preserves_ret {A : Type} (a : A) : preserves I (ret a).
Proof. intros m Hm. exact Hm. Qed.

Lemma preserves_throw {A : Type} (e : error) : preserves I (@throw A e).
Proof. intros m Hm. exact Hm. Qed.

Lemma preserves_gets {A : Type} (f : manager -> A) : preserves I (gets f).
Proof. intros m Hm. exact Hm. Qed.

Lemma preserves_read {A : Type} (f : manager -> result A) :
  preserves I (fun m => (f m, m)).
Proof. intros m Hm. exact Hm. Qed.

Lemma preserves_modify (f : manager -> manager) :
  (forall m, I m -> I (f m)) -> preserves I (modify f).
Proof. intros Hf m Hm. apply Hf. exact Hm. Qed.

Lemma preserves_bind {A B : Type} (c : M A) (k : A -> M B) :
  preserves I c -> (forall a, preserves I (k a)) -> preserves I (bind c k).
Proof.
  intros Hc Hk m Hm. unfold bind. specialize (Hc m Hm).
  destruct (c m) as [[a|e] m']; simpl in *; [apply Hk; exact Hc|exact Hc].
Qed.

(** The same, when the continuation relies on a fact about the value
    the first part returns. *)
Lemma preserves_bind_val {A B : Type} (c : M A) (k : A -> M B) (P : A -> Prop) :
  (forall m, I m ->
     match c m with
     | (Ret a, m') => P a /\ I m'
     | (Throw _, m') => I m'
     end) ->
  (forall a, P a -> preserves I (k a)) -> preserves I (bind c k).
Proof.
  intros Hc Hk m Hm. unfold bind. specialize (Hc m Hm).
  destruct (c m) as [[a|e] m']; simpl in *; [|exact Hc].
  destruct Hc as [Pa Im]. apply Hk; assumption.
Qed.

Lemma preserves_forEach {A : Type} (f : A -> M unit) (l : list A) :
  (forall x, preserves I (f x)) -> preserves I (forEach f l).
Proof.
  intros Hf. induction l as [|x l IH]; simpl.
  - apply preserves_ret.
  - apply preserves_bind; auto.
Qed.

Lemma preserves_forEach_in {A : Type} (f : A -> M unit) (l : list A) :
  (forall x, In x l -> preserves I (f x)) -> preserves I (forEach f l).
Proof.
  induction l as [|x l IH]; intros Hf; simpl.
  - apply preserves_ret.
  - apply preserves_bind; [apply Hf; left; reflexivity|].
    intros _. apply IH. intros y Hy. apply Hf. right. exact Hy.
Qed.

Lemma preserves_filter_by (keep : addr -> M bool) (l : list addr) :
  (forall a, preserves I (keep a)) -> preserves I (filter_by keep l).
Proof.
  intros Hk. induction l as [|a l IH]; simpl.
  - apply preserves_ret.
  - apply preserves_bind; [apply Hk|]. intros b.
    apply preserves_bind; [exact IH|]. intros rest. apply preserves_ret.
Qed.
End Preservation.

(** A property of the manager is kept by every handler as soon as it is
    kept by the writes the handlers are made of. *)
Section Frame.
Context `{SemverLib} `{Env}.
Context (I : manager -> Prop) (fetchable : addr -> Prop).

Hypothesis I_update : forall a f m, I m -> I (update a f m).
Hypothesis I_alloc : forall e m,
  I m -> fetchable (length (heap m)) /\ I (with_heap (heap m ++ [e]) m).
Hypothesis I_push_resolved : forall rId a m,
  I m ->
  I (with__resolved
       (JsObj.set rId (default [] (JsObj.get rId (_resolved m)) ++ [a])
          (_resolved m)) m).
Hypothesis I_resolved : forall v m, I m -> I (with__resolved v m).
Hypothesis I_renamed : forall v m, I m -> I (with__renamed v m).
Hypothesis I_failed : forall v m, I m -> I (with__failed v m).
Hypothesis I_pendingDep : forall v m,
  _pendingDep m <> None -> I m -> I (with__pendingDep v m).
Hypothesis I_incompatibles : forall v m, I m -> I (with__incompatibles v m).
Hypothesis I_conflicted : forall v m, I m -> I (with__conflicted v m).
Hypothesis I_resolutions : forall v m, I m -> I (with__resolutions v m).
Hypothesis I_dissected : forall v m, I m -> I (with__dissected v m).
Hypothesis I_deferred : forall v m, I m -> I (with__deferred v m).
Hypothesis I_timeout : forall v m, I m -> I (with__failFastTimeout v m).
Hypothesis I_emit : forall x m,
  is_repo_fetch x = false -> x <> SetFailFastTimeout -> I m -> I (emit x m).
Hypothesis I_decr : forall m, I m -> I (with__nrFetching (decr (_nrFetching m)) m).
Hypothesis I_infinity : forall m, I m -> I (with__nrFetching Infinity m).
Hypothesis I_remove : forall fId a l m,
  JsObj.get fId (_fetching m) = Some l -> I m ->
  I (with__fetching (JsObj.set fId (remove_first a l) (_fetching m)) m).
Hypothesis I_fetch : forall a, fetchable a -> preserves I (_fetch a).
Hypothesis I_fetch_any : forall a, fetchable a.
Hypothesis I_failFast : preserves I _failFast.

Ltac frame_leaf :=
  intros; unfold settle;
  repeat first
    [ assumption
    | apply I_update | apply I_push_resolved
    | apply I_resolved | apply I_renamed | apply I_failed
    | apply I_incompatibles | apply I_conflicted
    | apply I_resolutions | apply I_dissected | apply I_deferred
    | apply I_timeout | apply I_decr | apply I_infinity
    | apply I_emit; [reflexivity|discriminate|]
    | match goal with
      | |- I (match ?x with _ => _ end) => destruct x eqn:?
      | |- I (if ?b then _ else _) => destruct b eqn:?
      end ].

Ltac frame_step :=
  first
    [ apply preserves_ret | apply preserves_throw | apply preserves_gets
    | apply preserves_read
    | apply I_fetch; solve [assumption | apply I_fetch_any]
    | apply I_failFast
    | apply preserves_bind; [|intros ?]
    | apply preserves_modify; solve [frame_leaf]
    | apply preserves_forEach; intros ?
    | match goal with
      | |- preserves _ (match ?x with _ => _ end) => destruct x
      | |- preserves _ (if ?b then _ else _) => destruct b
      end ].

Lemma frame_remove_fetching fId a :
  preserves I (modify (fun m =>
    match JsObj.get fId (_fetching m) with
    | Some l =>
        with__fetching (JsObj.set fId (remove_first a l) (_fetching m)) m
    | None => m
    end)).
Proof.
  apply preserves_modify. intros m Hm.
  destruct (JsObj.get fId (_fetching m)) eqn:E; [apply I_remove; auto|exact Hm].
Qed.

(** [_pendingDep] is written right after it was read and found to be
    defined. *)
Lemma frame_gets_pendingDep {B : Type} (k : option (JsObj.t PendingDep.t) -> M B) :
  (forall m, I m -> I (snd (k (_pendingDep m) m))) ->
  preserves I (bind (gets _pendingDep) k).
Proof. intros Hk m Hm. unfold bind, gets. apply Hk. exact Hm. Qed.

Lemma frame_onFetchError a err : preserves I (_onFetchError a err).
Proof.
  unfold _onFetchError.
  apply preserves_bind; [frame_step|intros guid].
  apply preserves_bind; [frame_step|intros _].
  apply preserves_bind; [apply frame_remove_fetching|intros _].
  repeat frame_step.
Qed.

Lemma frame_parseDependency a pkgMeta jsonKey key value :
  preserves I (parseDependency a pkgMeta jsonKey key value).
Proof.
  unfold parseDependency. destruct (json2decomposed key value) as [[n s] t].
  cbv zeta.
  apply (preserves_bind_val I _ _ fetchable).
  { intros m Hm. simpl. apply I_alloc. exact Hm. }
  intros child Hchild.
  repeat first
    [ apply I_fetch; exact Hchild
    | apply preserves_modify; intros m Hm; apply I_push_resolved; exact Hm
    | apply frame_gets_pendingDep; intros m Hm;
      destruct (_pendingDep m) eqn:?; cbn;
      [apply I_pendingDep; [congruence|exact Hm]|exact Hm]
    | frame_step ].
Qed.

Lemma frame_parseDependencies a pkgMeta jsonKey :
  preserves I (_parseDependencies a pkgMeta jsonKey).
Proof.
  unfold _parseDependencies.
  apply preserves_bind; [frame_step|intros _].
  apply preserves_forEach. intros kv. apply frame_parseDependency.
Qed.

Lemma frame_nextStep fr oldName newName : preserves I (nextStep fr oldName newName).
Proof.
  unfold nextStep. cbv zeta.
  apply preserves_bind; [frame_step|intros fetching].
  apply preserves_bind; [apply frame_remove_fetching|intros _].
  repeat first [apply frame_parseDependencies | frame_step].
Qed.

Lemma frame_onFetchSuccess a dir meta targetable :
  preserves I (_onFetchSuccess a dir meta targetable).
Proof.
  unfold _onFetchSuccess.
  repeat first [apply frame_nextStep | frame_step].
Qed.

Lemma frame_fetched a dir meta targetable :
  preserves I (fetched a dir meta targetable).
Proof.
  intros m Hm. unfold fetched.
  pose proof (frame_onFetchSuccess a dir meta targetable m Hm) as H1.
  destruct (_onFetchSuccess a dir meta targetable m) as [[s|err] m'];
    simpl in *; [exact H1|].
  pose proof (frame_onFetchError a err m' H1) as H2.
  destruct (_onFetchError a err m') as [[u|e] m'']; simpl in *; exact H2.
Qed.

Lemma frame_pending_ready id : preserves I (pending_ready id).
Proof.
  unfold pending_ready. apply frame_gets_pendingDep. intros m Hm.
  destruct (_pendingDep m) as [pending|] eqn:E; [|exact Hm].
  destruct (JsObj.get id pending) as [info|]; [|exact Hm].
  unfold bind at 1, modify at 1.
  apply frame_parseDependencies. apply I_pendingDep; [congruence|exact Hm].
Qed.

Lemma frame_storeResolution pick : preserves I (_storeResolution pick).
Proof. unfold _storeResolution. repeat frame_step. Qed.

Lemma frame_electSuitable rId semvers nonSemvers :
  preserves I (_electSuitable rId semvers nonSemvers).
Proof.
  unfold _electSuitable.
  repeat first [apply frame_storeResolution | frame_step].
Qed.

Lemma frame_answered picks reply : preserves I (answered picks reply).
Proof.
  unfold answered.
  repeat first [apply frame_storeResolution | frame_step].
Qed.

Lemma frame_elections replies jobs suitables :
  preserves I (elections replies jobs suitables).
Proof.
  revert suitables. induction jobs as [|job jobs IH]; intros suitables; simpl.
  - apply preserves_ret.
  - apply preserves_bind; [apply frame_electSuitable|intros e].
    apply preserves_bind; [|intros s; apply IH].
    destruct e; [apply preserves_ret|apply frame_answered].
Qed.

Lemma frame_finish suitables : preserves I (finish suitables).
Proof. unfold finish. repeat frame_step. Qed.

Lemma frame_has_version a : preserves I (has_version a).
Proof. intros m Hm. unfold has_version. destruct (Endpoint.pkgMeta _); exact Hm. Qed.

Lemma frame_prepare rId decEndpoints : preserves I (prepare rId decEndpoints).
Proof.
  unfold prepare.
  apply preserves_bind; [apply preserves_filter_by; apply frame_has_version|].
  intros semvers. apply preserves_bind; [frame_step|intros sorted].
  apply preserves_bind.
  { apply preserves_forEach. intros a. unfold promote. frame_step. }
  intros _. apply preserves_bind; [|intros; apply preserves_ret].
  apply preserves_filter_by. intros a.
  apply preserves_bind; [apply frame_has_version|intros; apply preserves_ret].
Qed.

Lemma frame_prepare_all resolved : preserves I (prepare_all resolved).
Proof.
  induction resolved as [|[rId l] resolved IH]; simpl.
  - apply preserves_ret.
  - apply preserves_bind; [apply frame_prepare|intros job].
    apply preserves_bind; [exact IH|intros jobs; apply preserves_ret].
Qed.

Lemma frame__dissect : preserves I _dissect.
Proof.
  unfold _dissect.
  repeat first [apply frame_prepare_all | frame_step].
Qed.

Lemma frame_dissect replies : preserves I (dissect replies).
Proof.
  unfold dissect. apply preserves_bind; [apply frame__dissect|].
  intros [jobs|]; [|apply preserves_ret].
  intros m Hm.
  assert (P : preserves I
                (bind (elections replies jobs [])
                      (fun suitables => finish suitables))).
  { apply preserves_bind; [apply frame_elections|intros; apply frame_finish]. }
  specialize (P m Hm).
  destruct (bind (elections replies jobs []) (fun suitables => finish suitables) m)
    as [[u|e] m']; simpl in *; unfold settle;
    destruct (_deferred m') as [[| |]|]; auto.
Qed.

Lemma frame_failFastTimer replies : preserves I (failFastTimer replies).
Proof.
  unfold failFastTimer.
  apply preserves_bind; [frame_step|intros _; apply frame_dissect].
Qed.

(** Every handler of the scheduler keeps the property. *)
Lemma frame_handle replies ev : preserves I (handle replies ev).
Proof.
  destruct ev; simpl.
  - apply preserves_bind; [apply frame_fetched|intros; apply preserves_ret].
  - apply frame_nextStep.
  - unfold settled. frame_step.
  - apply frame_onFetchError.
  - apply frame_pending_ready.
  - apply frame_dissect.
  - apply frame_failFastTimer.
Qed.

Lemma frame_run_events replies evs m : I m -> I (run_events replies evs m).
Proof.
  revert m. induction evs as [|ev evs IH]; intros m Hm; simpl; [exact Hm|].
  apply IH. apply frame_handle. exact Hm.
Qed.
End Frame.


(** ** Fail-fast *)

Section FailFastFacts.
Context `{SemverLib} `{Env}.

Lemma repo_fetches_emit x m :
  is_repo_fetch x = false -> repo_fetches (emit x m) = repo_fetches m.
Proof.
  intros Hx. unfold repo_fetches, emit. simpl.
  rewrite List.filter_app. simpl. rewrite Hx. apply app_nil_r.
Qed.

Lemma remove_first_in a b l : In b (remove_first a l) -> In b l.
Proof.
  induction l as [|c l IH]; simpl; [auto|].
  destruct (a =? c)%nat; simpl; intuition.
Qed.

Lemma in_fetching_remove fId a l m b :
  JsObj.get fId (_fetching m) = Some l ->
  in_fetching (with__fetching (JsObj.set fId (remove_first a l) (_fetching m)) m) b ->
  in_fetching m b.
Proof.
  intros Hget (k & l' & Hin & Hb). simpl in Hin.
  destruct (String.eqb_spec fId k) as [<-|Hne].
  - rewrite JsObj_get_set_eq in Hin. injection Hin as <-.
    exists fId, l. split; [exact Hget|]. apply (remove_first_in a). exact Hb.
  - rewrite JsObj_get_set_ne in Hin by exact Hne. exists k, l'. auto.
Qed.

Lemma not_incremented_decr c0 c :
  not_incremented c0 c -> not_incremented c0 (decr c).
Proof. destruct c0, c; simpl; auto; lia. Qed.

(** Once the run has failed, [_fetch] does nothing at all. *)
Lemma fetch_when_failed a m : _hasFailed m = true -> _fetch a m = (Ret None, m).
Proof. intros Hf. unfold _fetch. rewrite Hf. reflexivity. Qed.

Lemma failFast_when_failed m : _hasFailed m = true -> _failFast m = (Ret tt, m).
Proof. intros Hf. unfold _failFast. rewrite Hf. reflexivity. Qed.

(** A fetch error marks the run as failed. *)
Lemma onFetchError_sets_hasFailed a err m :
  _hasFailed (run (_onFetchError a err) m) = true.
Proof.
  unfold run, _onFetchError, bind, gets, modify, ret, _failFast. simpl.
  destruct (JsObj.get _ (_fetching m)); simpl;
    destruct (_hasFailed m) eqn:E; simpl;
    destruct (none_left _); simpl; auto.
Qed.

Lemma failing_since_handle m0 replies ev :
  preserves (failing_since m0) (handle replies ev).
Proof.
  apply (frame_handle _ (fun _ => True));
    try (intros; assumption); try (intros; exact Logic.I).
  - intros e m Hm. split; [exact Logic.I|exact Hm].
  - intros x m Hx _ (A & B & C & D & E). repeat split; auto.
    rewrite repo_fetches_emit; auto.
  - intros m (A & B & C & D & E). repeat split; auto.
    simpl. apply not_incremented_decr. exact E.
  - intros m (A & B & C & D & E). repeat split; auto.
  - intros fId a l m Hget (A & B & C & D & E). repeat split; auto.
    intros b Hb. apply D. apply (in_fetching_remove fId a l m b Hget Hb).
  - intros a _ m Hm. rewrite fetch_when_failed; [exact Hm|apply Hm].
  - intros m Hm. rewrite failFast_when_failed; [exact Hm|apply Hm].
Qed.

Lemma failing_since_refl m : _hasFailed m = true -> failing_since m m.
Proof.
  intros Hf. repeat split; auto. destruct (_nrFetching m); simpl; auto; lia.
Qed.

Lemma failing_since_run m0 replies evs m :
  failing_since m0 m -> failing_since m0 (run_events replies evs m).
Proof.
  revert m. induction evs as [|ev evs IH]; intros m G; simpl; [exact G|].
  apply IH. apply failing_since_handle. exact G.
Qed.

(** C10: a fetch error sets [hasFailed]; from any state in which it is
    set, whatever the scheduler delivers afterwards in the same run,
    [hasFailed] stays set, [repository.fetch] is not called again, no
    endpoint is added to [fetching], [nrFetching] is not incremented, and
    every call of [_fetch] returns at once and leaves the manager as it
    was. *)
Theorem no_fetch_after_failure m :
  (forall a err, _hasFailed (run (_onFetchError a err) m) = true) /\
  (_hasFailed m = true ->
   forall replies evs,
     let m' := run_events replies evs m in
     _hasFailed m' = true /\
     repo_fetches m' = repo_fetches m /\
     promises m' = promises m /\
     (forall a, in_fetching m' a -> in_fetching m a) /\
     not_incremented (_nrFetching m) (_nrFetching m') /\
     forall a, _fetch a m' = (Ret None, m')).
Proof.
  split; [intros a err; apply onFetchError_sets_hasFailed|].
  intros Hf replies evs.
  destruct (failing_since_run m replies evs m (failing_since_refl m Hf))
    as (A & B & C & D & E).
  cbv zeta. repeat split; auto.
  intros a. apply fetch_when_failed. exact A.
Qed.
End FailFastFacts.

(** The run on one target after its fetch failed: a fetch requested for
    the same endpoint is dropped. *)
Lemma no_fetch_after_failure_witness :
  let m' := run_events (fun _ => {| Reply.save := false; Reply.index := None |})
              [DissectTick] Examples.failed_run in
  _hasFailed m' = true /\
  repo_fetches m' = repo_fetches Examples.failed_run /\
  promises m' = promises Examples.failed_run /\
  (forall a, in_fetching m' a -> in_fetching Examples.failed_run a) /\
  not_incremented (_nrFetching Examples.failed_run) (_nrFetching m') /\
  forall a, _fetch a m' = (Ret None, m').
Proof.
  apply (proj2 (no_fetch_after_failure Examples.failed_run)).
  vm_compute. reflexivity.
Defined.


(** ** Re-entrancy of [resolve()] *)

Section WorkingFacts.
Context `{SemverLib} `{Env}.

(** The guard of [resolve()] rejects when the flag is set, and leaves
    the manager alone. *)
Lemma resolve_guard m :
  _working m = true ->
  resolve m = (RejectedWith (Coded "EWORKING" "Already working" None []), m).
Proof. intros Hw. unfold resolve. rewrite Hw. reflexivity. Qed.

Lemma fetch_keeps_working w a : preserves (fun m => _working m = w) (_fetch a).
Proof.
  intros m Hm. unfold _fetch. destruct (_hasFailed m); simpl; exact Hm.
Qed.

Lemma failFast_keeps_working w : preserves (fun m => _working m = w) _failFast.
Proof.
  intros m Hm. unfold _failFast. destruct (_hasFailed m); simpl; exact Hm.
Qed.

(** No handler writes the flag. *)
Lemma handle_keeps_working w replies ev :
  preserves (fun m => _working m = w) (handle replies ev).
Proof.
  apply (frame_handle _ (fun _ => True));
    try (intros; assumption); try (intros; exact Logic.I).
  - intros e m Hm. split; [exact Logic.I|exact Hm].
  - intros a _. apply fetch_keeps_working.
  - apply failFast_keeps_working.
Qed.

(** Neither does [resolve()]. *)
Lemma resolve_keeps_working m : _working (snd (resolve m)) = _working m.
Proof.
  unfold resolve. destruct (_working m) eqn:Hw; [exact Hw|].
  cbv zeta. cbn [_targets with__deferred with__hasFailed with__failed
                 with__nrFetching with__fetching].
  destruct (_targets m) as [|t ts]; [exact Hw|].
  cbn [snd]. unfold run.
  apply (preserves_forEach (fun m => _working m = false)).
  - intros a. apply preserves_bind; [apply fetch_keeps_working|].
    intros; apply preserves_ret.
  - exact Hw.
Qed.

(** From a manager whose flag is unset, as it is after construction, no
    call of [resolve()] is ever rejected, whatever happened in
    between. *)
Lemma resolve_never_rejects replies evs m :
  _working m = false ->
  fst (resolve (run_events replies evs (snd (resolve m)))) <>
  RejectedWith (Coded "EWORKING" "Already working" None []).
Proof.
  intros Hw.
  assert (W : _working (run_events replies evs (snd (resolve m))) = false).
  { assert (W0 : _working (snd (resolve m)) = false)
      by (rewrite resolve_keeps_working; exact Hw).
    revert W0. generalize (snd (resolve m)) as m0.
    induction evs as [|ev evs IH]; intros m0 W0; simpl; [exact W0|].
    apply IH. apply (handle_keeps_working false). exact W0. }
  revert W. generalize (run_events replies evs (snd (resolve m))) as m1.
  intros m1 W. unfold resolve. rewrite W. cbv zeta.
  cbn [_targets with__deferred with__hasFailed with__failed
       with__nrFetching with__fetching].
  destruct (_targets _); cbn [fst]; discriminate.
Qed.
End WorkingFacts.

(** C8 on the code: [resolve()] is called while a run is in progress,
    one fetch failed and one in flight.  The call is not rejected: it
    empties [fetching] and [failed], clears [hasFailed], replaces the
    deferred and fetches both targets again. *)
Lemma resolve_while_resolving :
  let m := Examples.half_failed in
  let m' := snd (resolve m) in
  _working m = false /\
  _nrFetching m = Finite 1 /\ _fetching m = [("left#v1", []); ("right#v1", [1])] /\
  _hasFailed m = true /\ _failed m = [("left", [Transport "ENOTFOUND"])] /\
  fst (resolve m) = Started /\
  _hasFailed m' = false /\ _failed m' = [] /\
  _nrFetching m' = Finite 2 /\ _fetching m' = [("left#v1", [0]); ("right#v1", [1])] /\
  repo_fetches m' = repo_fetches m ++ [RepoFetch 0; RepoFetch 1].
Proof. vm_compute. repeat split; reflexivity. Qed.


(** ** Fetch success *)

Section FetchFacts.
Context `{SemverLib} `{Env}.

(** [nextStep] records the endpoint, then expands it. *)
Lemma nextStep_split fr oldName newName m :
  nextStep fr oldName newName m =
  expand fr (new_rId fr oldName newName m)
    (JsObj.get (Guid.fId (Frame.oldGuid fr)) (_fetching m))
    (recorded fr oldName newName m).
Proof.
  unfold nextStep, expand, recorded, new_rId, newGuid, named.
  cbv zeta. unfold bind at 1, gets at 1. unfold bind at 1, modify at 1.
  unfold bind at 1, modify at 1.
  destruct (truthy_opt oldName).
  - unfold bind at 1, modify at 1. unfold bind at 1, modify at 1.
    unfold bind at 1, gets at 1. unfold bind at 1, modify at 1.
    unfold bind at 1, modify at 1. unfold bind at 1, gets at 1.
    cbn [fst snd].
    match goal with
    | |- context [findIndex ?p ?l] => destruct (findIndex p l) eqn:E
    end.
    + unfold bind at 1. unfold bind at 1, modify at 1.
      unfold bind at 1, modify at 1. unfold modify at 1.
      unfold bind at 1, modify at 1. reflexivity.
    + unfold bind at 1, ret at 1. unfold bind at 1, modify at 1. reflexivity.
  - unfold bind at 1, modify at 1. unfold bind at 1, modify at 1.
    unfold bind at 1, gets at 1. unfold bind at 1, modify at 1.
    unfold bind at 1, modify at 1. unfold bind at 1, gets at 1.
    cbn [fst snd].
    match goal with
    | |- context [findIndex ?p ?l] => destruct (findIndex p l) eqn:E
    end.
    + unfold bind at 1. unfold bind at 1, modify at 1.
      unfold bind at 1, modify at 1. unfold modify at 1.
      unfold bind at 1, modify at 1. reflexivity.
    + unfold bind at 1, ret at 1. unfold bind at 1, modify at 1. reflexivity.
Qed.

Lemma length_heap_update a f m : length (heap (update a f m)) = length (heap m).
Proof. unfold update. simpl. apply length_insert. Qed.

Lemma fetching_named fr oldName newName m :
  _fetching (named fr oldName newName m) =
  match JsObj.get (Guid.fId (Frame.oldGuid fr)) (_fetching m) with
  | Some l =>
      JsObj.set (Guid.fId (Frame.oldGuid fr))
        (remove_first (Frame.decEndpoint fr) l) (_fetching m)
  | None => _fetching m
  end.
Proof.
  unfold named. destruct (truthy_opt oldName);
    destruct (JsObj.get _ (_fetching m)); reflexivity.
Qed.

Lemma fetching_recorded fr oldName newName m :
  _fetching (recorded fr oldName newName m) = _fetching (named fr oldName newName m).
Proof.
  unfold recorded. cbv zeta.
  match goal with
  | |- context [findIndex ?p ?l] => destruct (findIndex p l)
  end; reflexivity.
Qed.

Lemma length_heap_named fr oldName newName m :
  length (heap (named fr oldName newName m)) = length (heap m).
Proof.
  unfold named. cbv zeta. rewrite length_heap_update.
  destruct (truthy_opt oldName); rewrite length_heap_update;
    destruct (JsObj.get _ (_fetching m)); reflexivity.
Qed.

Lemma length_heap_recorded fr oldName newName m :
  length (heap (recorded fr oldName newName m)) = length (heap m).
Proof.
  unfold recorded. cbv zeta.
  match goal with
  | |- context [findIndex ?p ?l] => destruct (findIndex p l)
  end; cbn [heap with__resolved]; rewrite ?length_heap_update;
    cbn [heap with__resolved]; rewrite ?length_heap_update;
    apply length_heap_named.
Qed.

Lemma resolved_recorded fr oldName newName m :
  exists l,
    JsObj.get (new_rId fr oldName newName m)
      (_resolved (recorded fr oldName newName m)) = Some l /\
    In (Frame.decEndpoint fr) l.
Proof.
  unfold recorded. cbv zeta. cbn [_resolved with__resolved].
  eexists. split; [apply JsObj_get_set_eq|].
  apply in_or_app. right. left. reflexivity.
Qed.

(** After the endpoint is recorded it is out of [_fetching], provided
    it was there once. *)
Lemma recorded_settled fr oldName newName m :
  Frame.decEndpoint fr < length (heap m) ->
  fetching_once m (Frame.decEndpoint fr) (Guid.fId (Frame.oldGuid fr)) ->
  settled_under (Frame.decEndpoint fr) (new_rId fr oldName newName m)
    (recorded fr oldName newName m).
Proof.
  intros Ha [Honly Honce]. split; [rewrite length_heap_recorded; exact Ha|].
  split; [|apply resolved_recorded].
  intros (k & l & Hget & Hin). unfold in_fetching in *.
  rewrite fetching_recorded, fetching_named in Hget.
  destruct (JsObj.get (Guid.fId (Frame.oldGuid fr)) (_fetching m)) as [l0|] eqn:E.
  - destruct (String.eqb_spec (Guid.fId (Frame.oldGuid fr)) k) as [<-|Hne].
    + rewrite JsObj_get_set_eq in Hget. injection Hget as <-.
      apply (Honce l0 eq_refl). exact Hin.
    + rewrite JsObj_get_set_ne in Hget by exact Hne.
      apply Hne. symmetry. apply (Honly k l Hget Hin).
  - pose proof (Honly k l Hget Hin) as ->. congruence.
Qed.

Lemma settled_under_update a rId b f m :
  settled_under a rId m -> settled_under a rId (update b f m).
Proof.
  intros (A & B & C). split; [rewrite length_heap_update; exact A|].
  split; [exact B|exact C].
Qed.

Lemma settled_under_fetch a rId x :
  x <> a -> preserves (settled_under a rId) (_fetch x).
Proof.
  intros Hx m (A & B & C). unfold _fetch.
  destruct (_hasFailed m); [repeat split; assumption|].
  cbn [snd]. unfold emit. cbn [trace with_trace].
  split; [|split].
  - cbn [heap with_trace]. rewrite length_heap_update.
    cbn [heap with_promises with__nrFetching with__fetching].
    rewrite length_heap_update. exact A.
  - intros (k & l & Hget & Hin). cbn in Hget.
    set (fId := Guid.fId (getGuid (deref m x) None)) in *.
    destruct (String.eqb_spec fId k) as [<-|Hne].
    + rewrite JsObj_get_set_eq in Hget. injection Hget as <-.
      apply in_app_or in Hin as [Hin|[Hin|[]]]; [|congruence].
      apply B. destruct (JsObj.get fId (_fetching m)) as [l0|] eqn:E;
        [|destruct Hin].
      exists fId, l0. auto.
    + rewrite JsObj_get_set_ne in Hget by exact Hne.
      apply B. exists k, l. auto.
  - exact C.
Qed.

Lemma settled_under_parseDependencies a rId b pkgMeta jsonKey :
  preserves (settled_under a rId) (_parseDependencies b pkgMeta jsonKey).
Proof.
  apply (frame_parseDependencies _ (fun x => x <> a)).
  - intros; apply settled_under_update; assumption.
  - intros e m (A & B & C). split; [lia|].
    split; [cbn [heap with_heap]; rewrite length_app; simpl; lia|].
    split; [exact B|exact C].
  - intros k x m (A & B & (l & Hl & Hin)). split; [exact A|]. split; [exact B|].
    cbn [_resolved with__resolved].
    destruct (String.eqb_spec k rId) as [->|Hne].
    + rewrite JsObj_get_set_eq, Hl. eexists. split; [reflexivity|].
      apply in_or_app. left. exact Hin.
    + rewrite JsObj_get_set_ne by exact Hne. eauto.
  - intros v m _ Hm. exact Hm.
  - intros x Hx. apply settled_under_fetch. exact Hx.
Qed.

Lemma settled_under_expand a rId fr fetching :
  Frame.decEndpoint fr = a ->
  preserves (settled_under a rId) (expand fr rId fetching).
Proof.
  intros Ha. unfold expand. cbv zeta. rewrite Ha.
  apply preserves_bind; [apply settled_under_parseDependencies|intros _].
  apply preserves_bind; [apply preserves_gets|intros production].
  apply preserves_bind.
  { destruct production; [apply preserves_ret|apply settled_under_parseDependencies]. }
  intros _. apply preserves_bind; [apply preserves_gets|intros incompatibles].
  apply preserves_bind.
  { destruct incompatibles as [incompatibles|]; [|apply preserves_ret].
    apply (preserves_bind_val _ _ _ (fun unresolved => ~ In a unresolved)).
    { intros m Hm. simpl. split; [|exact Hm].
      intros Hin. apply filter_In in Hin as [_ Hf].
      destruct Hm as (_ & _ & (l & Hl & Hal)). rewrite Hl in Hf. simpl in Hf.
      apply negb_true_iff in Hf.
      assert (E : existsb
                    (fun r => String.eqb (Endpoint.target (deref m a))
                                         (Endpoint.target (deref m r))) l = true).
      { apply existsb_exists. exists a. split; [exact Hal|apply String.eqb_refl]. }
      congruence. }
    intros unresolved Hun.
    apply (preserves_bind_val _ _ _ (fun unfetched => ~ In a unfetched)).
    { intros m Hm. destruct unresolved as [|u us]; [simpl; auto|].
      destruct fetching; unfold gets, throw; cbv beta iota; [|exact Hm].
      split; [|exact Hm].
      intros Hin. apply filter_In in Hin as [Hin _]. auto. }
    intros unfetched Hunf.
    apply preserves_bind.
    { apply preserves_forEach_in. intros x Hx.
      apply preserves_bind; [|intros; apply preserves_ret].
      apply settled_under_fetch. congruence. }
    intros _. apply preserves_modify. intros m Hm. exact Hm. }
  intros _. apply preserves_bind.
  { destruct (Frame.isTargetable fr); [apply preserves_ret|].
    apply preserves_modify. intros m Hm. apply settled_under_update. exact Hm. }
  intros _. apply preserves_bind; [apply preserves_gets|intros nr].
  destruct (none_left nr); [|apply preserves_ret].
  apply preserves_modify. intros m Hm. exact Hm.
Qed.

(** Whatever [nextStep] ends with, the endpoint it was called for is
    recorded and no longer in flight. *)
Lemma nextStep_settles fr oldName newName m :
  Frame.decEndpoint fr < length (heap m) ->
  fetching_once m (Frame.decEndpoint fr) (Guid.fId (Frame.oldGuid fr)) ->
  settled_under (Frame.decEndpoint fr) (new_rId fr oldName newName m)
    (run (nextStep fr oldName newName) m).
Proof.
  intros Ha Hf. unfold run. rewrite nextStep_split.
  apply (settled_under_expand (Frame.decEndpoint fr)); [reflexivity|].
  apply recorded_settled; assumption.
Qed.

(** [_onFetchSuccess], branch by branch. *)
Lemma onFetchSuccess_cases a dir meta targetable m :
  _onFetchSuccess a dir meta targetable m =
  let fr := frame_of a dir meta targetable m in
  if renames fr m then (Ret (Moving fr), moving fr m)
  else
    match nextStep fr None None
            (update a (Endpoint.with__guid (Some (Frame.oldGuid fr))) m) with
    | (Ret _, m') => (Ret Stepped, m')
    | (Throw e, m') => (Throw e, m')
    end.
Proof.
  unfold _onFetchSuccess, frame_of, renames, moving, initialName_of.
  cbv zeta. unfold bind at 1, gets at 1. unfold bind at 1, gets at 1.
  unfold bind at 1, modify at 1. unfold bind at 1, gets at 1.
  cbn [Frame.name Frame.pkgMeta Frame.decEndpoint Frame.oldGuid
       _renamed componentsDir update with_heap].
  destruct (negb _ && negb _); [reflexivity|].
  unfold bind at 1. unfold update.
  destruct (nextStep _ None None _) as [[u|e] m']; reflexivity.
Qed.

Lemma fetching_once_ext a fId m1 m2 :
  _fetching m2 = _fetching m1 -> fetching_once m1 a fId -> fetching_once m2 a fId.
Proof. unfold fetching_once. intros ->. auto. Qed.

Lemma fetching_moving fr m : _fetching (moving fr m) = _fetching m.
Proof. reflexivity. Qed.

Lemma length_heap_moving fr m : length (heap (moving fr m)) = length (heap m).
Proof.
  unfold moving. cbv zeta. unfold emit.
  cbn [heap with_trace with__renamed with__resolved].
  apply length_heap_update.
Qed.

Lemma resolved_moving fr m :
  in_resolved (moving fr m) (Frame.decEndpoint fr).
Proof.
  unfold in_resolved, moving. cbv zeta. unfold emit.
  cbn [_resolved with_trace with__renamed with__resolved].
  eexists _, _. split; [apply JsObj_get_set_eq|].
  apply in_or_app. right. left. reflexivity.
Qed.

Lemma in_fetching_ext a m1 m2 :
  _fetching m2 = _fetching m1 -> in_fetching m1 a -> in_fetching m2 a.
Proof. unfold in_fetching. intros ->. auto. Qed.

Lemma settled_resolved a rId m :
  settled_under a rId m -> in_resolved m a /\ ~ in_fetching m a.
Proof.
  intros (_ & B & (l & Hl & Hin)). split; [|exact B]. exists rId, l. auto.
Qed.

Lemma onFetchSuccess_renaming a dir meta targetable m :
  renames (frame_of a dir meta targetable m) m = true ->
  _onFetchSuccess a dir meta targetable m =
  (Ret (Moving (frame_of a dir meta targetable m)),
   moving (frame_of a dir meta targetable m) m).
Proof.
  intros Hr. rewrite onFetchSuccess_cases. cbv zeta. rewrite Hr. reflexivity.
Qed.

Lemma onFetchSuccess_stepping a dir meta targetable m :
  renames (frame_of a dir meta targetable m) m = false ->
  snd (_onFetchSuccess a dir meta targetable m) =
  snd (nextStep (frame_of a dir meta targetable m) None None
         (update a (Endpoint.with__guid
                      (Some (Frame.oldGuid (frame_of a dir meta targetable m)))) m)).
Proof.
  intros Hr. rewrite onFetchSuccess_cases. cbv zeta. rewrite Hr.
  destruct (nextStep _ None None _) as [[u|e] m']; reflexivity.
Qed.

(** [nextStep], run for an endpoint that sat once in [_fetching],
    leaves it resolved and out of [_fetching]. *)
Lemma nextStep_resolved fr oldName newName m a :
  Frame.decEndpoint fr = a ->
  a < length (heap m) ->
  fetching_once m a (Guid.fId (Frame.oldGuid fr)) ->
  in_resolved (snd (nextStep fr oldName newName m)) a /\
  ~ in_fetching (snd (nextStep fr oldName newName m)) a.
Proof.
  intros <- Ha Hf.
  apply (settled_resolved _ (new_rId fr oldName newName m)).
  apply nextStep_settles; assumption.
Qed.

End FetchFacts.



(** C7 on the code: [repo#v1] is recorded under [repo/v1] with the
    dependant [p] (object 0) when the same source and target, fetched
    for the dependant [q] (object 1), succeed.  The twin (object 2) is
    replaced by the fetched endpoint (object 3), whose dependants are
    still [q] alone: those of the twin are not merged. *)
Lemma onFetchSuccess_twin_dependants_dropped :
  let m := Examples.with_twin in
  let m' := run (fetched 3 "/tmp/repo2" (Examples.manifest "repo/v1" None) true) m in
  JsObj.get "repo/v1" (_resolved m) = Some [2] /\
  Endpoint.source (deref m 2) = Endpoint.source (deref m 3) /\
  Endpoint.target (deref m 2) = Endpoint.target (deref m 3) /\
  Endpoint.dependants (deref m 2) = [0] /\
  Endpoint.dependants (deref m 3) = [1] /\
  outcome (fetched 3 "/tmp/repo2" (Examples.manifest "repo/v1" None) true) m
    = Ret Stepped /\
  JsObj.get "repo/v1" (_resolved m') = Some [3] /\
  Endpoint.dependants (deref m' 3) = [1].
Proof. vm_compute. repeat split; reflexivity. Qed.

(** ** Dissection *)

Section DissectFacts.
Context `{SemverLib} `{Env}.

Lemma deref_update_ne a b f m : a <> b -> deref (update a f m) b = deref m b.
Proof.
  intros Hne. unfold deref, update. cbn [heap with_heap].
  rewrite list_lookup_insert_ne by exact Hne. reflexivity.
Qed.

Lemma deref_update_eq a f m :
  a < length (heap m) -> deref (update a f m) a = f (deref m a).
Proof.
  intros Ha. unfold deref, update. cbn [heap with_heap].
  rewrite list_lookup_insert_eq by exact Ha. reflexivity.
Qed.

Lemma update_out_of_range a f m :
  length (heap m) <= a -> heap (update a f m) = heap m.
Proof.
  intros Ha. unfold update. cbn [heap with_heap]. apply list_insert_ge. exact Ha.
Qed.

Lemma deref_out_of_range a m :
  length (heap m) <= a -> deref m a = Endpoint.fresh None "" "".
Proof.
  intros Ha. unfold deref. rewrite lookup_ge_None_2 by exact Ha. reflexivity.
Qed.

Lemma promoted_idem e : promoted (promoted e) = promoted e.
Proof.
  unfold promoted.
  destruct (Endpoint.newly e && String.eqb (Endpoint.target e) "*"
            && negb (Endpoint.untargetable e)) eqn:E; [|rewrite E; reflexivity].
  destruct e; simpl in *. rewrite andb_false_r. reflexivity.
Qed.

Lemma promoted_pkgMeta e : Endpoint.pkgMeta (promoted e) = Endpoint.pkgMeta e.
Proof.
  unfold promoted. destruct (_ && _ && _); [destruct e|]; reflexivity.
Qed.

(** [promote] promotes its object and touches no other. *)
Lemma promote_deref a m c :
  deref (snd (promote a m)) c =
  if Nat.eqb a c then promoted (deref m c) else deref m c.
Proof.
  unfold promote, modify. cbn [snd]. unfold promoted.
  destruct (Nat.eqb_spec a c) as [->|Hne].
  - destruct (Endpoint.newly (deref m c) && _ && _) eqn:E; [|reflexivity].
    destruct (Nat.lt_ge_cases c (length (heap m))) as [Hc|Hc].
    + rewrite deref_update_eq by exact Hc. reflexivity.
    + rewrite (deref_out_of_range c m Hc) in E. discriminate.
  - destruct (Endpoint.newly (deref m a) && _ && _); [|reflexivity].
    apply deref_update_ne. exact Hne.
Qed.

Lemma promote_returns a m : fst (promote a m) = Ret tt.
Proof. reflexivity. Qed.

Lemma promoted_since_refl m : promoted_since m m.
Proof. intros c. left. reflexivity. Qed.

Lemma promoted_since_promote m0 m a :
  promoted_since m0 m -> promoted_since m0 (snd (promote a m)).
Proof.
  intros Q c. rewrite promote_deref. destruct (Nat.eqb a c); [|apply Q].
  right. destruct (Q c) as [-> | ->]; [reflexivity|apply promoted_idem].
Qed.

Lemma promoted_since_pkgMeta m0 m c :
  promoted_since m0 m ->
  Endpoint.pkgMeta (deref m c) = Endpoint.pkgMeta (deref m0 c).
Proof.
  intros Q. destruct (Q c) as [-> | ->]; [reflexivity|apply promoted_pkgMeta].
Qed.

(** The [forEach] of the promotions: it returns, and every object of
    the array ends promoted. *)
Lemma forEach_promote m0 a l m :
  promoted_since m0 m ->
  exists m',
    forEach promote l m = (Ret tt, m') /\
    promoted_since m0 m' /\
    (deref m a = promoted (deref m0 a) -> deref m' a = promoted (deref m0 a)) /\
    (In a l -> deref m' a = promoted (deref m0 a)).
Proof.
  revert m. induction l as [|b l IH]; intros m Q.
  - exists m. simpl. repeat split; auto. intros [].
  - assert (Q1 : promoted_since m0 (snd (promote b m)))
      by (apply promoted_since_promote; exact Q).
    assert (D1 : deref m a = promoted (deref m0 a) \/ b = a ->
                 deref (snd (promote b m)) a = promoted (deref m0 a)).
    { intros D. rewrite promote_deref.
      destruct (Nat.eqb_spec b a) as [->|Hne].
      - destruct (Q a) as [-> | ->]; [reflexivity|apply promoted_idem].
      - destruct D as [D|D]; [exact D|contradiction]. }
    destruct (IH _ Q1) as (m' & E & Q2 & D2 & I2).
    exists m'. split.
    { cbn [forEach]. unfold bind. unfold promote at 1, modify at 1.
      exact E. }
    split; [exact Q2|]. split.
    + intros D. apply D2. apply D1. left. exact D.
    + intros [->|Hin]; [apply D2; apply D1; right; reflexivity|apply I2; exact Hin].
Qed.

Lemma filter_by_has_version l m :
  Forall (fun b => Endpoint.pkgMeta (deref m b) <> None) l ->
  filter_by has_version l m =
  (Ret (List.filter (fun b => truthy_opt (Endpoint.version (deref m b))) l), m).
Proof.
  induction 1 as [|b l Hb Hl IH]; [reflexivity|].
  cbn [filter_by]. unfold bind at 1. unfold has_version at 1.
  cbn [List.filter]. unfold Endpoint.version at 1.
  destruct (Endpoint.pkgMeta (deref m b)) as [meta|] eqn:E; [|contradiction].
  unfold bind at 1. rewrite IH. reflexivity.
Qed.

Lemma filter_by_no_version l m :
  Forall (fun b => Endpoint.pkgMeta (deref m b) <> None) l ->
  filter_by (fun a => bind (has_version a) (fun b => ret (negb b))) l m =
  (Ret (List.filter (fun b => negb (truthy_opt (Endpoint.version (deref m b)))) l), m).
Proof.
  induction 1 as [|b l Hb Hl IH]; [reflexivity|].
  cbn [filter_by]. unfold bind at 1. unfold bind at 1. unfold has_version at 1.
  cbn [List.filter]. unfold Endpoint.version at 1.
  destruct (Endpoint.pkgMeta (deref m b)) as [meta|] eqn:E; [|contradiction].
  unfold ret at 1. unfold bind at 1. rewrite IH. reflexivity.
Qed.

Lemma fetched_since m0 m l :
  promoted_since m0 m ->
  Forall (fun b => Endpoint.pkgMeta (deref m0 b) <> None) l ->
  Forall (fun b => Endpoint.pkgMeta (deref m b) <> None) l.
Proof.
  intros Q. apply Forall_impl. intros b. rewrite (promoted_since_pkgMeta m0 m b Q).
  auto.
Qed.

(** The preparation of one election returns, and promotes the semver
    endpoints of its list. *)
Lemma prepare_promotes m0 a rId l m :
  promoted_since m0 m ->
  Forall (fun b => Endpoint.pkgMeta (deref m0 b) <> None) l ->
  exists job m',
    prepare rId l m = (Ret job, m') /\
    promoted_since m0 m' /\
    (deref m a = promoted (deref m0 a) -> deref m' a = promoted (deref m0 a)) /\
    (In a l -> truthy_opt (Endpoint.version (deref m0 a)) = true ->
     deref m' a = promoted (deref m0 a)).
Proof.
  intros Q Hl.
  set (sorted := js_sort (semver_order m)
                   (List.filter
                      (fun b => truthy_opt (Endpoint.version (deref m b))) l)).
  destruct (forEach_promote m0 a sorted m Q) as (m1 & E & Q1 & D1 & I1).
  eexists _, m1. split.
  { unfold prepare.
    unfold bind at 1. rewrite (filter_by_has_version l m (fetched_since m0 m l Q Hl)).
    unfold bind at 1, gets at 1. unfold bind at 1. fold sorted. rewrite E.
    unfold bind at 1.
    rewrite (filter_by_no_version l m1 (fetched_since m0 m1 l Q1 Hl)).
    reflexivity. }
  split; [exact Q1|]. split; [exact D1|].
  intros Hin Hv. apply I1. unfold sorted. apply js_sort_in.
  apply filter_In. split; [exact Hin|].
  unfold Endpoint.version in *.
  rewrite (promoted_since_pkgMeta m0 m a Q). exact Hv.
Qed.

Lemma prepare_all_promotes m0 a resolved m :
  promoted_since m0 m ->
  Forall (fun entry : string * list addr =>
            Forall (fun b => Endpoint.pkgMeta (deref m0 b) <> None) (snd entry))
         resolved ->
  exists jobs m',
    prepare_all resolved m = (Ret jobs, m') /\
    promoted_since m0 m' /\
    (deref m a = promoted (deref m0 a) -> deref m' a = promoted (deref m0 a)) /\
    ((exists rId l, In (rId, l) resolved /\ In a l) ->
     truthy_opt (Endpoint.version (deref m0 a)) = true ->
     deref m' a = promoted (deref m0 a)).
Proof.
  intros Q Hall. revert m Q.
  induction Hall as [|[rId l] resolved Hl Hrest IH]; intros m Q.
  - exists [], m. simpl. repeat split; auto. intros (r & l & [] & _).
  - destruct (prepare_promotes m0 a rId l m Q Hl) as (job & m1 & E1 & Q1 & D1 & I1).
    destruct (IH m1 Q1) as (jobs & m2 & E2 & Q2 & D2 & I2).
    exists (job :: jobs), m2. split.
    { cbn [prepare_all]. unfold bind at 1. rewrite E1.
      unfold bind at 1. rewrite E2. reflexivity. }
    split; [exact Q2|]. split; [intros D; apply D2, D1, D|].
    intros (r & l' & [E|Hin] & Ha) Hv.
    + injection E as -> ->. apply D2. apply I1; assumption.
    + apply I2; [|exact Hv]. exists r, l'. auto.
Qed.

(** The part of [_dissect] that runs at once, on a run that has not
    failed. *)
Lemma dissect_sync_promotes m a :
  _hasFailed m = false -> all_fetched m ->
  exists jobs m',
    _dissect m = (Ret (Some jobs), m') /\
    (in_resolved m a -> truthy_opt (Endpoint.version (deref m a)) = true ->
     deref m' a = promoted (deref m a)).
Proof.
  intros Hf Hall.
  destruct (prepare_all_promotes m a (_resolved m) m (promoted_since_refl m) Hall)
    as (jobs & m' & E & _ & _ & I1).
  exists jobs, m'. split.
  - unfold _dissect. unfold bind at 1, gets at 1. rewrite Hf.
    unfold bind at 1, gets at 1. unfold bind at 1. rewrite E. reflexivity.
  - intros (rId & l & Hget & Hin). apply I1. exists rId, l.
    split; [apply JsObj_get_in; exact Hget|exact Hin].
Qed.

Lemma elections_keep_heap replies jobs suitables :
  forall h, preserves (fun m => heap m = h) (elections replies jobs suitables).
Proof.
  intros h. apply frame_elections; intros; assumption.
Qed.

Lemma finish_keeps_heap suitables :
  forall h, preserves (fun m => heap m = h) (finish suitables).
Proof.
  intros h. apply frame_finish; intros; assumption.
Qed.

(** The chain of elections and what follows leave the objects alone. *)
Lemma dissect_chain_heap replies jobs m :
  heap (snd (bind (elections replies jobs []) (fun suitables => finish suitables) m))
  = heap m.
Proof.
  apply (preserves_bind (fun m' => heap m' = heap m)
           (elections replies jobs []) (fun suitables => finish suitables)).
  - apply elections_keep_heap.
  - intros suitables. apply finish_keeps_heap.
  - reflexivity.
Qed.

Lemma heap_settle d m : heap (settle d m) = heap m.
Proof. unfold settle. destruct (_deferred m) as [[| |]|]; reflexivity. Qed.

(** C5, as amended: when [_dissect] runs on a run that has not failed,
    and every endpoint listed in [resolved] carries its manifest, it
    returns, and every endpoint of [resolved] that was newly added with
    the target [*], is targetable and has the version [V] ends with the
    target [~V] and the original target [*], through the elections and
    whatever their outcome. *)
Theorem dissect_promotes replies m a V :
  _hasFailed m = false ->
  all_fetched m ->
  in_resolved m a ->
  Endpoint.newly (deref m a) = true ->
  Endpoint.target (deref m a) = "*" ->
  Endpoint.untargetable (deref m a) = false ->
  Endpoint.version (deref m a) = Some V ->
  truthy V = true ->
  fst (dissect replies m) = Ret tt /\
  Endpoint.target (deref (snd (dissect replies m)) a) = "~" +:+ V /\
  Endpoint.originalTarget (deref (snd (dissect replies m)) a) = Some "*".
Proof.
  intros Hf Hall Hin Hn Ht Hu Hv HV.
  destruct (dissect_sync_promotes m a Hf Hall) as (jobs & m1 & E & P).
  assert (D : deref m1 a = promoted (deref m a)).
  { apply P; [exact Hin|]. rewrite Hv. exact HV. }
  assert (S : exists m2, dissect replies m = (Ret tt, m2) /\ heap m2 = heap m1).
  { unfold dissect. unfold bind at 1. rewrite E.
    pose proof (dissect_chain_heap replies jobs m1) as K.
    destruct (bind (elections replies jobs []) (fun suitables => finish suitables) m1)
      as [[u|e] m2]; cbn [snd] in K; eexists; (split; [reflexivity|]);
      rewrite heap_settle; exact K. }
  destruct S as (m2 & -> & K). cbn [fst snd].
  assert (D2 : deref m2 a = promoted (deref m a)).
  { unfold deref at 1. rewrite K. exact D. }
  rewrite D2. unfold promoted. rewrite Hn, Ht, Hu, Hv. simpl.
  split; [reflexivity|]. destruct (deref m a); split; reflexivity.
Qed.
End DissectFacts.

(** Both targets fetched: the dissection promotes the target of [a]
    from [*] to [~1.2.3]. *)
Lemma dissect_promotes_witness :
  fst (dissect Examples.silent Examples.both_resolved) = Ret tt /\
  Endpoint.target (deref (snd (dissect Examples.silent Examples.both_resolved)) 0)
    = "~" +:+ "1.2.3" /\
  Endpoint.originalTarget
    (deref (snd (dissect Examples.silent Examples.both_resolved)) 0) = Some "*".
Proof.
  apply (dissect_promotes Examples.silent Examples.both_resolved 0 "1.2.3");
    try (vm_compute; reflexivity).
  - unfold all_fetched.
    change (_resolved Examples.both_resolved) with [("a", [0]); ("b", [1])].
    repeat constructor; vm_compute; discriminate.
  - exists "a", [0]. split; [vm_compute; reflexivity|left; reflexivity].
Defined.

(** C5 as stated fails when the run has failed: [a] was added by the
    user with the target [*] and fetched at version 1.2.3, the fetch of
    [b] failed; [_dissect] rejects the promise of [resolve()] with that
    error and returns, and the target of [a] is still [*]. *)
Lemma dissect_after_failure_keeps_wildcard :
  let m := Examples.b_failed in
  let m' := snd (dissect Examples.silent m) in
  in_resolved m 0 /\
  Endpoint.newly (deref m 0) = true /\
  Endpoint.target (deref m 0) = "*" /\
  Endpoint.untargetable (deref m 0) = false /\
  Endpoint.version (deref m 0) = Some "1.2.3" /\
  fst (dissect Examples.silent m) = Ret tt /\
  _deferred m' = Some (Rejected (Transport "ENOTFOUND")) /\
  JsObj.get "a" (_resolved m') = Some [0] /\
  Endpoint.target (deref m' 0) = "*" /\
  Endpoint.originalTarget (deref m' 0) = None.
Proof.
  cbv zeta. split.
  - exists "a", [0]. split; [vm_compute; reflexivity|left; reflexivity].
  - vm_compute. repeat split; reflexivity.
Qed.


(** ** Where coded errors come from *)

Section QuietFacts.
Context `{SemverLib} `{Env}.

Lemma quiet_ret {A : Type} (a : A) : quiet (ret a).
Proof. intros m e E. discriminate E. Qed.

Lemma quiet_gets {A : Type} (f : manager -> A) : quiet (gets f).
Proof. intros m e E. discriminate E. Qed.

Lemma quiet_modify (f : manager -> manager) : quiet (modify f).
Proof. intros m e E. discriminate E. Qed.

Lemma quiet_throw {A : Type} (msg : string) : quiet (@throw A (TypeError msg)).
Proof. intros m e E. injection E as <-. reflexivity. Qed.

Lemma quiet_read {A : Type} (f : manager -> result A) :
  (forall m e, f m = Throw e -> error_code e = None) ->
  quiet (fun m => (f m, m)).
Proof. intros Hf m e E. apply (Hf m). exact E. Qed.

Lemma quiet_bind {A B : Type} (c : M A) (k : A -> M B) :
  quiet c -> (forall a, quiet (k a)) -> quiet (bind c k).
Proof.
  intros Hc Hk m e. unfold bind. specialize (Hc m).
  destruct (c m) as [[a|e'] m']; cbn [fst] in *.
  - apply Hk.
  - intros E. injection E as <-. apply Hc. reflexivity.
Qed.

Lemma quiet_forEach {A : Type} (f : A -> M unit) (l : list A) :
  (forall x, quiet (f x)) -> quiet (forEach f l).
Proof.
  intros Hf. induction l as [|x l IH]; simpl.
  - apply quiet_ret.
  - apply quiet_bind; auto.
Qed.

Lemma quiet_filter_by (keep : addr -> M bool) (l : list addr) :
  (forall a, quiet (keep a)) -> quiet (filter_by keep l).
Proof.
  intros Hk. induction l as [|a l IH]; simpl.
  - apply quiet_ret.
  - apply quiet_bind; [apply Hk|]. intros b.
    apply quiet_bind; [exact IH|]. intros rest. apply quiet_ret.
Qed.

Lemma cap_replaces_quiet side v c e :
  cap_replaces side v c = Throw e -> error_code e = None.
Proof.
  unfold cap_replaces. destruct (cap_version c) as [cv|]; [|discriminate].
  destruct (truthy cv); [|discriminate]. destruct v; [discriminate|].
  intros E. injection E as <-. reflexivity.
Qed.

Lemma getCap_each_quiet side :
  forall c acc e, getCap_each side c acc = Throw e -> error_code e = None.
Proof.
  fix IH 1. intros [s|l] acc e.
  - simpl. destruct (match_comparator s) as [[prefix v]|]; [|discriminate].
    destruct (cap_replaces side (Some v) acc) as [[|]|e'] eqn:R; try discriminate.
    intros E. injection E as <-. apply (cap_replaces_quiet _ _ _ _ R).
  - rewrite getCap_each_array.
    assert (L : forall acc e, getCap_from side l acc = Throw e -> error_code e = None).
    { clear acc e. induction l as [|x l IHl]; intros acc e; simpl; [discriminate|].
      destruct (getCap_each side x acc) as [a'|e'] eqn:X.
      - apply IHl.
      - intros E. injection E as <-. apply (IH x acc e' X). }
    destruct (getCap_from side l empty_cap) as [candidate|e'] eqn:F.
    + destruct (cap_replaces side (cap_version candidate) acc) as [[|]|e''] eqn:R;
        try discriminate.
      intros E. injection E as <-. apply (cap_replaces_quiet _ _ _ _ R).
    + intros E. injection E as <-. apply (L empty_cap e' F).
Qed.

Lemma getCap_quiet comparators side e :
  _getCap comparators side = Throw e -> error_code e = None.
Proof.
  unfold _getCap. generalize empty_cap as acc.
  induction comparators as [|x l IH]; intros acc; simpl; [discriminate|].
  destruct (getCap_each side x acc) as [a'|e'] eqn:X.
  - apply IH.
  - intros E. injection E as <-. apply (getCap_each_quiet side x acc e' X).
Qed.

Lemma areCompatible_quiet candidate resolved e :
  _areCompatible candidate resolved = Throw e -> error_code e = None.
Proof.
  unfold _areCompatible, compatible_targets.
  repeat match goal with
         | |- context [if ?b then _ else _] => destruct b
         end; try discriminate.
  all: destruct (_getCap (comparators_of (Endpoint.target candidate)) "highest")
         as [hc|e1] eqn:E1;
       [|intros E; injection E as <-; apply (getCap_quiet _ _ _ E1)].
  all: destruct (_getCap (comparators_of (Endpoint.target resolved)) "highest")
         as [hr|e2] eqn:E2;
       [discriminate|intros E; injection E as <-; apply (getCap_quiet _ _ _ E2)].
Qed.

Lemma find_throwing_quiet {A : Type} (p : A -> result bool) (l : list A) e :
  (forall x e, p x = Throw e -> error_code e = None) ->
  find_throwing p l = Throw e -> error_code e = None.
Proof.
  intros Hp. induction l as [|x l IH]; simpl; [discriminate|].
  destruct (p x) as [[|]|e'] eqn:P; [discriminate|exact IH|].
  intros E. injection E as <-. apply (Hp x e' P).
Qed.

Ltac quiet_step :=
  first
    [ apply quiet_ret | apply quiet_gets | apply quiet_modify | apply quiet_throw
    | apply quiet_read; intros ? ?;
      apply find_throwing_quiet; intros ? ?; apply areCompatible_quiet
    | apply quiet_bind; [|intros ?]
    | apply quiet_forEach; intros ?
    | match goal with
      | |- quiet (match ?x with _ => _ end) => destruct x
      | |- quiet (if ?b then _ else _) => destruct b
      end ].

Lemma fetch_quiet a : quiet (_fetch a).
Proof.
  intros m e. unfold _fetch. destruct (_hasFailed m); discriminate.
Qed.

Lemma failFast_quiet : quiet _failFast.
Proof.
  intros m e. unfold _failFast. destruct (_hasFailed m); discriminate.
Qed.

Lemma onFetchError_quiet a err : quiet (_onFetchError a err).
Proof.
  unfold _onFetchError. repeat first [apply failFast_quiet | quiet_step].
Qed.

Lemma alloc_quiet e0 :
  quiet (fun m => let (c, m') := alloc e0 m in (Ret c, m')).
Proof. intros m e E. discriminate E. Qed.

Lemma parseDependency_quiet a pkgMeta jsonKey key value :
  quiet (parseDependency a pkgMeta jsonKey key value).
Proof.
  unfold parseDependency. destruct (json2decomposed key value) as [[n s] t].
  cbv zeta. apply quiet_bind; [apply alloc_quiet|intros child].
  repeat first [apply fetch_quiet | quiet_step].
Qed.

Lemma parseDependencies_quiet a pkgMeta jsonKey :
  quiet (_parseDependencies a pkgMeta jsonKey).
Proof.
  unfold _parseDependencies. apply quiet_bind; [quiet_step|intros _].
  apply quiet_forEach. intros kv. apply parseDependency_quiet.
Qed.

Lemma nextStep_quiet fr oldName newName : quiet (nextStep fr oldName newName).
Proof.
  unfold nextStep. cbv zeta.
  repeat first [apply parseDependencies_quiet | apply fetch_quiet | quiet_step].
Qed.

Lemma onFetchSuccess_quiet a dir meta targetable :
  quiet (_onFetchSuccess a dir meta targetable).
Proof.
  unfold _onFetchSuccess. repeat first [apply nextStep_quiet | quiet_step].
Qed.

Lemma fetched_quiet a dir meta targetable : quiet (fetched a dir meta targetable).
Proof.
  intros m e. unfold fetched.
  destruct (_onFetchSuccess a dir meta targetable m) as [[s|err] m'];
    [discriminate|].
  pose proof (onFetchError_quiet a err m') as Q.
  destruct (_onFetchError a err m') as [[u|e'] m'']; [discriminate|].
  intros E. injection E as <-. apply Q. reflexivity.
Qed.

Lemma pending_ready_quiet id : quiet (pending_ready id).
Proof.
  unfold pending_ready. repeat first [apply parseDependencies_quiet | quiet_step].
Qed.

Lemma has_version_quiet a : quiet (has_version a).
Proof.
  intros m e. unfold has_version. destruct (Endpoint.pkgMeta _); [discriminate|].
  intros E. injection E as <-. reflexivity.
Qed.

Lemma prepare_all_quiet resolved : quiet (prepare_all resolved).
Proof.
  induction resolved as [|[rId l] resolved IH]; simpl; [apply quiet_ret|].
  apply quiet_bind; [|intros job; apply quiet_bind; [exact IH|intros; apply quiet_ret]].
  unfold prepare.
  apply quiet_bind; [apply quiet_filter_by; apply has_version_quiet|intros semvers].
  apply quiet_bind; [quiet_step|intros sorted].
  apply quiet_bind; [apply quiet_forEach; intros a; unfold promote; quiet_step|].
  intros _. apply quiet_bind; [|intros; apply quiet_ret].
  apply quiet_filter_by. intros a.
  apply quiet_bind; [apply has_version_quiet|intros; apply quiet_ret].
Qed.

Lemma dissect_sync_quiet : quiet _dissect.
Proof.
  unfold _dissect. repeat first [apply prepare_all_quiet | quiet_step].
Qed.

Lemma dissect_quiet replies : quiet (dissect replies).
Proof.
  unfold dissect. apply quiet_bind; [apply dissect_sync_quiet|].
  intros [jobs|]; [|apply quiet_ret].
  intros m e.
  destruct (bind (elections replies jobs []) (fun suitables => finish suitables) m)
    as [[u|e'] m']; discriminate.
Qed.

(** No handler of the scheduler ends with a coded error: the error of
    an election is not thrown to the scheduler, it rejects the promise
    of [resolve()]. *)
Lemma handle_quiet replies ev : quiet (handle replies ev).
Proof.
  destruct ev; simpl.
  - apply quiet_bind; [apply fetched_quiet|intros; apply quiet_ret].
  - apply nextStep_quiet.
  - unfold settled. quiet_step.
  - apply onFetchError_quiet.
  - apply pending_ready_quiet.
  - apply dissect_quiet.
  - unfold failFastTimer. apply quiet_bind; [quiet_step|intros; apply dissect_quiet].
Qed.
End QuietFacts.

(** ** The conflict error *)

Section ConflictError.
Context `{SemverLib} `{Env}.

End ConflictError.


(** ** [_uniquify] *)

Section UniquifyFacts.
Context (m : manager).

Lemma opt_str_eqb_eq a b : opt_str_eqb a b = true <-> a = b.
Proof.
  destruct a as [x|], b as [y|]; simpl; split; intros E; try congruence.
  - apply String.eqb_eq in E. congruence.
  - injection E as ->. apply String.eqb_refl.
Qed.

Lemma same_package_refl e : same_package e e = true.
Proof.
  unfold same_package. destruct (negb _ && negb _).
  - apply String.eqb_refl.
  - apply opt_str_eqb_eq. reflexivity.
Qed.

Lemma same_package_trans e1 e2 e3 :
  same_package e1 e2 = true -> same_package e2 e3 = true -> same_package e1 e3 = true.
Proof.
  unfold same_package.
  destruct (truthy_opt (Endpoint.name e1)) eqn:T1,
           (truthy_opt (Endpoint.name e2)) eqn:T2,
           (truthy_opt (Endpoint.name e3)) eqn:T3; simpl;
    rewrite ?opt_str_eqb_eq, ?String.eqb_eq; intros A B; try congruence.
Qed.

Lemma same_package_sym e1 e2 : same_package e1 e2 = same_package e2 e1.
Proof.
  unfold same_package. rewrite (andb_comm (negb (truthy_opt (Endpoint.name e1)))).
  destruct (negb _ && negb _).
  - apply String.eqb_sym.
  - destruct (Endpoint.name e1), (Endpoint.name e2); simpl; auto using String.eqb_sym.
Qed.

Lemma shadowed_by_refl a : shadowed_by m a a = true.
Proof. unfold shadowed_by. rewrite Nat.eqb_refl. reflexivity. Qed.

(** The test of the filter, read as "[a] and [b] stand for the same
    request": the same package and the same target. *)
Lemma shadowed_by_spec a b :
  shadowed_by m a b = true <->
  same_package (deref m b) (deref m a) = true /\
  Endpoint.target (deref m b) = Endpoint.target (deref m a).
Proof.
  unfold shadowed_by. rewrite orb_true_iff, andb_true_iff, String.eqb_eq, Nat.eqb_eq.
  split; [|tauto]. intros [->|E]; [|exact E].
  split; [apply same_package_refl|reflexivity].
Qed.

Lemma shadowed_by_trans a b c :
  shadowed_by m a b = true -> shadowed_by m b c = true -> shadowed_by m a c = true.
Proof.
  rewrite !shadowed_by_spec. intros [A1 A2] [B1 B2]. split; [|congruence].
  apply (same_package_trans _ (deref m b)); assumption.
Qed.

Lemma uniquify_in a l : In a (_uniquify m l) -> In a l.
Proof.
  induction l as [|x l IH]; simpl; [auto|].
  destruct (existsb (shadowed_by m x) l); simpl; intuition.
Qed.

Lemma uniquify_sublist l : sublist (_uniquify m l) l.
Proof.
  induction l as [|x l IH]; simpl; [constructor|].
  destruct (existsb (shadowed_by m x) l); [apply sublist_cons|apply sublist_skip]; exact IH.
Qed.

Lemma uniquify_covers l a :
  In a l -> exists b, In b (_uniquify m l) /\ shadowed_by m a b = true.
Proof.
  revert a. induction l as [|x l IH]; intros a; simpl; [intros []|].
  intros [->|Hin].
  - destruct (existsb (shadowed_by m a) l) eqn:E.
    + apply existsb_exists in E as (c & Hc & Hs).
      destruct (IH c Hc) as (b & Hb & Hcb). exists b. split; [exact Hb|].
      apply (shadowed_by_trans _ c); assumption.
    + exists a. split; [left; reflexivity|apply shadowed_by_refl].
  - destruct (IH a Hin) as (b & Hb & Hs). exists b. split; [|exact Hs].
    destruct (existsb (shadowed_by m x) l); [exact Hb|right; exact Hb].
Qed.

Lemma uniquify_distinct l :
  ForallOrdPairs (fun a b => shadowed_by m a b = false) (_uniquify m l).
Proof.
  induction l as [|x l IH]; simpl; [constructor|].
  destruct (existsb (shadowed_by m x) l) eqn:E; [exact IH|].
  constructor; [|exact IH].
  apply Forall_forall. intros b Hb. apply uniquify_in in Hb.
  destruct (shadowed_by m x b) eqn:S; [|reflexivity].
  assert (existsb (shadowed_by m x) l = true)
    by (apply existsb_exists; exists b; auto).
  congruence.
Qed.

Lemma uniquify_last l z : _uniquify m (l ++ [z]) = _uniquify m l ++ [z] \/
  exists u, _uniquify m (l ++ [z]) = u ++ [z].
Proof.
  induction l as [|x l IH]; simpl; [left; reflexivity|].
  right. destruct IH as [E|[u E]]; rewrite E;
    destruct (existsb _ _); eauto; eexists (x :: _); reflexivity.
Qed.

(** X1: [_uniquify] returns a sublist of its input in which every
    element of the input is still represented, by itself or by a later
    element that is the same object or the same package at the same
    target; no element kept is represented by a later one kept, and the
    last element of the input is always kept. *)
Theorem uniquify_keeps_last_of_each l :
  sublist (_uniquify m l) l /\
  (forall a, In a l ->
     exists b, In b (_uniquify m l) /\ shadowed_by m a b = true) /\
  ForallOrdPairs (fun a b => shadowed_by m a b = false) (_uniquify m l) /\
  (forall front z, l = front ++ [z] -> exists u, _uniquify m l = u ++ [z]).
Proof.
  split; [apply uniquify_sublist|].
  split; [intros a; apply uniquify_covers|].
  split; [apply uniquify_distinct|].
  intros front z ->. destruct (uniquify_last front z) as [E|E]; eauto.
Qed.

Lemma uniquify_fixed l :
  ForallOrdPairs (fun a b => shadowed_by m a b = false) l -> _uniquify m l = l.
Proof.
  induction 1 as [|x l Hx Hl IH]; simpl; [reflexivity|].
  rewrite IH.
  assert (E : existsb (shadowed_by m x) l = false).
  { apply not_true_is_false. intros E. apply existsb_exists in E as (b & Hb & Hs).
    rewrite Forall_forall in Hx. rewrite (Hx b Hb) in Hs. discriminate. }
  rewrite E. reflexivity.
Qed.

(** X2: [_uniquify] is idempotent: a list it returned is returned
    unchanged. *)
Theorem uniquify_idempotent l : _uniquify m (_uniquify m l) = _uniquify m l.
Proof. apply uniquify_fixed. apply uniquify_distinct. Qed.
End UniquifyFacts.

(** ** [_getCap] *)

Section CapFacts.
Context `{SemverLib}.
Context (side : string) (vs : list string).
Hypothesis strict : orders_strictly (cap_compare side) vs = true.

Lemma strict_irrefl a : In a vs -> cap_compare side a a = false.
Proof.
  intros Ha. unfold orders_strictly in strict.
  apply andb_true_iff in strict as [I _].
  rewrite forallb_forall in I. apply negb_true_iff. apply I. exact Ha.
Qed.

Lemma strict_triple a b c :
  In a vs -> In b vs -> In c vs ->
  (cap_compare side a b = true -> cap_compare side b c = true -> cap_compare side a c = true) /\
  (cap_compare side a c = true -> cap_compare side a b = true \/ cap_compare side b c = true).
Proof.
  intros Ha Hb Hc. unfold orders_strictly in strict.
  apply andb_true_iff in strict as [_ T].
  rewrite forallb_forall in T. specialize (T a Ha).
  rewrite forallb_forall in T. specialize (T b Hb).
  rewrite forallb_forall in T. specialize (T c Hc).
  apply andb_true_iff in T as [T1 T2].
  split.
  - intros A B. rewrite A, B in T1. exact T1.
  - intros A. rewrite A in T2. simpl in T2. apply orb_true_iff. exact T2.
Qed.

Lemma version_at_nonempty v : version_at v = true -> truthy v = true.
Proof. destruct v; [discriminate|reflexivity]. Qed.

Lemma split_version_at s p v : split_version s = Some (p, v) -> version_at v = true.
Proof.
  revert p. induction s as [|c s IH]; intros p; simpl.
  - intros E. vm_compute in E. discriminate.
  - destruct (version_at (String c s)) eqn:V.
    + intros E. injection E as <- <-. exact V.
    + destruct (split_version s) as [[p' v']|]; [|discriminate].
      intros E. injection E as <- <-. apply (IH p'). reflexivity.
Qed.

Lemma match_comparator_truthy s p v :
  match_comparator s = Some (p, v) -> truthy v = true.
Proof.
  intros E. apply version_at_nonempty. apply (split_version_at _ _ _ E).
Qed.

Lemma cap_of_replaced seen group acc candidate v :
  incl (map snd (seen ++ group)) vs ->
  cap_of side seen acc -> cap_of side group candidate ->
  cap_version candidate = Some v ->
  forall b, cap_replaces side (Some v) acc = Ret b ->
  cap_of side (seen ++ group) (if b then candidate else acc).
Proof.
  intros Hvs Hacc Hcand Hv b R.
  unfold cap_of in Hcand. rewrite Hv in Hcand. destruct Hcand as (Tv & (p & Hp & Hin) & Hmax).
  assert (Vin : In v vs).
  { apply Hvs. rewrite map_app. apply in_or_app. right.
    apply (in_map snd) in Hin. exact Hin. }
  unfold cap_replaces in R. unfold cap_of in Hacc.
  destruct (cap_version acc) as [cv|] eqn:Ecv.
  - destruct Hacc as (Tcv & (q & Hq & Hqin) & Hseen). rewrite Tcv in R.
    injection R as <-.
    assert (CVin : In cv vs).
    { apply Hvs. rewrite map_app. apply in_or_app. left.
      apply (in_map snd) in Hqin. exact Hqin. }
    destruct (cap_compare side v cv) eqn:A; unfold cap_of.
    + rewrite Hv. split; [exact Tv|]. split.
      { exists p. split; [exact Hp|]. apply in_or_app. right. exact Hin. }
      intros w Hw. rewrite map_app in Hw. apply in_app_or in Hw as [Hw|Hw].
      * destruct (cap_compare side w v) eqn:W; [|reflexivity].
        assert (Win : In w vs) by (apply Hvs; rewrite map_app; apply in_or_app; auto).
        destruct (strict_triple w v cv Win Vin CVin) as [T _].
        rewrite (Hseen w Hw) in T. symmetry. apply T; [exact W|exact A].
      * apply Hmax. exact Hw.
    + rewrite Ecv. split; [exact Tcv|]. split.
      { exists q. split; [exact Hq|]. apply in_or_app. left. exact Hqin. }
      intros w Hw. rewrite map_app in Hw. apply in_app_or in Hw as [Hw|Hw].
      * apply Hseen. exact Hw.
      * destruct (cap_compare side w cv) eqn:W; [|reflexivity].
        assert (Win : In w vs) by (apply Hvs; rewrite map_app; apply in_or_app; auto).
        destruct (strict_triple w v cv Win Vin CVin) as [_ T].
        destruct (T W) as [X|X]; [rewrite (Hmax w Hw) in X|rewrite A in X];
          discriminate.
  - destruct Hacc as [-> ->]. injection R as <-. simpl.
    unfold cap_of. rewrite Hv. split; [exact Tv|]. split; [eauto|exact Hmax].
Qed.

Lemma cap_of_each :
  forall c seen acc acc',
    incl (map snd (seen ++ caps_of c)) vs ->
    cap_of side seen acc ->
    getCap_each side c acc = Ret acc' ->
    cap_of side (seen ++ caps_of c) acc'.
Proof.
  fix IH 1. intros [s|l] seen acc acc' Hvs Hacc.
  - simpl in *. destruct (match_comparator s) as [[p v]|] eqn:E.
    + destruct (cap_replaces side (Some v) acc) as [b|e] eqn:R; [|destruct e; discriminate].
      assert (Hc : cap_of side [(p, v)] {| cap_version := Some v; cap_comparator := Some p |}).
      { unfold cap_of. simpl. split; [apply (match_comparator_truthy _ _ _ E)|].
        split; [exists p; auto|]. intros w [<-|[]]. apply strict_irrefl.
        apply Hvs. rewrite map_app. apply in_or_app. right. left. reflexivity. }
      pose proof (cap_of_replaced seen [(p, v)] acc _ v Hvs Hacc Hc eq_refl b R) as G.
      destruct b; intros X; injection X as <-; exact G.
    + intros X. injection X as <-. rewrite app_nil_r. exact Hacc.
  - rewrite getCap_each_array. change (caps_of (CArr l)) with (caps_in l) in *.
    assert (L : forall seen acc acc',
              incl (map snd (seen ++ caps_in l)) vs ->
              cap_of side seen acc -> getCap_from side l acc = Ret acc' ->
              cap_of side (seen ++ caps_in l) acc').
    { clear seen acc acc' Hvs Hacc.
      induction l as [|x l IHl]; intros seen acc acc' Hvs Hacc; simpl.
      - intros X. injection X as <-. unfold caps_in. simpl. rewrite app_nil_r. exact Hacc.
      - destruct (getCap_each side x acc) as [a'|e] eqn:X; [|discriminate].
        unfold caps_in in *. simpl in *. rewrite app_assoc in *.
        intros F. apply (IHl _ a'); [exact Hvs| |exact F].
        apply (IH x seen acc a'); [|exact Hacc|exact X].
        intros w Hw. apply Hvs. rewrite map_app. apply in_or_app. left. exact Hw. }
    destruct (getCap_from side l empty_cap) as [candidate|e] eqn:F; [|discriminate].
    assert (Hc : cap_of side (caps_in l) candidate).
    { apply (L [] empty_cap candidate); [|split; reflexivity|exact F].
      intros w Hw. apply Hvs. rewrite map_app. apply in_or_app. right. exact Hw. }
    destruct (cap_version candidate) as [v|] eqn:Ev.
    + destruct (cap_replaces side (Some v) acc) as [b|e] eqn:R; [|discriminate].
      pose proof (cap_of_replaced seen (caps_in l) acc candidate v Hvs Hacc Hc Ev b R) as G.
      destruct b; intros X; injection X as <-; exact G.
    + unfold cap_of in Hc. rewrite Ev in Hc. destruct Hc as [-> ->].
      rewrite app_nil_r.
      unfold cap_replaces. unfold cap_of in Hacc.
      destruct (cap_version acc) as [cv|] eqn:Ecv.
      * destruct Hacc as (Tcv & _). rewrite Tcv. discriminate.
      * destruct Hacc as [-> ->]. intros X. injection X as <-. split; reflexivity.
Qed.

Lemma cap_of_from l :
  forall seen acc acc',
    incl (map snd (seen ++ caps_in l)) vs ->
    cap_of side seen acc -> getCap_from side l acc = Ret acc' ->
    cap_of side (seen ++ caps_in l) acc'.
Proof.
  induction l as [|x l IHl]; intros seen acc acc' Hvs Hacc; simpl.
  - intros X. injection X as <-. unfold caps_in. simpl. rewrite app_nil_r. exact Hacc.
  - destruct (getCap_each side x acc) as [a'|e] eqn:X; [|discriminate].
    unfold caps_in in *. simpl in *. rewrite app_assoc in *.
    intros F. apply (IHl _ a'); [exact Hvs| |exact F].
    apply (cap_of_each x seen acc a'); [|exact Hacc|exact X].
    intros w Hw. apply Hvs. rewrite map_app. apply in_or_app. left. exact Hw.
Qed.
End CapFacts.

(** X3: when the comparison [_getCap] uses for the side asked is a
    strict weak order on the versions its pattern matches in the tree, the
    cap returned is the empty one if nothing matches; otherwise it is one
    of the matches, comparator and version, and no matched version is
    above its version. *)
Theorem getCap_extreme `{SemverLib} comparators side c :
  orders_strictly (cap_compare side) (map snd (caps_in comparators)) = true ->
  _getCap comparators side = Ret c ->
  match cap_version c with
  | None => caps_in comparators = [] /\ c = empty_cap
  | Some v =>
      (exists p, cap_comparator c = Some p /\ In (p, v) (caps_in comparators)) /\
      forall w, In w (map snd (caps_in comparators)) -> cap_compare side w v = false
  end.
Proof.
  intros S G.
  pose proof (cap_of_from side _ S comparators [] empty_cap c) as P.
  simpl in P. specialize (P (fun w Hw => Hw) (conj eq_refl eq_refl) G).
  unfold cap_of in P. destruct (cap_version c); [|exact P].
  destruct P as (_ & A & B). split; assumption.
Qed.

(** The highest cap of a range given as two bounds and a third bound. *)
Lemma getCap_extreme_witness :
  let comparators := [CArr [CStr ">=2.1.1-0"; CStr "<2.2.0-0"]; CStr "<3.2.0"] in
  let c := {| cap_version := Some "3.2.0"; cap_comparator := Some "<" |} in
  _getCap comparators "highest" = Ret c /\
  (exists p, cap_comparator c = Some p /\ In (p, "3.2.0") (caps_in comparators)) /\
  forall w, In w (map snd (caps_in comparators)) -> cap_compare "highest" w "3.2.0" = false.
Proof.
  cbv zeta. split; [reflexivity|].
  exact (getCap_extreme
           [CArr [CStr ">=2.1.1-0"; CStr "<2.2.0-0"]; CStr "<3.2.0"] "highest"
           {| cap_version := Some "3.2.0"; cap_comparator := Some "<" |}
           eq_refl eq_refl).
Defined.

(** ** [configure] *)

Section ConfigureFacts.
Context `{Env}.

Lemma deref_update a f m b :
  deref (update a f m) b =
  if ((a =? b) && (a <? length (heap m)))%nat then f (deref m a) else deref m b.
Proof.
  unfold deref, update. cbn [heap with_heap].
  destruct (Nat.eqb_spec a b) as [<-|Hne]; simpl.
  - destruct (Nat.ltb_spec a (length (heap m))) as [Hlt|Hge].
    + rewrite list_lookup_insert_eq by exact Hlt. reflexivity.
    + rewrite list_insert_ge by exact Hge. reflexivity.
  - rewrite list_lookup_insert_ne by exact Hne. reflexivity.
Qed.

Lemma length_update a f m : length (heap (update a f m)) = length (heap m).
Proof. unfold update. cbn [heap with_heap]. apply length_insert. Qed.

Lemma deref_out_of_bounds m a :
  length (heap m) <= a -> deref m a = Endpoint.fresh None "" "".
Proof.
  intros Ha. unfold deref. rewrite lookup_ge_None_2 by exact Ha. reflexivity.
Qed.

Lemma same_requests_refl m : same_requests m m.
Proof. split; [reflexivity|]. intros a. repeat split. Qed.

Lemma same_requests_trans m1 m2 m3 :
  same_requests m1 m2 -> same_requests m2 m3 -> same_requests m1 m3.
Proof.
  intros [L1 A] [L2 B]. split; [congruence|]. intros a.
  destruct (A a) as (? & ? & ? & ?), (B a) as (? & ? & ? & ?).
  repeat split; congruence.
Qed.

Lemma same_requests_update a f m :
  (forall e, Endpoint.name (f e) = Endpoint.name e /\
             Endpoint.source (f e) = Endpoint.source e /\
             Endpoint.target (f e) = Endpoint.target e /\
             Endpoint.newly (f e) = Endpoint.newly e) ->
  same_requests (update a f m) m.
Proof.
  intros Hf. split; [apply length_update|]. intros b. rewrite deref_update.
  destruct ((a =? b) && (a <? length (heap m)))%nat eqn:E; [|repeat split].
  apply andb_true_iff in E as [E _]. apply Nat.eqb_eq in E as <-. apply Hf.
Qed.

Lemma same_requests_heap m1 m2 :
  heap m1 = heap m2 -> same_requests m1 m2.
Proof.
  intros E. split; [congruence|]. intros a. unfold deref. rewrite E. repeat split.
Qed.

Lemma shadowed_by_ext m1 m2 a b :
  same_requests m1 m2 -> shadowed_by m1 a b = shadowed_by m2 a b.
Proof.
  intros [_ S]. unfold shadowed_by, same_package.
  destruct (S a) as (-> & -> & -> & _), (S b) as (-> & -> & -> & _). reflexivity.
Qed.

Lemma uniquify_ext m1 m2 l :
  same_requests m1 m2 -> _uniquify m1 l = _uniquify m2 l.
Proof.
  intros S. induction l as [|a l IH]; simpl; [reflexivity|].
  rewrite IH.
  assert (E : existsb (shadowed_by m1 a) l = existsb (shadowed_by m2 a) l).
  { clear IH. induction l as [|b l IH]; simpl; [reflexivity|].
    rewrite IH, (shadowed_by_ext m1 m2 a b S). reflexivity. }
  rewrite E. reflexivity.
Qed.

(** *** The loop over the targets *)

Lemma configure_target_heap m th t :
  exists h th',
    configure_target (m, th) t = (with_heap h m, th') /\
    same_requests (with_heap h m) m /\
    (forall b, b <> t -> deref (with_heap h m) b = deref m b) /\
    Endpoint.initialName (deref (with_heap h m) t) = Endpoint.name (deref m t) /\
    Endpoint.unresolvable (deref (with_heap h m) t) = Endpoint.newly (deref m t).
Proof.
  unfold configure_target. cbv zeta.
  set (m1 := update t (fun e => with_initialName (Endpoint.name e) e) m).
  set (guid := getGuid (deref m1 t) None).
  set (m2 := update t (Endpoint.with__guid (Some guid)) m1).
  set (m3 := update t (fun e => Endpoint.with_unresolvable (Endpoint.newly e) e) m2).
  exists (heap m3), (JsObj.set (Guid.id guid) true th).
  assert (E : with_heap (heap m3) m = m3) by reflexivity.
  rewrite E. split; [reflexivity|].
  assert (S1 : same_requests m1 m) by (apply same_requests_update; intros e; repeat split).
  assert (S2 : same_requests m2 m1) by (apply same_requests_update; intros e; repeat split).
  assert (S3 : same_requests m3 m2) by (apply same_requests_update; intros e; repeat split).
  split; [exact (same_requests_trans _ _ _ S3 (same_requests_trans _ _ _ S2 S1))|].
  split.
  { intros b Hb. unfold m3, m2, m1. rewrite !deref_update.
    destruct (Nat.eqb_spec t b); [congruence|reflexivity]. }
  unfold m3, m2, m1. rewrite !deref_update, !length_update, Nat.eqb_refl. simpl.
  destruct (Nat.ltb_spec t (length (heap m))) as [Hlt|Hge]; [split; reflexivity|].
  rewrite (deref_out_of_bounds m t Hge). split; reflexivity.
Qed.

Lemma configure_targets_loop l : forall m th,
  exists h th',
    fold_left configure_target l (m, th) = (with_heap h m, th') /\
    same_requests (with_heap h m) m /\
    forall t, In t l ->
      Endpoint.initialName (deref (with_heap h m) t) = Endpoint.name (deref m t) /\
      Endpoint.unresolvable (deref (with_heap h m) t) = Endpoint.newly (deref m t).
Proof.
  induction l as [|u l IH]; intros m th; cbn [fold_left].
  - exists (heap m), th. split; [destruct m; reflexivity|].
    split; [apply same_requests_heap; reflexivity|]. intros t [].
  - destruct (configure_target_heap m th u) as (h1 & th1 & E1 & S1 & O1 & I1 & U1).
    rewrite E1.
    destruct (IH (with_heap h1 m) th1) as (h & th' & E & S & F).
    exists h, th'. change (with_heap h (with_heap h1 m)) with (with_heap h m) in *.
    split; [exact E|]. split; [exact (same_requests_trans _ _ _ S S1)|].
    intros t [<-|Hin].
    + destruct (in_dec Nat.eq_dec u l) as [Hu|Hu].
      * destruct (F u Hu) as [A B]. destruct S1 as [_ S1].
        destruct (S1 u) as (N & _ & _ & W). rewrite A, B, N, W. split; reflexivity.
      * (* not met again: the rest of the loop leaves it alone *)
        assert (K : forall l' m' th', ~ In u l' ->
                  deref (fst (fold_left configure_target l' (m', th'))) u = deref m' u).
        { clear. induction l' as [|x l' IHl]; intros m' th' Hn; cbn [fold_left];
            [reflexivity|].
          destruct (configure_target_heap m' th' x) as (hx & thx & Ex & _ & Ox & _).
          rewrite Ex. rewrite IHl by (intros ?; apply Hn; right; assumption).
          apply Ox. intros ->. apply Hn. left. reflexivity. }
        specialize (K l (with_heap h1 m) th1 Hu). rewrite E in K. simpl in K.
        rewrite K. split; assumption.
    + destruct (F t Hin) as [A B]. destruct S1 as [_ S1].
      destruct (S1 t) as (N & _ & _ & W). rewrite A, B, N, W. split; reflexivity.
Qed.

(** *** The loop over the incompatibles *)

Lemma same_but_guid_trans m1 m2 m3 :
  same_but_guid m1 m2 -> same_but_guid m2 m3 -> same_but_guid m1 m3.
Proof.
  intros [L1 A] [L2 B]. split; [congruence|]. intros a.
  rewrite (A a) at 1. rewrite (B a). reflexivity.
Qed.

Lemma same_but_guid_heap m1 m2 : heap m1 = heap m2 -> same_but_guid m1 m2.
Proof.
  intros E. split; [congruence|]. intros a. unfold deref. rewrite E.
  destruct (default _ _). reflexivity.
Qed.

Lemma same_but_guid_update a g m :
  same_but_guid (update a (Endpoint.with__guid g) m) m.
Proof.
  split; [apply length_update|]. intros b. rewrite deref_update.
  destruct ((a =? b) && (a <? length (heap m)))%nat eqn:E.
  - apply andb_true_iff in E as [E _]. apply Nat.eqb_eq in E as <-. reflexivity.
  - destruct (deref m b). reflexivity.
Qed.

Lemma same_but_guid_requests m1 m2 : same_but_guid m1 m2 -> same_requests m1 m2.
Proof.
  intros [L A]. split; [exact L|]. intros a. rewrite (A a). repeat split.
Qed.

Lemma filed_ext m1 m2 j :
  heap m1 = heap m2 -> _conflicted m1 = _conflicted m2 ->
  _incompatibles m1 = _incompatibles m2 ->
  filed_incompatible m2 j -> filed_incompatible m1 j.
Proof.
  intros Eh Ec Ei (g & l & A & B & C & D). exists g, l.
  unfold deref. rewrite Eh, Ec, Ei. auto.
Qed.

Lemma configure_incompatible_spec th m j :
  let m' := configure_incompatible th m j in
  same_but_guid m' m /\
  _resolved m' = _resolved m /\
  (_targets m' = _targets m \/ _targets m' = _targets m ++ [j]) /\
  (j < length (heap m) -> filed_incompatible m' j) /\
  (forall k, k <> j -> filed_incompatible m k -> filed_incompatible m' k).
Proof.
  unfold configure_incompatible. cbv zeta.
  set (guid := getGuid (deref m j) None).
  set (m1 := update j (Endpoint.with__guid (Some guid)) m).
  set (rId := Guid.rId guid).
  set (m2 := with__incompatibles
               (JsObj.set rId (default [] (JsObj.get rId (_incompatibles m1)) ++ [j])
                  (_incompatibles m1)) m1).
  set (m3 := with__conflicted (JsObj.set rId true (_conflicted m2)) m2).
  assert (G : same_but_guid m3 m).
  { apply (same_but_guid_trans _ m1); [apply same_but_guid_heap; reflexivity|].
    apply same_but_guid_update. }
  assert (F : j < length (heap m) -> filed_incompatible m3 j).
  { intros Hj. exists guid, (default [] (JsObj.get rId (_incompatibles m1)) ++ [j]).
    split.
    { change (deref m3 j) with (deref m1 j). unfold m1. rewrite deref_update.
      rewrite Nat.eqb_refl. apply Nat.ltb_lt in Hj. rewrite Hj. reflexivity. }
    split; [apply JsObj_get_set_eq|].
    split; [apply JsObj_get_set_eq|].
    apply in_or_app. right. left. reflexivity. }
  assert (P : forall k, k <> j -> filed_incompatible m k -> filed_incompatible m3 k).
  { intros k Hk (g & l & A & B & C & D).
    assert (A' : Endpoint._guid (deref m3 k) = Some g).
    { change (deref m3 k) with (deref m1 k). unfold m1. rewrite deref_update.
      destruct (Nat.eqb_spec j k); [congruence|exact A]. }
    destruct (String.eqb_spec rId (Guid.rId g)) as [E|Hne].
    - exists g, (default [] (JsObj.get rId (_incompatibles m1)) ++ [j]).
      split; [exact A'|]. rewrite <- E.
      split; [apply JsObj_get_set_eq|]. split; [apply JsObj_get_set_eq|].
      apply in_or_app. left.
      change (_incompatibles m1) with (_incompatibles m). rewrite E, C. exact D.
    - exists g, l. split; [exact A'|].
      split; [cbn [_conflicted m3 with__conflicted];
              rewrite JsObj_get_set_ne by exact Hne; exact B|].
      split; [|exact D].
      cbn [_incompatibles m3 with__conflicted m2 with__incompatibles].
      rewrite JsObj_get_set_ne by exact Hne. exact C. }
  destruct (negb _ && negb _).
  - split; [apply (same_but_guid_trans _ m3);
            [apply same_but_guid_heap; reflexivity|exact G]|].
    split; [reflexivity|]. split; [right; reflexivity|].
    split.
    + intros Hj. apply (filed_ext _ m3); try reflexivity. apply F. exact Hj.
    + intros k Hk Hf. apply (filed_ext _ m3); try reflexivity. apply P; assumption.
  - split; [exact G|]. split; [reflexivity|]. split; [left; reflexivity|].
    split; assumption.
Qed.

Lemma configure_incompatibles_loop th l : forall m,
  let m' := fold_left (configure_incompatible th) l m in
  same_but_guid m' m /\
  _resolved m' = _resolved m /\
  (exists pushed, _targets m' = _targets m ++ pushed /\ incl pushed l) /\
  (forall k, ~ In k l -> filed_incompatible m k -> filed_incompatible m' k) /\
  (List.NoDup l -> forall j, In j l -> j < length (heap m) -> filed_incompatible m' j).
Proof.
  induction l as [|x l IH]; intros m; cbn [fold_left]; cbv zeta.
  - split; [apply same_but_guid_heap; reflexivity|]. split; [reflexivity|].
    split; [exists []; split; [symmetry; apply app_nil_r|intros ? []]|].
    split; [auto|]. intros _ j [].
  - destruct (configure_incompatible_spec th m x) as (G1 & R1 & T1 & F1 & P1).
    destruct (IH (configure_incompatible th m x)) as (G & R & (pushed & T & Hp) & P & F).
    split; [exact (same_but_guid_trans _ _ _ G G1)|].
    split; [congruence|].
    split.
    { destruct T1 as [E|E]; rewrite T, E.
      - exists pushed. split; [reflexivity|]. intros a Ha. right. apply Hp. exact Ha.
      - exists (x :: pushed). split; [rewrite <- app_assoc; reflexivity|].
        intros a [<-|Ha]; [left; reflexivity|right; apply Hp; exact Ha]. }
    split.
    { intros k Hk Hf. apply P; [intros ?; apply Hk; right; assumption|].
      apply P1; [intros ->; apply Hk; left; reflexivity|exact Hf]. }
    intros Hnd j Hin Hj. inversion Hnd as [|? ? Hx Hl]; subst.
    destruct Hin as [<-|Hin].
    + apply P; [exact Hx|]. apply F1. exact Hj.
    + apply F; [exact Hl|exact Hin|]. destruct G1 as [L _]. rewrite L. exact Hj.
Qed.

Lemma ForallOrdPairs_impl {A : Type} (R R' : A -> A -> Prop) (l : list A) :
  (forall a b, R a b -> R' a b) -> ForallOrdPairs R l -> ForallOrdPairs R' l.
Proof.
  intros Himp D. induction D as [|a u Ha Hu IH]; constructor; [|exact IH].
  rewrite Forall_forall in *. intros b Hb. apply Himp. apply Ha. exact Hb.
Qed.

Lemma uniquify_nodup m l : List.NoDup (_uniquify m l).
Proof.
  generalize (uniquify_distinct m l). generalize (_uniquify m l) as u.
  intros u D. induction D as [|a u Ha Hu IH]; constructor; [|exact IH].
  intros Hin. rewrite Forall_forall in Ha. specialize (Ha a Hin).
  rewrite shadowed_by_refl in Ha. discriminate.
Qed.

Lemma heap_configure_resolved l : forall m,
  heap (fold_left configure_resolved l m) = heap m.
Proof.
  induction l as [|[rId a] l IH]; intros m; cbn [fold_left]; [reflexivity|].
  rewrite IH. unfold configure_resolved. destruct (Endpoint.pkgMeta _); reflexivity.
Qed.

Lemma heap_configure_installed l : forall m,
  heap (fold_left configure_installed l m) = heap m.
Proof.
  induction l as [|e l IH]; intros m; cbn [fold_left]; [reflexivity|].
  rewrite IH. reflexivity.
Qed.

(** The stages of [configure]. *)
Lemma configure_stages setup m :
  exists m1 h th,
    heap m1 = heap m /\
    fold_left configure_target (Setup.targets setup)
      (with__targets (Setup.targets setup) m1, []) = (with_heap h (with__targets (Setup.targets setup) m1), th) /\
    same_requests (with_heap h m1) m /\
    (forall t, In t (Setup.targets setup) ->
       Endpoint.initialName (deref (with_heap h m1) t) = Endpoint.name (deref m t) /\
       Endpoint.unresolvable (deref (with_heap h m1) t) = Endpoint.newly (deref m t)) /\
    let m2 := with__incompatibles [] (with_heap h (with__targets (Setup.targets setup) m1)) in
    let m3 := fold_left (configure_incompatible th)
                (_uniquify m (Setup.incompatibles setup)) m2 in
    configure setup m =
    with__forceLatest (Setup.forceLatest setup)
      (with__targets (_uniquify m (_targets m3))
         (with__resolutions (Setup.resolutions setup) m3)).
Proof.
  set (m1 := fold_left configure_installed (Setup.installed setup)
               (fold_left configure_resolved (Setup.resolved setup)
                  (with__renamed [] (with__installed [] (with__resolved []
                     (with__conflicted [] m)))))).
  assert (H1 : heap m1 = heap m).
  { unfold m1. rewrite heap_configure_installed, heap_configure_resolved. reflexivity. }
  destruct (configure_targets_loop (Setup.targets setup)
              (with__targets (Setup.targets setup) m1) [])
    as (h & th & E & S & F).
  exists m1, h, th. split; [exact H1|]. split; [exact E|].
  assert (S' : same_requests (with_heap h m1) m).
  { apply (same_requests_trans _ (with__targets (Setup.targets setup) m1)).
    - exact S.
    - apply same_requests_heap. exact H1. }
  split; [exact S'|].
  split.
  { intros t Ht. destruct (F t Ht) as [A B].
    change (deref (with_heap h (with__targets (Setup.targets setup) m1)) t)
      with (deref (with_heap h m1) t) in A, B.
    change (deref (with__targets (Setup.targets setup) m1) t) with (deref m1 t) in A, B.
    unfold deref in A, B |- *. rewrite H1 in A, B. split; assumption. }
  cbv zeta. unfold configure. cbv zeta. fold m1.
  match goal with
  | |- context [fold_left configure_target ?l ?s] =>
      replace (fold_left configure_target l s)
        with (with_heap h (with__targets (Setup.targets setup) m1), th)
        by (symmetry; exact E)
  end.
  set (m2 := with__incompatibles [] (with_heap h (with__targets (Setup.targets setup) m1))).
  assert (U : _uniquify m2 (Setup.incompatibles setup)
              = _uniquify m (Setup.incompatibles setup)).
  { apply uniquify_ext. apply (same_requests_trans _ (with_heap h m1)); [|exact S'].
    apply same_requests_heap. reflexivity. }
  rewrite U.
  set (m3 := fold_left (configure_incompatible th)
               (_uniquify m (Setup.incompatibles setup)) m2).
  assert (U3 : forall l, _uniquify (with__resolutions (Setup.resolutions setup) m3) l
                         = _uniquify m l).
  { intros l. apply uniquify_ext.
    apply (same_requests_trans _ m3); [apply same_requests_heap; reflexivity|].
    apply (same_requests_trans _ m2).
    - apply same_but_guid_requests.
      apply (configure_incompatibles_loop th _ m2).
    - apply (same_requests_trans _ (with_heap h m1)); [|exact S'].
      apply same_requests_heap. reflexivity. }
  rewrite U3. reflexivity.
Qed.

(** X4: after [configure], every endpoint of the deduplicated
    [setup.incompatibles] carries its identity tuple, is queued under its
    package in [_incompatibles], and its package is marked in
    [_conflicted]. *)
Theorem configure_files_incompatibles setup m j :
  In j (_uniquify m (Setup.incompatibles setup)) ->
  j < length (heap m) ->
  filed_incompatible (configure setup m) j.
Proof.
  intros Hin Hj.
  destruct (configure_stages setup m) as (m1 & h & th & H1 & E & S & F & C).
  cbv zeta in C. rewrite C.
  set (m2 := with__incompatibles [] (with_heap h (with__targets (Setup.targets setup) m1))) in *.
  destruct (configure_incompatibles_loop th (_uniquify m (Setup.incompatibles setup)) m2)
    as (_ & _ & _ & _ & L).
  eapply filed_ext; [reflexivity|reflexivity|reflexivity|].
  apply L; [apply uniquify_nodup|exact Hin|].
  destruct S as [Len _]. change (length (heap m2)) with (length (heap (with_heap h m1))).
  rewrite Len. exact Hj.
Qed.

(** X5: after [configure], every target of the setup is represented
    in [_targets], no target kept is represented by a later one, every
    target kept comes from the targets or the incompatibles of the setup,
    and each target of the setup has its name saved as [initialName] and
    is unresolvable exactly when it is marked [newly]. *)
Theorem configure_targets setup m :
  let m' := configure setup m in
  (forall t, In t (Setup.targets setup) ->
     exists u, In u (_targets m') /\ shadowed_by m t u = true) /\
  ForallOrdPairs (fun a b => shadowed_by m' a b = false) (_targets m') /\
  incl (_targets m') (Setup.targets setup ++ Setup.incompatibles setup) /\
  (forall t, In t (Setup.targets setup) ->
     Endpoint.initialName (deref m' t) = Endpoint.name (deref m t) /\
     Endpoint.unresolvable (deref m' t) = Endpoint.newly (deref m t)).
Proof.
  destruct (configure_stages setup m) as (m1 & h & th & H1 & E & S & F & C).
  cbv zeta in C |- *. rewrite C.
  set (m2 := with__incompatibles [] (with_heap h (with__targets (Setup.targets setup) m1))) in *.
  set (m3 := fold_left (configure_incompatible th)
               (_uniquify m (Setup.incompatibles setup)) m2) in *.
  destruct (configure_incompatibles_loop th (_uniquify m (Setup.incompatibles setup)) m2)
    as (G & _ & (pushed & T & Hp) & _ & _).
  fold m3 in G, T.
  change (_targets m2) with (Setup.targets setup) in T.
  cbn [_targets with__forceLatest with__targets].
  assert (S3 : same_requests m3 m).
  { apply (same_requests_trans _ m2); [apply same_but_guid_requests; exact G|].
    apply (same_requests_trans _ (with_heap h m1)); [|exact S].
    apply same_requests_heap. reflexivity. }
  split.
  { intros t Ht. apply uniquify_covers. rewrite T. apply in_or_app. left. exact Ht. }
  split.
  { assert (X : forall a b,
              shadowed_by (with__forceLatest (Setup.forceLatest setup)
                 (with__targets (_uniquify m (_targets m3))
                    (with__resolutions (Setup.resolutions setup) m3))) a b
              = shadowed_by m a b).
    { intros a b. apply shadowed_by_ext.
      apply (same_requests_trans _ m3); [apply same_requests_heap; reflexivity|exact S3]. }
    apply (ForallOrdPairs_impl (fun a b => shadowed_by m a b = false));
      [|apply uniquify_distinct].
    intros a b Hab. rewrite X. exact Hab. }
  split.
  { intros a Ha. apply uniquify_in in Ha. rewrite T in Ha.
    apply in_or_app. apply in_app_or in Ha as [Ha|Ha]; [left; exact Ha|right].
    apply (uniquify_in m). apply Hp. exact Ha. }
  intros t Ht. destruct (F t Ht) as [A B].
  destruct G as [_ G].
  change (deref (with__forceLatest (Setup.forceLatest setup)
            (with__targets (_uniquify m (_targets m3))
               (with__resolutions (Setup.resolutions setup) m3))) t)
    with (deref m3 t).
  rewrite (G t). change (deref m2 t) with (deref (with_heap h m1) t).
  cbn [Endpoint.initialName Endpoint.unresolvable Endpoint.with__guid].
  split; assumption.
Qed.
End ConfigureFacts.

(** A setup with one target and one incompatible of the same package. *)
Lemma configure_files_incompatibles_witness :
  In 1 (_uniquify Examples.two_requests (Setup.incompatibles Examples.one_incompatible)) /\
  1 < length (heap Examples.two_requests) /\
  filed_incompatible (configure Examples.one_incompatible Examples.two_requests) 1.
Proof.
  assert (A : In 1 (_uniquify Examples.two_requests
                      (Setup.incompatibles Examples.one_incompatible)))
    by (left; reflexivity).
  assert (B : 1 < length (heap Examples.two_requests)) by (simpl; lia).
  split; [exact A|]. split; [exact B|].
  exact (configure_files_incompatibles Examples.one_incompatible
           Examples.two_requests 1 A B).
Defined.

(** ** The start of a run *)

Section ResolveFacts.
Context `{SemverLib} `{Env}.

Lemma in_fetching_push fId t m a :
  in_fetching
    (with__fetching
       (JsObj.set fId (default [] (JsObj.get fId (_fetching m)) ++ [t]) (_fetching m)) m) a
  <-> in_fetching m a \/ a = t.
Proof.
  unfold in_fetching. cbn [_fetching with__fetching]. split.
  - intros (k & l & G & Hin). destruct (String.eqb_spec fId k) as [<-|Hne].
    + rewrite JsObj_get_set_eq in G. injection G as <-.
      apply in_app_or in Hin as [Hin|[<-|[]]]; [left|right; reflexivity].
      destruct (JsObj.get fId (_fetching m)) as [old|] eqn:E; [|destruct Hin].
      exists fId, old. auto.
    + rewrite JsObj_get_set_ne in G by exact Hne. left. exists k, l. auto.
  - intros [(k & l & G & Hin)| ->].
    + destruct (String.eqb_spec fId k) as [<-|Hne].
      * exists fId. eexists. split; [apply JsObj_get_set_eq|].
        rewrite G. apply in_or_app. left. exact Hin.
      * exists k, l. rewrite JsObj_get_set_ne by exact Hne. auto.
    + exists fId. eexists. split; [apply JsObj_get_set_eq|].
      apply in_or_app. right. left. reflexivity.
Qed.

(** What one call of [_fetch] does while the run has not failed. *)
Lemma fetch_effect t m :
  _hasFailed m = false ->
  let m' := run (_fetch t) m in
  fst (_fetch t m) = Ret (Some (promises m)) /\
  _hasFailed m' = false /\ _failed m' = _failed m /\ _deferred m' = _deferred m /\
  _nrFetching m' = incr (_nrFetching m) /\
  repo_fetches m' = repo_fetches m ++ [RepoFetch t] /\
  trace m' = trace m ++ [RepoFetch t] /\
  promises m' = S (promises m) /\
  (forall a, in_fetching m' a <-> in_fetching m a \/ a = t).
Proof.
  intros Hf. unfold run, _fetch. rewrite Hf. cbv zeta. cbn [fst snd].
  split; [reflexivity|]. split; [exact Hf|]. split; [reflexivity|].
  split; [reflexivity|]. split; [reflexivity|].
  split.
  { unfold repo_fetches, emit, update. cbn [trace with_trace with_heap with_promises
      with__nrFetching with__fetching]. rewrite List.filter_app. reflexivity. }
  split; [reflexivity|]. split; [reflexivity|].
  intros a.
  set (guid := getGuid (deref m t) None).
  rewrite <- (in_fetching_push (Guid.fId guid) t m a).
  unfold in_fetching. reflexivity.
Qed.

Lemma fetch_each_effect targets : forall m,
  _hasFailed m = false ->
  let m' := run (forEach (fun t => bind (_fetch t) (fun _ => ret tt)) targets) m in
  _hasFailed m' = false /\ _failed m' = _failed m /\ _deferred m' = _deferred m /\
  _nrFetching m' =
    match _nrFetching m with
    | Finite n => Finite (n + Z.of_nat (length targets))
    | Infinity => Infinity
    end /\
  trace m' = trace m ++ map RepoFetch targets /\
  (forall a, in_fetching m' a <-> in_fetching m a \/ In a targets).
Proof.
  induction targets as [|t l IH]; intros m Hf; cbn [forEach].
  - unfold run, ret. cbn [snd]. split; [exact Hf|]. split; [reflexivity|].
    split; [reflexivity|].
    split; [destruct (_nrFetching m); [f_equal; simpl; lia|reflexivity]|].
    split; [symmetry; apply app_nil_r|]. intros a. simpl. tauto.
  - destruct (fetch_effect t m Hf) as (R & A & B & C & D & _ & T & _ & F).
    cbv zeta in *.
    assert (E : run (bind (bind (_fetch t) (fun _ => ret tt))
                       (fun _ => forEach (fun t => bind (_fetch t) (fun _ => ret tt)) l)) m
                = run (forEach (fun t => bind (_fetch t) (fun _ => ret tt)) l)
                      (run (_fetch t) m)).
    { unfold run at 1 3. unfold bind at 1 2.
      destruct (_fetch t m) as [[p|e] m1]; [reflexivity|discriminate R]. }
    rewrite E. clear E.
    destruct (IH (run (_fetch t) m) A) as (A' & B' & C' & D' & T' & F').
    cbv zeta in *.
    split; [exact A'|]. split; [congruence|]. split; [congruence|].
    split.
    { rewrite D', D. destruct (_nrFetching m); simpl; [f_equal; lia|reflexivity]. }
    split; [rewrite T', T, <- app_assoc; reflexivity|].
    intros a. rewrite F', F. simpl. intuition.
Qed.

(** X6: on a manager that is not working, [resolve()] starts a run:
    the failure state is reset, the promise is pending, one fetch is
    issued per target in the order of [_targets] (a deferred [_dissect]
    when there is none), [_nrFetching] counts the targets and the
    endpoints in the fetching table are exactly the targets. *)
Theorem resolve_fetches_targets m :
  _working m = false ->
  let m' := snd (resolve m) in
  fst (resolve m) = Started /\
  _hasFailed m' = false /\ _failed m' = [] /\ _deferred m' = Some Pending /\
  _nrFetching m' = Finite (Z.of_nat (length (_targets m))) /\
  trace m' =
    trace m ++ match _targets m with
               | [] => [NextTickDissect]
               | targets => map RepoFetch targets
               end /\
  (forall a, in_fetching m' a <-> In a (_targets m)).
Proof.
  intros Hw. unfold resolve. rewrite Hw. cbv zeta.
  cbn [_targets with__deferred with__hasFailed with__failed
       with__nrFetching with__fetching].
  set (m0 := with__deferred (Some Pending)
               (with__hasFailed false
                  (with__failed [] (with__nrFetching (Finite 0) (with__fetching [] m))))).
  destruct (_targets m) as [|t l] eqn:Et.
  - cbn [fst snd]. repeat split; try reflexivity.
    + intros (k & l & G & _). discriminate G.
    + intros [].
  - cbn [fst snd]. split; [reflexivity|].
    destruct (fetch_each_effect (t :: l) m0 eq_refl) as (A & B & C & D & T & F).
    cbv zeta in *. split; [exact A|]. split; [exact B|]. split; [exact C|].
    split; [exact D|]. split; [exact T|].
    intros a. rewrite F. split; [intros [(k & x & G & _)|X]; [discriminate G|exact X]|].
    intros X. right. exact X.
Qed.
End ResolveFacts.

(** The start of a run on two targets. *)
Lemma resolve_fetches_targets_witness :
  let m := Examples.two_targets in
  let m' := snd (resolve m) in
  _working m = false /\
  fst (resolve m) = Started /\
  _hasFailed m' = false /\ _failed m' = [] /\ _deferred m' = Some Pending /\
  _nrFetching m' = Finite 2 /\
  trace m' = [RepoFetch 0; RepoFetch 1] /\
  (forall a, in_fetching m' a <-> In a [0; 1]).
Proof.
  cbv zeta. split; [reflexivity|].
  exact (resolve_fetches_targets Examples.two_targets eq_refl).
Defined.

(** ** Failed runs *)

(** A property is kept by every handler as soon as it is kept by the
    writes of the fetching machinery, by the error handler and by the
    dissection. *)
Section HandlerFrame.
Context `{SemverLib} `{Env}.
Context (I : manager -> Prop).

Hypothesis I_update : forall a f m, I m -> I (update a f m).
Hypothesis I_alloc : forall e m, I m -> I (with_heap (heap m ++ [e]) m).
Hypothesis I_resolved : forall v m, I m -> I (with__resolved v m).
Hypothesis I_renamed : forall v m, I m -> I (with__renamed v m).
Hypothesis I_pendingDep : forall v m,
  _pendingDep m <> None -> I m -> I (with__pendingDep v m).
Hypothesis I_incompatibles : forall v m, I m -> I (with__incompatibles v m).
Hypothesis I_emit : forall x m,
  is_repo_fetch x = false -> x <> SetFailFastTimeout -> I m -> I (emit x m).
Hypothesis I_nrFetching : forall v m, I m -> I (with__nrFetching v m).
Hypothesis I_fetching : forall v m, I m -> I (with__fetching v m).
Hypothesis I_fetch : forall a, preserves I (_fetch a).
Hypothesis I_onFetchError : forall a err, preserves I (_onFetchError a err).
Hypothesis I_dissect : forall replies, preserves I (dissect replies).

Lemma handler_nextStep fr oldName newName : preserves I (nextStep fr oldName newName).
Proof.
  apply (frame_nextStep I (fun _ => True)); auto.
Qed.

Lemma handler_fetched a dir meta targetable :
  preserves I (fetched a dir meta targetable).
Proof.
  intros m Hm. unfold fetched.
  assert (S : preserves I (_onFetchSuccess a dir meta targetable)).
  { apply (frame_onFetchSuccess I (fun _ => True)); auto. }
  specialize (S m Hm).
  destruct (_onFetchSuccess a dir meta targetable m) as [[s|err] m'];
    cbn [snd] in *; [exact S|].
  pose proof (I_onFetchError a err m' S) as E.
  destruct (_onFetchError a err m') as [[u|e] m'']; exact E.
Qed.

Lemma handler_pending_ready id : preserves I (pending_ready id).
Proof.
  apply (frame_pending_ready I (fun _ => True)); auto.
Qed.

Lemma handler_handle replies ev : preserves I (handle replies ev).
Proof.
  destruct ev; cbn [handle].
  - apply preserves_bind; [apply handler_fetched|intros; apply preserves_ret].
  - apply handler_nextStep.
  - unfold settled. apply preserves_modify. intros m Hm. apply I_update. exact Hm.
  - apply I_onFetchError.
  - apply handler_pending_ready.
  - apply I_dissect.
  - unfold failFastTimer. apply preserves_bind; [|intros; apply I_dissect].
    apply preserves_modify. intros m Hm. apply I_nrFetching. exact Hm.
Qed.

Lemma handler_run_events replies evs m : I m -> I (run_events replies evs m).
Proof.
  revert m. induction evs as [|ev evs IH]; intros m Hm; simpl; [exact Hm|].
  apply IH. apply handler_handle. exact Hm.
Qed.
End HandlerFrame.

Section FailureFacts.
Context `{SemverLib} `{Env}.

Lemma first_error_push rId e err m :
  first_error m = Some err ->
  first_error
    (with__failed
       (JsObj.set rId (default [] (JsObj.get rId (_failed m)) ++ [e]) (_failed m)) m)
  = Some err.
Proof.
  unfold first_error. cbn [_failed with__failed].
  destruct (_failed m) as [|[k [|x xs]] rest]; simpl; try discriminate.
  intros E. destruct (String.eqb rId k); simpl; exact E.
Qed.

(** What [_onFetchError] leaves in [_hasFailed] and [_failed]. *)
Lemma onFetchError_failed a e m :
  let m' := run (_onFetchError a e) m in
  _hasFailed m' = true /\
  (_failed m = [] -> first_error m' = Some e) /\
  (forall err, first_error m = Some err -> first_error m' = Some err).
Proof.
  cbv zeta. split; [apply onFetchError_sets_hasFailed|].
  set (guid := getGuid (deref m a) None).
  assert (E : _failed (run (_onFetchError a e) m)
              = JsObj.set (Guid.rId guid)
                  (default [] (JsObj.get (Guid.rId guid) (_failed m)) ++ [e])
                  (_failed m)).
  { unfold run, _onFetchError, bind, gets, modify, ret, _failFast. simpl.
    destruct (JsObj.get _ (_fetching m)); simpl;
      destruct (_hasFailed m); simpl; destruct (none_left _); reflexivity. }
  split.
  - intros F. unfold first_error. rewrite E, F. reflexivity.
  - intros err F. unfold first_error. rewrite E.
    apply (first_error_push (Guid.rId guid) e err m F).
Qed.

Lemma dissect_when_failed err m :
  _hasFailed m = true -> first_error m = Some err ->
  _dissect m =
  (Ret None,
   settle (Rejected err) (emit ClearFailFastTimeout (with__failFastTimeout false m))).
Proof.
  intros Hf Fe. unfold _dissect, bind, gets, modify. cbn [fst snd]. rewrite Hf.
  unfold first_error in Fe. cbn [_failed emit with_trace with__failFastTimeout].
  destruct (JsObj.values (_failed m)) as [|[|x xs] rest]; try discriminate.
  injection Fe as ->. reflexivity.
Qed.

Lemma first_error_kept err replies ev :
  preserves (fun m => _hasFailed m = true /\ first_error m = Some err)
            (handle replies ev).
Proof.
  apply handler_handle; try (intros; assumption).
  - intros a m Hm. rewrite fetch_when_failed; [exact Hm|apply Hm].
  - intros a e m [Hf Fe]. destruct (onFetchError_failed a e m) as (A & _ & B).
    split; [exact A|apply B; exact Fe].
  - intros rs. apply frame_dissect; try (intros; assumption).
Qed.


(** *** The fail-fast timer *)

Lemma timers_emit x m : x <> SetFailFastTimeout -> timers (emit x m) = timers m.
Proof.
  intros Hx. unfold timers, emit. cbn [trace with_trace].
  rewrite List.filter_app, length_app.
  destruct x; simpl; try lia. congruence.
Qed.

Lemma fetch_timers a m :
  _hasFailed (snd (_fetch a m)) = _hasFailed m /\
  timers (snd (_fetch a m)) = timers m.
Proof.
  unfold _fetch. destruct (_hasFailed m) eqn:E; cbn [snd]; [auto|].
  split; [exact E|]. rewrite timers_emit by discriminate. reflexivity.
Qed.

Lemma onFetchError_timers a e m :
  _hasFailed (snd (_onFetchError a e m)) = true /\
  timers (snd (_onFetchError a e m)) = timers m + (if _hasFailed m then 0 else 1).
Proof.
  unfold _onFetchError, bind, gets, modify, ret, _failFast, timers. simpl.
  destruct (JsObj.get _ (_fetching m)); simpl;
    destruct (_hasFailed m) eqn:E; simpl; destruct (none_left _); simpl;
    rewrite ?List.filter_app, ?length_app; simpl; rewrite ?E; split; auto; lia.
Qed.

Lemma timers_kept m0 replies ev :
  preserves (fun m =>
               (_hasFailed m0 = true -> _hasFailed m = true) /\
               timers m + (if _hasFailed m0 then 1 else 0)
               = timers m0 + (if _hasFailed m then 1 else 0))
            (handle replies ev).
Proof.
  apply handler_handle; try (intros; assumption).
  - intros x m _ Hx [A B]. split; [exact A|]. rewrite timers_emit by exact Hx. exact B.
  - intros a m [A B]. destruct (fetch_timers a m) as [-> ->]. auto.
  - intros a e m [A B]. destruct (onFetchError_timers a e m) as [E1 E2].
    split; [auto|]. rewrite E1, E2. destruct (_hasFailed m); lia.
  - intros rs. apply frame_dissect; try (intros; assumption).
    intros x m _ Hx [A B]. split; [exact A|]. rewrite timers_emit by exact Hx. exact B.
Qed.

Lemma timers_run m0 replies evs : forall m,
  (_hasFailed m0 = true -> _hasFailed m = true) /\
  timers m + (if _hasFailed m0 then 1 else 0)
  = timers m0 + (if _hasFailed m then 1 else 0) ->
  (_hasFailed m0 = true -> _hasFailed (run_events replies evs m) = true) /\
  timers (run_events replies evs m) + (if _hasFailed m0 then 1 else 0)
  = timers m0 + (if _hasFailed (run_events replies evs m) then 1 else 0).
Proof.
  induction evs as [|ev evs IH]; intros m G; simpl; [exact G|].
  apply IH. apply (timers_kept m0 replies ev m G).
Qed.

(** X8: over any sequence of events the fail-fast timer is armed at
    most once, and exactly when the run goes from not failed to
    failed. *)
Theorem failFast_timer_once replies evs m :
  let m' := run_events replies evs m in
  timers m' = timers m + (if negb (_hasFailed m) && _hasFailed m' then 1 else 0).
Proof.
  cbv zeta.
  destruct (timers_run m replies evs m) as [K1 K2]; [split; auto|].
  destruct (_hasFailed m) eqn:E.
  - rewrite (K1 eq_refl) in *. simpl. lia.
  - simpl. destruct (_hasFailed (run_events replies evs m)); simpl in *; lia.
Qed.

(** *** What a failed run leaves alone *)

Lemma failed_run_kept d r c replies ev :
  preserves (fun m =>
               _hasFailed m = true /\ _dissected m = d /\ _resolutions m = r /\
               _conflicted m = c /\ _deferred m <> Some Resolved)
            (handle replies ev).
Proof.
  apply handler_handle; try (intros; assumption).
  - intros a m Hm. rewrite fetch_when_failed; [exact Hm|apply Hm].
  - intros a e. apply frame_onFetchError; try (intros; assumption).
    intros m Hm. rewrite failFast_when_failed; [exact Hm|apply Hm].
  - intros rs m (A & B & C & D & E).
    assert (X : exists m', _dissect m = (Throw (TypeError
                  "Cannot read property '0' of undefined"), m') /\
                  _hasFailed m' = true /\ _dissected m' = d /\ _resolutions m' = r /\
                  _conflicted m' = c /\ _deferred m' <> Some Resolved
                \/ _dissect m = (Ret None, m') /\
                  _hasFailed m' = true /\ _dissected m' = d /\ _resolutions m' = r /\
                  _conflicted m' = c /\ _deferred m' <> Some Resolved).
    { unfold _dissect, bind, gets, modify, throw, ret. cbn [fst snd]. rewrite A.
      cbn [_failed emit with_trace with__failFastTimeout].
      destruct (JsObj.values (_failed m)) as [|[|x xs] rest];
        eexists; try (left; split; [reflexivity|]; repeat split; assumption).
      right. split; [reflexivity|]. unfold settle.
      cbn [_deferred emit with_trace with__failFastTimeout].
      destruct (_deferred m) as [[| |]|] eqn:Ed; repeat split; try assumption;
        cbn [_deferred emit with_trace with__failFastTimeout with__deferred];
        rewrite ?Ed; congruence. }
    destruct X as (m' & [[Eq X]|[Eq X]]);
      (assert (S : snd (dissect rs m) = m')
         by (unfold dissect, bind; rewrite Eq; reflexivity));
      rewrite S; exact X.

Qed.

Lemma failed_run_events d r c replies evs : forall m,
  _hasFailed m = true /\ _dissected m = d /\ _resolutions m = r /\
  _conflicted m = c /\ _deferred m <> Some Resolved ->
  let m' := run_events replies evs m in
  _hasFailed m' = true /\ _dissected m' = d /\ _resolutions m' = r /\
  _conflicted m' = c /\ _deferred m' <> Some Resolved.
Proof.
  induction evs as [|ev evs IH]; intros m G; simpl; [exact G|].
  apply IH. apply (failed_run_kept d r c replies ev m G).
Qed.


(** *** [_pendingDep] *)

Lemma pendingDep_kept replies ev :
  preserves (fun m => _pendingDep m = None) (handle replies ev).
Proof.
  apply (frame_handle _ (fun _ => True));
    try (intros; assumption); try (intros; exact Logic.I).
  - intros e m Hm. split; [exact Logic.I|exact Hm].
  - intros v m Hn Hm. contradiction.
  - intros a _ m Hm. unfold _fetch. destruct (_hasFailed m); exact Hm.
  - intros m Hm. unfold _failFast. destruct (_hasFailed m); exact Hm.
Qed.
End FailureFacts.



(** ** [_pendingDep] in a run *)

Section PendingFacts.
Context `{SemverLib} `{Env}.

Lemma fold_left_kept {A S B : Type} (f : S -> A -> S) (p : S -> B) (l : list A) :
  (forall s a, p (f s a) = p s) -> forall s, p (fold_left f l s) = p s.
Proof.
  intros K. induction l as [|a l IH]; intros s; simpl; [reflexivity|].
  rewrite IH. apply K.
Qed.

Lemma pendingDep_configure setup m :
  _pendingDep (configure setup m) = _pendingDep m.
Proof.
  unfold configure.
  destruct (fold_left configure_target (Setup.targets setup) _) as [m1 th] eqn:E.
  cbn [_pendingDep with__forceLatest with__targets with__resolutions].
  rewrite (fold_left_kept (configure_incompatible th) _pendingDep).
  2:{ intros s a. unfold configure_incompatible. cbv zeta.
      match goal with |- context [if ?c then _ else _] => destruct c end; reflexivity. }
  cbn [_pendingDep with__incompatibles].
  change (_pendingDep m1) with (_pendingDep (fst (m1, th))). rewrite <- E.
  rewrite (fold_left_kept configure_target (fun st => _pendingDep (fst st))).
  2:{ intros [s t] a. reflexivity. }
  cbn [fst _pendingDep with__targets].
  rewrite (fold_left_kept configure_installed _pendingDep) by reflexivity.
  rewrite (fold_left_kept configure_resolved _pendingDep).
  2:{ intros s [rId a]. unfold configure_resolved.
      destruct (Endpoint.pkgMeta _); reflexivity. }
  reflexivity.
Qed.

Lemma pendingDep_resolve m :
  _pendingDep m = None -> _pendingDep (snd (resolve m)) = None.
Proof.
  intros P. unfold resolve. destruct (_working m); [exact P|].
  cbv zeta.
  destruct (_targets _) as [|t l] eqn:Et; [exact P|].
  cbn [snd]. unfold run.
  apply (preserves_forEach (fun m => _pendingDep m = None)); [|exact P].
  intros a m' P'. unfold bind, _fetch.
  destruct (_hasFailed m'); exact P'.
Qed.

(** X10: [_pendingDep] is never defined: not by the constructor,
    not by any number of calls of [configure], not by [resolve()] and
    not by any handler of the run. *)
Theorem pendingDep_never_defined (config : Config.t) (dir : string)
  (setups : list Setup.t) (replies : string -> Reply.t) (evs : list event) :
  let m := fold_left (fun m setup => configure setup m) setups (Manager config dir) in
  _pendingDep (run_events replies evs (snd (resolve m))) = None.
Proof.
  cbv zeta. unfold run_events.
  assert (K : forall l m, _pendingDep m = None ->
            _pendingDep (fold_left (fun m ev => run (handle replies ev) m) l m) = None).
  { induction l as [|ev l IH]; intros m P; simpl; [exact P|].
    apply IH. apply pendingDep_kept, P. }
  apply K, pendingDep_resolve.
  rewrite (fold_left_kept (fun m setup => configure setup m) _pendingDep).
  - unfold Manager. rewrite pendingDep_configure. reflexivity.
  - intros s a. apply pendingDep_configure.
Qed.
End PendingFacts.

(** ** Successful dissections *)

Section OutcomeFacts.
Context `{SemverLib} `{Env}.

Lemma JsObj_get_filter_key {V : Type} (p : string -> bool) (k : string) (o : JsObj.t V) :
  JsObj.get k (List.filter (fun kv => p (fst kv)) o)
  = if p k then JsObj.get k o else None.
Proof.
  induction o as [|[k' v] o IH]; simpl; [destruct (p k); reflexivity|].
  destruct (String.eqb_spec k k') as [<-|Hne].
  - destruct (p k) eqn:P; simpl; [rewrite String.eqb_refl; reflexivity|].
    exact IH.
  - destruct (p k'); simpl; [|exact IH].
    destruct (String.eqb_spec k k'); [contradiction|exact IH].
Qed.

Lemma filter_by_incl keep l : forall m r m',
  filter_by keep l m = (Ret r, m') -> incl r l.
Proof.
  induction l as [|a l IH]; intros m r m'; cbn [filter_by].
  - unfold ret. intros E. injection E as <- _. apply incl_refl.
  - unfold bind at 1. destruct (keep a m) as [[b|e] m1]; [|discriminate].
    unfold bind at 1. destruct (filter_by keep l m1) as [[rest|e] m2] eqn:F;
      [|discriminate].
    unfold ret. intros E. injection E as <- _.
    specialize (IH _ _ _ F). destruct b; intros x Hx.
    + destruct Hx as [<-|Hx]; [left; reflexivity|right; apply IH; exact Hx].
    + right. apply IH. exact Hx.
Qed.

Lemma forEach_promote_returns l : forall m, fst (forEach promote l m) = Ret tt.
Proof.
  induction l as [|a l IH]; intros m; cbn [forEach]; [reflexivity|].
  unfold bind, promote at 1, modify at 1. apply IH.
Qed.

(** The candidates of a job are endpoints of the list it was prepared
    from. *)
Lemma prepare_candidates rId l m job m' :
  prepare rId l m = (Ret job, m') ->
  Job.rId job = rId /\ incl (Job.semvers job ++ Job.nonSemvers job) l.
Proof.
  unfold prepare. unfold bind at 1.
  destruct (filter_by has_version l m) as [[semvers|e] m1] eqn:F1; [|discriminate].
  unfold bind at 1, gets at 1. unfold bind at 1.
  pose proof (forEach_promote_returns (js_sort (semver_order m1) semvers) m1) as P.
  destruct (forEach promote (js_sort (semver_order m1) semvers) m1) as [[[]|e] m2];
    [|discriminate].
  unfold bind at 1.
  destruct (filter_by _ l m2) as [[nonSemvers|e] m3] eqn:F2; [|discriminate].
  unfold ret. intros E. injection E as <- _. cbn [Job.rId Job.semvers Job.nonSemvers].
  split; [reflexivity|]. intros x Hx. apply in_app_or in Hx as [Hx|Hx].
  - apply js_sort_in in Hx. apply (filter_by_incl _ _ _ _ _ F1). exact Hx.
  - apply (filter_by_incl _ _ _ _ _ F2). exact Hx.
Qed.

Lemma prepare_all_candidates resolved : forall m jobs m',
  prepare_all resolved m = (Ret jobs, m') ->
  forall job, In job jobs ->
    exists l, In (Job.rId job, l) resolved /\
              incl (Job.semvers job ++ Job.nonSemvers job) l.
Proof.
  induction resolved as [|[rId l] resolved IH]; intros m jobs m'; cbn [prepare_all].
  - unfold ret. intros E. injection E as <- _. intros job Hj. destruct Hj.
  - unfold bind at 1. destruct (prepare rId l m) as [[job0|e] m1] eqn:P; [|discriminate].
    unfold bind at 1. destruct (prepare_all resolved m1) as [[jobs0|e] m2] eqn:Q;
      [|discriminate].
    unfold ret. intros E. injection E as <- _.
    intros job [<-|Hin].
    + destruct (prepare_candidates _ _ _ _ _ P) as [-> I].
      exists l. split; [left; reflexivity|exact I].
    + destruct (IH _ _ _ Q job Hin) as (l' & A & B). exists l'. split; [right|]; auto.
Qed.

Lemma candidates_in m semvers nonSemvers :
  match candidates m semvers nonSemvers with
  | inl suitable => In suitable (semvers ++ nonSemvers)
  | inr picks => incl picks (semvers ++ nonSemvers)
  end.
Proof.
  assert (F : match find (suits_all m semvers) semvers with
              | Some suitable => inl suitable
              | None => inr semvers
              end = candidates m semvers [] ) by (destruct semvers; reflexivity).
  destruct nonSemvers as [|n [|n' ns]].
  - rewrite <- F, app_nil_r.
    destruct (find (suits_all m semvers) semvers) as [x|] eqn:E.
    + apply find_some in E as [E _]. exact E.
    + apply incl_refl.
  - destruct semvers as [|s ss]; cbn [candidates].
    + left. reflexivity.
    + apply incl_refl.
  - destruct semvers as [|s ss]; cbn [candidates]; apply incl_refl.
Qed.

(** The election elects, or asks about, candidates only. *)
Lemma electSuitable_elects_candidate rId semvers nonSemvers m e m' :
  _electSuitable rId semvers nonSemvers m = (Ret e, m') ->
  match e with
  | Elected suitable => In suitable (semvers ++ nonSemvers)
  | Asking picks => incl picks (semvers ++ nonSemvers)
  end.
Proof.
  rewrite electSuitable_cases. pose proof (candidates_in m semvers nonSemvers) as C.
  destruct (candidates m semvers nonSemvers) as [s|picks].
  - intros E. injection E as <- _. exact C.
  - cbv zeta.
    assert (S : incl (js_sort (pick_order m) picks) (semvers ++ nonSemvers)).
    { intros x Hx. apply C. apply js_sort_in in Hx. exact Hx. }
    destruct (resolution_pick m rId (js_sort (pick_order m) picks)) as [s|] eqn:R.
    + intros E. injection E as <- _. apply S.
      unfold resolution_pick in R.
      destruct (JsObj.get rId (_resolutions m)) as [resolution|]; [|discriminate].
      destruct (truthy resolution && _); [|discriminate].
      destruct (resolution_index m resolution _) as [i|]; [|discriminate].
      apply (list_elem_of_lookup_2 _ i) in R. apply list_elem_of_In. exact R.
    + destruct (_forceLatest m).
      * destruct (js_sort (pick_order m) picks !! _) as [s|] eqn:L; [|discriminate].
        intros E. injection E as <- _. apply S.
        apply (list_elem_of_lookup_2 _ _) in L. apply list_elem_of_In. exact L.
      * destruct (Config.interactive (config m)); [|discriminate].
        intros E. injection E as <- _. exact S.
Qed.

Lemma answered_picks picks reply m a m' :
  answered picks reply m = (Ret (Some a), m') -> In a picks.
Proof.
  unfold answered.
  assert (P : forall p, match Reply.index reply with
                        | Some i => picks !! i
                        | None => None
                        end = Some p -> In p picks).
  { intros p. destruct (Reply.index reply) as [i|]; [|discriminate].
    intros L. apply list_elem_of_lookup_2 in L. apply list_elem_of_In. exact L. }
  destruct (match Reply.index reply with Some i => picks !! i | None => None end)
    as [p|]; destruct (Reply.save reply).
  - unfold bind, _storeResolution, modify, ret. intros E. injection E as <- _.
    apply P. reflexivity.
  - unfold ret. intros E. injection E as <- _. apply P. reflexivity.
  - discriminate.
  - discriminate.
Qed.

(** What the elections elected comes from the candidates of the job
    of that name. *)
Lemma elections_elected replies jobs : forall suitables m result m',
  elections replies jobs suitables m = (Ret result, m') ->
  forall rId a, In (rId, Some a) result ->
    In (rId, Some a) suitables \/
    exists job, In job jobs /\ Job.rId job = rId /\
                In a (Job.semvers job ++ Job.nonSemvers job).
Proof.
  induction jobs as [|job jobs IH]; intros suitables m result m'; cbn [elections].
  - unfold ret. intros E. injection E as <- _. auto.
  - unfold bind at 1.
    destruct (_electSuitable (Job.rId job) (Job.semvers job) (Job.nonSemvers job) m)
      as [[e|err] m1] eqn:El; [|discriminate].
    pose proof (electSuitable_elects_candidate _ _ _ _ _ _ El) as C.
    unfold bind at 1.
    destruct (match e with
              | Elected suitable => ret (Some suitable)
              | Asking picks => answered picks (replies (Job.rId job))
              end m1) as [[s|err] m2] eqn:A; [|discriminate].
    intros E rId a Hin.
    destruct (IH _ _ _ _ E rId a Hin) as [Hs|(j & Hj & Hr & Ha)].
    + apply JsObj_in_set in Hs as [Hs|[-> Hs]]; [left; exact Hs|].
      right. exists job. split; [left; reflexivity|]. split; [reflexivity|].
      destruct e as [suitable|picks].
      * unfold ret in A. injection A as <- _. injection Hs as ->. exact C.
      * subst s. apply C. apply (answered_picks _ _ _ _ _ A).
    + right. exists j. split; [right; exact Hj|]. auto.
Qed.

Lemma dissected_of_spec m suitables d :
  dissected_of m suitables = Ret d ->
  forall rId a, In (rId, a) d ->
    In (rId, Some a) suitables /\ needs_install m rId a = true.
Proof.
  revert d. induction suitables as [|[k [b|]] suitables IH]; intros d; cbn [dissected_of].
  - intros E. injection E as <-. intros rId a [].
  - destruct (dissected_of m suitables) as [d0|e]; [|discriminate].
    intros E. injection E as <-. intros rId a Hin.
    destruct (needs_install m k b) eqn:N.
    + destruct Hin as [E|Hin].
      * injection E as <- <-. split; [left; reflexivity|exact N].
      * destruct (IH d0 eq_refl rId a Hin). split; [right|]; assumption.
    + destruct (IH d0 eq_refl rId a Hin). split; [right|]; assumption.
  - discriminate.
Qed.

Lemma pending_prepare_all resolved :
  preserves (fun m => _deferred m = Some Pending) (prepare_all resolved).
Proof. apply frame_prepare_all; intros; assumption. Qed.

Lemma pending_chain replies jobs :
  preserves (fun m => _deferred m = Some Pending)
            (bind (elections replies jobs []) (fun suitables => finish suitables)).
Proof.
  apply preserves_bind.
  - apply frame_elections; intros; assumption.
  - intros suitables. apply frame_finish; intros; assumption.
Qed.

Lemma dissect_success replies m jobs m1 suitables m2 d :
  _hasFailed m = false ->
  prepare_all (_resolved m) m = (Ret jobs, m1) ->
  elections replies jobs [] m1 = (Ret suitables, m2) ->
  dissected_of
    (with__resolutions
       (List.filter (fun kv => default false (JsObj.get (fst kv) (_conflicted m2)))
          (_resolutions m2)) m2) suitables = Ret d ->
  dissect replies m =
  (Ret tt,
   settle Resolved
     (with__dissected d
        (with__resolutions
           (List.filter (fun kv => default false (JsObj.get (fst kv) (_conflicted m2)))
              (_resolutions m2)) m2))).
Proof.
  intros Hf Prep El Dis. unfold dissect. unfold bind at 1.
  unfold _dissect. unfold bind at 1, gets at 1. rewrite Hf.
  unfold bind at 1, gets at 1. unfold bind at 1. rewrite Prep. unfold ret at 1.
  unfold bind at 1. rewrite El. unfold finish. unfold bind at 1, modify at 1.
  unfold bind at 1. rewrite Dis. reflexivity.
Qed.

Lemma dissect_prepare_throws replies m e m1 :
  _hasFailed m = false ->
  prepare_all (_resolved m) m = (Throw e, m1) ->
  dissect replies m = (Throw e, m1).
Proof.
  intros Hf Prep. unfold dissect. unfold bind at 1.
  unfold _dissect. unfold bind at 1, gets at 1. rewrite Hf.
  unfold bind at 1, gets at 1. unfold bind at 1. rewrite Prep. reflexivity.
Qed.

Lemma dissect_elections_throw replies m jobs m1 e m2 :
  _hasFailed m = false ->
  prepare_all (_resolved m) m = (Ret jobs, m1) ->
  elections replies jobs [] m1 = (Throw e, m2) ->
  dissect replies m = (Ret tt, settle (Rejected e) m2).
Proof.
  intros Hf Prep El. unfold dissect. unfold bind at 1.
  unfold _dissect. unfold bind at 1, gets at 1. rewrite Hf.
  unfold bind at 1, gets at 1. unfold bind at 1. rewrite Prep. unfold ret at 1.
  unfold bind at 1. rewrite El. reflexivity.
Qed.

Lemma dissect_finish_throws replies m jobs m1 suitables m2 e :
  _hasFailed m = false ->
  prepare_all (_resolved m) m = (Ret jobs, m1) ->
  elections replies jobs [] m1 = (Ret suitables, m2) ->
  dissected_of
    (with__resolutions
       (List.filter (fun kv => default false (JsObj.get (fst kv) (_conflicted m2)))
          (_resolutions m2)) m2) suitables = Throw e ->
  dissect replies m =
  (Ret tt,
   settle (Rejected e)
     (with__resolutions
        (List.filter (fun kv => default false (JsObj.get (fst kv) (_conflicted m2)))
           (_resolutions m2)) m2)).
Proof.
  intros Hf Prep El Dis. unfold dissect. unfold bind at 1.
  unfold _dissect. unfold bind at 1, gets at 1. rewrite Hf.
  unfold bind at 1, gets at 1. unfold bind at 1. rewrite Prep. unfold ret at 1.
  unfold bind at 1. rewrite El. unfold finish. unfold bind at 1, modify at 1.
  unfold bind at 1. rewrite Dis. reflexivity.
Qed.

Lemma dissect_fails_rejects replies m :
  _hasFailed m = true -> _deferred m = Some Pending ->
  _deferred (run (dissect replies) m) <> Some Resolved.
Proof.
  intros Hf P. unfold run, dissect. unfold bind at 1.
  unfold _dissect. unfold bind at 1, gets at 1. rewrite Hf.
  unfold bind at 1, modify at 1. unfold bind at 1, gets at 1.
  cbn [_failed emit with_trace with__failFastTimeout].
  destruct (JsObj.values (_failed m)) as [|[|x xs] rest]; unfold throw; cbn [snd].
  - cbn [_deferred emit with_trace with__failFastTimeout]. congruence.
  - cbn [_deferred emit with_trace with__failFastTimeout]. congruence.
  - unfold bind, modify, ret, settle. cbn [snd fst].
    cbn [_deferred emit with_trace with__failFastTimeout with__deferred].
    rewrite P. cbn [_deferred with__deferred]. discriminate.
Qed.

(** A dissection that resolves the promise of the run went through
    every stage. *)
Lemma dissect_resolved replies m :
  _deferred m = Some Pending ->
  _deferred (run (dissect replies) m) = Some Resolved ->
  exists jobs m1 suitables m2 d,
    _hasFailed m = false /\
    prepare_all (_resolved m) m = (Ret jobs, m1) /\
    elections replies jobs [] m1 = (Ret suitables, m2) /\
    dissected_of
      (with__resolutions
         (List.filter (fun kv => default false (JsObj.get (fst kv) (_conflicted m2)))
            (_resolutions m2)) m2) suitables = Ret d /\
    run (dissect replies) m =
    with__deferred (Some Resolved)
      (with__dissected d
         (with__resolutions
            (List.filter (fun kv => default false (JsObj.get (fst kv) (_conflicted m2)))
               (_resolutions m2)) m2)).
Proof.
  intros P R.
  destruct (_hasFailed m) eqn:Hf.
  { exfalso. apply (dissect_fails_rejects replies m Hf P). exact R. }
  pose proof (pending_prepare_all (_resolved m) m P) as P1.
  destruct (prepare_all (_resolved m) m) as [[jobs|e] m1] eqn:Prep; cbn [snd] in P1.
  2:{ exfalso. unfold run in R. rewrite (dissect_prepare_throws _ _ _ _ Hf Prep) in R.
      cbn [snd] in R. congruence. }
  assert (P2 : preserves (fun m => _deferred m = Some Pending)
                 (elections replies jobs []))
    by (apply frame_elections; intros; assumption).
  specialize (P2 m1 P1).
  destruct (elections replies jobs [] m1) as [[suitables|e] m2] eqn:El; cbn [snd] in P2.
  2:{ exfalso. unfold run in R. rewrite (dissect_elections_throw _ _ _ _ _ _ Hf Prep El) in R.
      cbn [snd] in R. unfold settle in R. rewrite P2 in R. discriminate R. }
  destruct (dissected_of
              (with__resolutions
                 (List.filter
                    (fun kv => default false (JsObj.get (fst kv) (_conflicted m2)))
                    (_resolutions m2)) m2) suitables) as [d|e] eqn:Dis.
  2:{ exfalso. unfold run in R.
      rewrite (dissect_finish_throws _ _ _ _ _ _ _ Hf Prep El Dis) in R.
      cbn [snd] in R. unfold settle in R.
      cbn [_deferred with__resolutions] in R. rewrite P2 in R. discriminate R. }
  exists jobs, m1, suitables, m2, d.
  split; [reflexivity|]. split; [reflexivity|]. split; [exact El|].
  split; [exact Dis|].
  unfold run. rewrite (dissect_success replies m jobs m1 suitables m2 d Hf Prep El Dis).
  cbn [snd]. unfold settle.
  cbn [_deferred with__dissected with__resolutions]. rewrite P2. reflexivity.
Qed.

(** X11: when [_dissect] resolves the promise, a resolution is kept
    only for a package that is marked as conflicted. *)
Theorem dissect_sweeps_resolutions replies m rId :
  _deferred m = Some Pending ->
  _deferred (run (dissect replies) m) = Some Resolved ->
  JsObj.get rId (_resolutions (run (dissect replies) m)) <> None ->
  JsObj.get rId (_conflicted (run (dissect replies) m)) = Some true.
Proof.
  intros P R.
  destruct (dissect_resolved replies m P R)
    as (jobs & m1 & suitables & m2 & d & _ & _ & _ & _ & E).
  rewrite E.
  cbn [_resolutions _conflicted with__deferred with__dissected with__resolutions].
  rewrite (JsObj_get_filter_key
             (fun k => default false (JsObj.get k (_conflicted m2)))).
  destruct (JsObj.get rId (_conflicted m2)) as [[|]|]; simpl; congruence.
Qed.

(** X12: when [_dissect] resolves the promise, every endpoint in
    [_dissected] is one of the endpoints that were resolved under that
    package, and is not a linked one. *)
Theorem dissect_installs_elected replies m rId a :
  _deferred m = Some Pending ->
  _deferred (run (dissect replies) m) = Some Resolved ->
  JsObj.get rId (_dissected (run (dissect replies) m)) = Some a ->
  (exists l, In (rId, l) (_resolved m) /\ In a l) /\
  Endpoint.linked (deref (run (dissect replies) m) a) = false.
Proof.
  intros P R.
  destruct (dissect_resolved replies m P R)
    as (jobs & m1 & suitables & m2 & d & _ & Prep & El & Dis & E).
  rewrite E.
  cbn [_dissected with__deferred with__dissected].
  intros G. apply JsObj_get_in in G.
  destruct (dissected_of_spec _ _ _ Dis rId a G) as [S N].
  split.
  - destruct (elections_elected replies jobs [] m1 suitables m2 El rId a S)
      as [[]|(job & Hj & <- & Ha)].
    destruct (prepare_all_candidates _ _ _ _ Prep job Hj) as (l & A & B).
    exists l. split; [exact A|apply B; exact Ha].
  - unfold needs_install in N.
    change (deref (with__deferred _ _) a) with
      (deref (with__resolutions
                (List.filter
                   (fun kv => default false (JsObj.get (fst kv) (_conflicted m2)))
                   (_resolutions m2)) m2) a).
    destruct (Endpoint.linked _); [discriminate|reflexivity].
Qed.
End OutcomeFacts.

(** The stored resolution for [a] is kept: the package is conflicted. *)
Lemma dissect_sweeps_resolutions_witness :
  let m := Examples.forcing_with_resolution in
  let m' := run (dissect Examples.silent) m in
  _deferred m = Some Pending /\
  _deferred m' = Some Resolved /\
  JsObj.get "a" (_resolutions m') <> None /\
  JsObj.get "a" (_conflicted m') = Some true.
Proof.
  cbv zeta.
  assert (A : _deferred Examples.forcing_with_resolution = Some Pending) by reflexivity.
  assert (B : _deferred (run (dissect Examples.silent) Examples.forcing_with_resolution)
              = Some Resolved) by reflexivity.
  assert (C : JsObj.get "a" (_resolutions (run (dissect Examples.silent)
                                             Examples.forcing_with_resolution)) <> None)
    by (vm_compute; discriminate).
  split; [exact A|]. split; [exact B|]. split; [exact C|].
  exact (dissect_sweeps_resolutions Examples.silent Examples.forcing_with_resolution "a"
           A B C).
Defined.

(** With [forceLatest], the second endpoint of [a] is installed. *)
Lemma dissect_installs_elected_witness :
  let m := Examples.forcing in
  let m' := run (dissect Examples.silent) m in
  _deferred m = Some Pending /\
  _deferred m' = Some Resolved /\
  JsObj.get "a" (_dissected m') = Some 1 /\
  (exists l, In ("a", l) (_resolved m) /\ In 1 l) /\
  Endpoint.linked (deref m' 1) = false.
Proof.
  cbv zeta. split; [reflexivity|]. split; [reflexivity|]. split; [reflexivity|].
  exact (dissect_installs_elected Examples.silent Examples.forcing "a" 1
           eq_refl eq_refl eq_refl).
Defined.

(** ** Stored resolutions *)

Section ResolutionFacts.
Context `{SemverLib} `{Env}.

Lemma findIndex_some {A : Type} (p : A -> bool) (l : list A) i :
  findIndex p l = Some i -> exists x, l !! i = Some x /\ p x = true.
Proof.
  revert i. induction l as [|y l IH]; intros i; simpl; [discriminate|].
  destruct (p y) eqn:P.
  - intros E. injection E as <-. exists y. auto.
  - destruct (findIndex p l) as [j|]; [|discriminate].
    intros E. injection E as <-. apply IH. reflexivity.
Qed.

Lemma findIndex_none {A : Type} (p : A -> bool) (l : list A) x :
  findIndex p l = None -> In x l -> p x = false.
Proof.
  induction l as [|y l IH]; simpl; [intros _ []|].
  destruct (p y) eqn:P; [discriminate|].
  destruct (findIndex p l); [discriminate|].
  intros _ [<-|Hin]; auto.
Qed.

Lemma stored_resolution_truthy m pick :
  truthy (Endpoint.target (deref m pick)) = true ->
  truthy (stored_resolution m pick) = true.
Proof.
  intros T. unfold stored_resolution.
  destruct (String.eqb (Endpoint.target (deref m pick)) "*"); [|exact T].
  destruct (Endpoint.release (deref m pick)) as [r|]; simpl; [|reflexivity].
  destruct (truthy r) eqn:R; [exact R|reflexivity].
Qed.

(** The pick a resolution was stored for passes the exact test of that
    resolution. *)
Lemma stored_resolution_matches m pick :
  String.eqb (Endpoint.target (deref m pick)) (stored_resolution m pick)
  || opt_str_eqb (Endpoint.release (deref m pick)) (Some (stored_resolution m pick))
  = true.
Proof.
  unfold stored_resolution.
  destruct (String.eqb_spec (Endpoint.target (deref m pick)) "*") as [E|_].
  - destruct (Endpoint.release (deref m pick)) as [r|]; simpl.
    + destruct (truthy r); simpl.
      * rewrite String.eqb_refl. apply orb_true_r.
      * rewrite E. reflexivity.
    + rewrite E. reflexivity.
  - rewrite String.eqb_refl. reflexivity.
Qed.

Lemma storeResolution_run pick m :
  _storeResolution pick m =
  (Ret tt,
   with__resolutions
     (JsObj.set (resolution_key m pick) (stored_resolution m pick) (_resolutions m)) m).
Proof. reflexivity. Qed.

Lemma resolution_pick_stored m pick picks :
  In pick picks ->
  truthy (Endpoint.target (deref m pick)) = true ->
  existsb (fun p => Endpoint.unresolvable (deref m p)) picks = false ->
  exists chosen,
    resolution_pick (run (_storeResolution pick) m) (resolution_key m pick) picks
    = Some chosen /\ In chosen picks.
Proof.
  intros Hin T U. unfold run. rewrite storeResolution_run. cbn [snd].
  unfold resolution_pick. cbn [_resolutions with__resolutions].
  rewrite JsObj_get_set_eq. rewrite (stored_resolution_truthy m pick T).
  change (deref (with__resolutions _ m)) with (deref m). rewrite U. simpl.
  unfold resolution_index.
  change (deref (with__resolutions _ m)) with (deref m).
  match goal with
  | |- context [if ?b then findIndex ?p picks else None] =>
      destruct (if b then findIndex p picks else None) as [i|] eqn:R
  end.
  - destruct (validRange (stored_resolution m pick)); [|discriminate].
    destruct (findIndex_some _ _ _ R) as (x & L & _).
    exists x. split; [exact L|].
    apply list_elem_of_In. apply (list_elem_of_lookup_2 _ i). exact L.
  - match goal with
    | |- context [findIndex ?p picks] => destruct (findIndex p picks) as [i|] eqn:F
    end.
    + destruct (findIndex_some _ _ _ F) as (x & L & _).
      exists x. split; [exact L|].
      apply list_elem_of_In. apply (list_elem_of_lookup_2 _ i). exact L.
    + pose proof (findIndex_none _ _ pick F Hin) as N. cbv beta in N.
      rewrite stored_resolution_matches in N. discriminate.
Qed.

End ResolutionFacts.


(** ** The order of a report *)

Section ReportOrder.
Context `{Env}.

Lemma str_cmp_refl x : str_cmp x x = 0%Z.
Proof.
  unfold str_cmp. pose proof (String.compare_antisym x x) as A.
  destruct (String.compare x x); simpl in A; try discriminate. reflexivity.
Qed.

Lemma str_cmp_below x y : (str_cmp x y < 0)%Z <-> OrderedTypeEx.String_as_OT.lt x y.
Proof.
  rewrite <- OrderedTypeEx.String_as_OT.cmp_lt. unfold str_cmp.
  change OrderedTypeEx.String_as_OT.cmp with String.compare.
  destruct (String.compare x y); split; intros E; try discriminate; try lia; reflexivity.
Qed.

Lemma str_cmp_coherent (l : list string) : coherent_on str_cmp l = true.
Proof.
  unfold coherent_on. apply andb_true_iff. split.
  - apply forallb_forall. intros x _. rewrite str_cmp_refl. reflexivity.
  - apply forallb_forall. intros x _. apply forallb_forall. intros y _.
    apply forallb_forall. intros z _. unfold coherent_at.
    destruct (str_cmp x y <? 0)%Z eqn:A; [|reflexivity].
    destruct (0 <=? str_cmp z y)%Z eqn:B; [|reflexivity]. simpl.
    apply Z.ltb_lt in A. apply Z.leb_le in B. apply Z.leb_le.
    apply str_cmp_below in A.
    destruct (String.compare z y) eqn:C.
    + apply String.compare_eq_iff in C. subst z.
      assert (X : (str_cmp x y < 0)%Z) by (apply str_cmp_below; exact A).
      unfold str_cmp in *. rewrite (String.compare_antisym y x).
      destruct (String.compare x y); simpl in *; lia.
    + unfold str_cmp in B. rewrite C in B. lia.
    + assert (L : OrderedTypeEx.String_as_OT.lt y z).
      { apply OrderedTypeEx.String_as_OT.cmp_lt. change OrderedTypeEx.String_as_OT.cmp with String.compare.
        rewrite String.compare_antisym, C. reflexivity. }
      pose proof (OrderedTypeEx.String_as_OT.lt_trans _ _ _ A L) as T.
      apply str_cmp_below in T. unfold str_cmp in *.
      rewrite (String.compare_antisym z x).
      destruct (String.compare x z); simpl in *; lia.
Qed.

Lemma js_sort_names_sorted (l : list string) :
  StronglySorted (not_below str_cmp) (js_sort str_cmp l).
Proof.
  apply (js_sort_from_sorted str_cmp l (str_cmp_coherent l)).
  - apply incl_refl.
  - intros x Hx. destruct Hx.
  - constructor.
Qed.

Lemma StronglySorted_filtered {A : Type} (R : A -> A -> Prop) (p : A -> bool) l :
  StronglySorted R l -> StronglySorted R (List.filter p l).
Proof.
  induction 1 as [|x l Hs IH Hx]; simpl; [constructor|].
  destruct (p x); [|exact IH]. constructor; [exact IH|].
  rewrite Forall_forall in *. intros y Hy. apply filter_In in Hy as [Hy _]. auto.
Qed.

(** The names under which the children are reported: those of the
    names given whose endpoint is not skipped, in the order given. *)
Lemma toData_children_names recur skipped dependencies names kids :
  toData_children recur skipped dependencies names = Some kids ->
  map fst kids =
  List.filter
    (fun name =>
       match JsObj.get name dependencies with
       | Some child => negb (skipped child)
       | None => false
       end) names.
Proof.
  revert kids. induction names as [|name names IH]; intros kids; simpl.
  - intros E. injection E as <-. reflexivity.
  - destruct (JsObj.get name dependencies) as [child|]; [|apply IH].
    destruct (skipped child); simpl; [apply IH|].
    destruct (recur child) as [d|]; [|discriminate].
    destruct (toData_children recur skipped dependencies names) as [ds|];
      [|discriminate].
    intros E. injection E as <-. simpl. rewrite (IH ds eq_refl). reflexivity.
Qed.

Lemma JsObj_get_key {V : Type} (k : string) (v : V) (o : JsObj.t V) :
  JsObj.get k o = Some v -> In k (JsObj.keys o).
Proof.
  intros G. apply JsObj_get_in in G. apply (in_map fst) in G. exact G.
Qed.

End ReportOrder.


(** ** The expansion of one dependency *)

Section ExpansionFacts.
Context `{SemverLib} `{Env}.

Lemma deref_with_child_old m key value a :
  a < length (heap m) -> deref (with_child m key value) a = deref m a.
Proof.
  intros Ha. unfold deref, with_child. cbn [heap with_heap].
  rewrite lookup_app_l by exact Ha. reflexivity.
Qed.

Lemma deref_with_child_new m key value :
  deref (with_child m key value) (length (heap m))
  = Endpoint.with__guid (Some (getGuid (child_of m key value) None))
      (child_of m key value).
Proof.
  unfold deref, with_child. cbn [heap with_heap].
  rewrite lookup_app_r by lia. rewrite Nat.sub_diag. reflexivity.
Qed.

Lemma update_new f e m :
  update (length (heap m)) f (with_heap (heap m ++ [e]) m)
  = with_heap (heap m ++ [f e]) m.
Proof.
  unfold update, deref. cbn [heap with_heap].
  rewrite lookup_app_r by lia. rewrite Nat.sub_diag. cbn [lookup list_lookup default].
  rewrite insert_app_r_alt by lia. rewrite Nat.sub_diag. reflexivity.
Qed.

Lemma deref_new e m : deref (with_heap (heap m ++ [e]) m) (length (heap m)) = e.
Proof.
  unfold deref. cbn [heap with_heap].
  rewrite lookup_app_r by lia. rewrite Nat.sub_diag. reflexivity.
Qed.

(** The first steps of the callback, whatever follows them. *)
Lemma parse_prefix {B : Type} key value n s t (k : addr -> Guid.t -> M B) m :
  json2decomposed key value = (n, s, t) ->
  bind (fun m => let (c, m') := alloc (Endpoint.fresh (Some n) s t) m in (Ret c, m'))
    (fun child =>
     bind (gets (fun m => JsObj.get n (_renamed m)))
       (fun renamed =>
        bind (if truthy_opt renamed
              then modify (update child
                             (fun e => Endpoint.with_name renamed
                                         (Endpoint.with__oldName (Some n) e)))
              else ret tt)
          (fun _ =>
           bind (gets (fun m => getGuid (deref m child) None))
             (fun guid =>
              bind (modify (update child (Endpoint.with__guid (Some guid))))
                (fun _ => k child guid))))) m
  = k (length (heap m)) (getGuid (child_of m key value) None) (with_child m key value).
Proof.
  intros J. unfold with_child, child_of. rewrite J.
  unfold bind at 1. unfold alloc. cbn [fst snd].
  unfold bind at 1, gets at 1. cbn [_renamed with_heap].
  unfold bind at 1.
  destruct (truthy_opt (JsObj.get n (_renamed m))).
  - unfold modify at 1. rewrite update_new.
    unfold bind at 1, gets at 1. rewrite deref_new.
    unfold bind at 1, modify at 1. rewrite update_new. reflexivity.
  - unfold ret at 1.
    unfold bind at 1, gets at 1. rewrite deref_new.
    unfold bind at 1, modify at 1. rewrite update_new. reflexivity.
Qed.

Lemma target_child_of m key value :
  Endpoint.target (child_of m key value) = snd (json2decomposed key value).
Proof.
  unfold child_of. destruct (json2decomposed key value) as [[n s] t].
  destruct (truthy_opt _); reflexivity.
Qed.

(** X15: when a dependency is not resolved yet and the first
    endpoint being fetched under its fetch id has the same target and a
    promise, [_parseDependencies] throws a [TypeError] on the read of
    [_pendingDep], which is not defined, after it has built the child
    endpoint. *)
Theorem parseDependency_awaits_throws a pkgMeta jsonKey key value m c rest p :
  let child := child_of m key value in
  let guid := getGuid child None in
  JsObj.get (Guid.rId guid) (_resolved m) = None ->
  JsObj.get (Guid.fId guid) (_fetching m) = Some (c :: rest) ->
  c < length (heap m) ->
  Endpoint.target (deref m c) = Endpoint.target child ->
  Endpoint.promise (deref m c) = Some p ->
  _pendingDep m = None ->
  parseDependency a pkgMeta jsonKey key value m
  = (Throw (TypeError "Cannot read property of undefined"), with_child m key value).
Proof.
  cbv zeta. intros R F Hc Tc Pc Pd.
  unfold parseDependency. destruct (json2decomposed key value) as [[n s] t] eqn:J.
  rewrite (parse_prefix key value n s t _ m J).
  unfold bind at 1, gets at 1.
  change (_resolved (with_child m key value)) with (_resolved m). rewrite R.
  unfold bind at 1, gets at 1.
  change (_fetching (with_child m key value)) with (_fetching m). rewrite F.
  unfold bind at 1. cbn [find_throwing].
  rewrite deref_with_child_new, (deref_with_child_old m key value c Hc).
  unfold _areCompatible at 1. cbn [Endpoint.target Endpoint.with__guid].
  rewrite Tc, String.eqb_refl.
  unfold bind at 1, gets at 1.
  rewrite (deref_with_child_old m key value c Hc), Pc.
  unfold bind at 1, gets at 1. unfold bind at 1, gets at 1.
  change (_pendingDep (with_child m key value)) with (_pendingDep m). rewrite Pd.
  reflexivity.
Qed.

Lemma find_ext_in {A : Type} (p q : A -> bool) (l : list A) :
  (forall x, In x l -> p x = q x) -> find p l = find q l.
Proof.
  induction l as [|x l IH]; intros E; simpl; [reflexivity|].
  rewrite (E x) by (left; reflexivity).
  destruct (q x); [reflexivity|]. apply IH. intros y Hy. apply E. right. exact Hy.
Qed.

Lemma existsb_ext_in {A : Type} (p q : A -> bool) (l : list A) :
  (forall x, In x l -> p x = q x) -> existsb p l = existsb q l.
Proof.
  induction l as [|x l IH]; intros E; simpl; [reflexivity|].
  rewrite (E x) by (left; reflexivity). f_equal.
  apply IH. intros y Hy. apply E. right. exact Hy.
Qed.

Lemma length_with_child m key value :
  length (heap (with_child m key value)) = S (length (heap m)).
Proof. unfold with_child. cbn [heap with_heap]. rewrite length_app. simpl. lia. Qed.

(** X16: a dependency whose package is resolved at exactly the
    target asked is linked to that endpoint: nothing is fetched, the
    tables of the run stay as they are, the parent has the endpoint under
    the key of the dependency and is among its dependants. *)
Theorem parseDependency_reuses_resolved a pkgMeta jsonKey key value m l c :
  let child := child_of m key value in
  JsObj.get (Guid.rId (getGuid child None)) (_resolved m) = Some l ->
  Forall (fun r => r < length (heap m)) l ->
  find (fun r => String.eqb (Endpoint.target child) (Endpoint.target (deref m r))) l
  = Some c ->
  a < length (heap m) ->
  let m' := run (parseDependency a pkgMeta jsonKey key value) m in
  fst (parseDependency a pkgMeta jsonKey key value m) = Ret tt /\
  trace m' = trace m /\
  _fetching m' = _fetching m /\
  _nrFetching m' = _nrFetching m /\
  _resolved m' = _resolved m /\
  (exists dependencies,
     Endpoint.dependencies (deref m' a) = Some dependencies /\
     JsObj.get key dependencies = Some c) /\
  In a (Endpoint.dependants (deref m' c)).
Proof.
  cbv zeta. intros R V Fi Ha.
  assert (Hc : c < length (heap m)).
  { apply find_some in Fi as [Fi _]. rewrite Forall_forall in V. auto. }
  unfold run.
  destruct (parseDependency a pkgMeta jsonKey key value m) as [r mf] eqn:Eq.
  cbn [fst snd]. revert Eq.
  unfold parseDependency. destruct (json2decomposed key value) as [[n s] t] eqn:J.
  rewrite (parse_prefix key value n s t _ m J).
  set (M := with_child m key value).
  unfold bind at 1, gets at 1. change (_resolved M) with (_resolved m). rewrite R.
  unfold bind at 1, gets at 1.
  assert (E : find (fun r => String.eqb (Endpoint.target (deref M (length (heap m))))
                                        (Endpoint.target (deref M r))) l = Some c).
  { rewrite <- Fi. apply find_ext_in. intros x Hr.
    unfold M. rewrite deref_with_child_new, deref_with_child_old; [reflexivity|].
    rewrite Forall_forall in V. auto. }
  rewrite E.
  unfold bind, modify. cbn [fst snd]. intros Eq. injection Eq as <- <-.
  split; [reflexivity|]. split; [reflexivity|]. split; [reflexivity|].
  split; [reflexivity|]. split; [reflexivity|].
  assert (LM : length (heap M) = S (length (heap m))) by apply length_with_child.
  assert (Da : deref M a = deref m a) by (apply deref_with_child_old; exact Ha).
  assert (Dc : deref M c = deref m c) by (apply deref_with_child_old; exact Hc).
  rewrite !deref_update, !length_update, !Nat.eqb_refl, LM.
  assert (La : (a <? S (length (heap m)))%nat = true) by (apply Nat.ltb_lt; lia).
  assert (Lc : (c <? S (length (heap m)))%nat = true) by (apply Nat.ltb_lt; lia).
  rewrite La, Lc. cbn [andb].
  split.
  - destruct (Nat.eqb_spec c a) as [->|Hne]; cbn [andb].
    + rewrite Nat.eqb_refl. cbn [andb Endpoint.dependencies Endpoint.with_dependants
        Endpoint.with_dependencies].
      eexists. split; [reflexivity|]. apply JsObj_get_set_eq.
    + cbn [Endpoint.dependencies Endpoint.with_dependencies].
      eexists. split; [reflexivity|]. apply JsObj_get_set_eq.
  - cbn [Endpoint.dependants Endpoint.with_dependants].
    match goal with
    | |- In a (_uniquify ?X (?ds ++ [a])) =>
        destruct (uniquify_last X ds a) as [->|[u ->]]
    end; apply in_or_app; right; left; reflexivity.
Qed.

Lemma fetch_heap t m :
  _hasFailed m = false ->
  heap (run (_fetch t) m)
  = heap (update t (Endpoint.with_promise (Some (promises m)))
            (update t (Endpoint.with__guid (Some (getGuid (deref m t) None))) m)).
Proof. intros Hf. unfold run, _fetch. rewrite Hf. reflexivity. Qed.

Lemma fetch_resolved t m : _resolved (snd (_fetch t m)) = _resolved m.
Proof. unfold _fetch. destruct (_hasFailed m); reflexivity. Qed.

Lemma deref_heap m1 m2 a : heap m1 = heap m2 -> deref m1 a = deref m2 a.
Proof. intros E. unfold deref. rewrite E. reflexivity. Qed.

End ExpansionFacts.

(** A manifest that depends on the target being fetched. *)
Lemma parseDependency_awaits_throws_witness :
  let m := Examples.resolving in
  JsObj.get "repo" (_resolved m) = None /\
  JsObj.get "repo#v1" (_fetching m) = Some [0] /\
  Endpoint.promise (deref m 0) = Some 0 /\
  _pendingDep m = None /\
  parseDependency 0 (Examples.manifest "repo" None) "dependencies" "repo" "v1" m
  = (Throw (TypeError "Cannot read property of undefined"), with_child m "repo" "v1").
Proof.
  cbv zeta. split; [reflexivity|]. split; [reflexivity|]. split; [reflexivity|].
  split; [reflexivity|].
  assert (B : 0 < length (heap Examples.resolving)) by (simpl; lia).
  exact (parseDependency_awaits_throws 0 (Examples.manifest "repo" None) "dependencies"
           "repo" "v1" Examples.resolving 0 [] 0 eq_refl eq_refl B eq_refl eq_refl eq_refl).
Defined.

(** A dependency on [a] at the target of the second resolved endpoint. *)
Lemma parseDependency_reuses_resolved_witness :
  let m := Examples.conflicting in
  let m' := run (parseDependency 0 (Examples.manifest "a" None) "dependencies"
                   "a" "~2.0.0") m in
  JsObj.get "a" (_resolved m) = Some [0; 1] /\
  fst (parseDependency 0 (Examples.manifest "a" None) "dependencies" "a" "~2.0.0" m)
  = Ret tt /\
  trace m' = trace m /\
  _fetching m' = _fetching m /\
  _nrFetching m' = _nrFetching m /\
  _resolved m' = _resolved m /\
  (exists dependencies,
     Endpoint.dependencies (deref m' 0) = Some dependencies /\
     JsObj.get "a" dependencies = Some 1) /\
  In 0 (Endpoint.dependants (deref m' 1)).
Proof.
  cbv zeta. split; [reflexivity|].
  assert (V : Forall (fun r => r < length (heap Examples.conflicting)) [0; 1])
    by (repeat constructor; simpl; lia).
  assert (B : 0 < length (heap Examples.conflicting)) by (simpl; lia).
  exact (parseDependency_reuses_resolved 0 (Examples.manifest "a" None) "dependencies"
           "a" "~2.0.0" Examples.conflicting [0; 1] 1 eq_refl V eq_refl B).
Defined.


(** ** The base resolver *)

Section ResolverFacts.
Context `{Host}.
Import Resolver.

Lemma relative_at_spec (s : string) :
  relative_at s = true <->
  exists dots c rest,
    s = dots +:+ String c rest /\ is_separator c = true /\
    (dots = "" \/ dots = "." \/ dots = "..").
Proof.
  split.
  - destruct s as [|c s1]; [discriminate|]. simpl.
    destruct (is_separator c) eqn:Sc.
    { intros _. exists "", c, s1. auto. }
    destruct (Ascii.eqb c ".") eqn:Dc; [|discriminate].
    apply Ascii.eqb_eq in Dc. subst c.
    destruct s1 as [|c1 s2]; [discriminate|].
    destruct (is_separator c1) eqn:Sc1.
    { intros _. exists ".", c1, s2. auto. }
    destruct (Ascii.eqb c1 ".") eqn:Dc1; [|discriminate].
    apply Ascii.eqb_eq in Dc1. subst c1.
    destruct s2 as [|c2 s3]; [discriminate|].
    intros Sc2. exists "..", c2, s3. auto.
  - intros (dots & c & rest & -> & Sc & [-> | [-> | ->]]); simpl.
    + rewrite Sc. reflexivity.
    + rewrite Sc. reflexivity.
    + rewrite Sc. reflexivity.
Qed.

Lemma strip_spec (p s rest : string) :
  strip p s = Some rest <-> s = p +:+ rest.
Proof.
  revert s. induction p as [|c p IH]; intros s; simpl.
  - split; [intros [= ->]; reflexivity | intros ->; reflexivity].
  - destruct s as [|d s']; [split; discriminate|].
    destruct (Ascii.eqb c d) eqn:E.
    + apply Ascii.eqb_eq in E. subst d. rewrite IH.
      split; [intros ->; reflexivity | intros [= ->]; reflexivity].
    + split; [discriminate|]. intros [= -> _].
      rewrite Ascii.eqb_refl in E. discriminate.
Qed.

Lemma after_file_spec (s rest : string) :
  after_file s = Some rest <->
  exists c1 c2, is_separator c1 = true /\ is_separator c2 = true /\
    s = "file:" +:+ String c1 (String c2 rest).
Proof.
  unfold after_file. split.
  - destruct (strip "file:" s) as [[|c1 [|c2 r]]|] eqn:E; try discriminate.
    destruct (is_separator c1) eqn:S1; [|discriminate].
    destruct (is_separator c2) eqn:S2; [|discriminate].
    intros [= ->]. apply strip_spec in E. exists c1, c2. auto.
  - intros (c1 & c2 & S1 & S2 & ->).
    replace (strip "file:" ("file:" +:+ String c1 (String c2 rest)))
      with (Some (String c1 (String c2 rest))) by (symmetry; apply strip_spec; reflexivity).
    rewrite S1, S2. reflexivity.
Qed.

Lemma after_drive_spec (s rest : string) :
  after_drive s = Some rest <->
  exists d, is_upper d = true /\ s = String d (String ":" rest).
Proof.
  unfold after_drive. split.
  - destruct s as [|d [|colon r]]; try discriminate.
    destruct (is_upper d) eqn:U; [|discriminate].
    destruct (Ascii.eqb colon ":") eqn:C; [|discriminate].
    apply Ascii.eqb_eq in C. subst colon.
    intros [= ->]. exists d. auto.
  - intros (d & U & ->). rewrite U. reflexivity.
Qed.

Lemma local_source_spec (s : string) :
  local_source s = true <-> local_path s.
Proof.
  unfold local_source, local_path. split.
  - intros L. apply orb_true_iff in L. destruct L as [L | L].
    + apply orb_true_iff in L. destruct L as [L | L].
      * destruct (after_file s) as [r|] eqn:E; [|discriminate].
        apply after_file_spec in E. destruct E as (c1 & c2 & S1 & S2 & ->).
        apply relative_at_spec in L. destruct L as (dots & c & rest & -> & Sc & D).
        exists ("file:" +:+ String c1 (String c2 "")), dots, c, rest.
        split; [reflexivity|]. split; [exact Sc|]. split; [exact D|].
        right. left. exists c1, c2. auto.
      * destruct (after_drive s) as [r|] eqn:E; [|discriminate].
        apply after_drive_spec in E. destruct E as (d & U & ->).
        apply relative_at_spec in L. destruct L as (dots & c & rest & -> & Sc & D).
        exists (String d ":"), dots, c, rest.
        split; [reflexivity|]. split; [exact Sc|]. split; [exact D|].
        right. right. exists d. auto.
    + apply relative_at_spec in L. destruct L as (dots & c & rest & -> & Sc & D).
      exists "", dots, c, rest. auto.
  - intros (prefix & dots & c & rest & -> & Sc & D & P).
    assert (R : relative_at (dots +:+ String c rest) = true).
    { apply relative_at_spec. exists dots, c, rest. auto. }
    destruct P as [-> | [(c1 & c2 & S1 & S2 & ->) | (d & U & ->)]].
    + change ("" +:+ dots +:+ String c rest) with (dots +:+ String c rest).
      rewrite R. apply orb_true_r.
    + replace (after_file (("file:" +:+ String c1 (String c2 "")) +:+ dots +:+ String c rest))
        with (Some (dots +:+ String c rest)).
      * rewrite R. reflexivity.
      * symmetry. apply after_file_spec. exists c1, c2. auto.
    + replace (after_drive (String d ":" +:+ dots +:+ String c rest))
        with (Some (dots +:+ String c rest)).
      * rewrite R. rewrite orb_true_r. reflexivity.
      * symmetry. apply after_drive_spec. exists d. auto.
Qed.

(** X18: [isNotCacheable] answers true exactly for a source that is
    a local path (an optional [file:] with two separators or a drive
    letter with a colon, at most two dots, then a slash or a backslash)
    and for a manifest whose resolution is of type [branch]. *)
Theorem isNotCacheable_spec (r : t) :
  isNotCacheable r = true <->
  local_path (_source r) \/
  exists meta, _pkgMeta r = Some meta /\
    ResolverMeta._resolution meta = Some (Some "branch").
Proof.
  unfold isNotCacheable. split.
  - destruct (truthy (_source r) && local_source (_source r)) eqn:L.
    + intros _. left. apply andb_true_iff in L. apply local_source_spec, L.
    + destruct (_pkgMeta r) as [meta|]; [|discriminate].
      destruct (ResolverMeta._resolution meta) as [type|] eqn:Er; [|discriminate].
      intros E. right. exists meta. split; [reflexivity|].
      destruct type as [type|]; [|discriminate].
      simpl in E. apply String.eqb_eq in E. subst type. exact Er.
  - intros [L | (meta & -> & ->)].
    + assert (T : truthy (_source r) = true).
      { destruct L as (prefix & dots & c & rest & -> & _).
        unfold truthy. destruct prefix; [destruct dots|]; reflexivity. }
      apply local_source_spec in L. rewrite T, L. reflexivity.
    + destruct (truthy (_source r) && local_source (_source r)); reflexivity.
Qed.

(** X19: from a resolver that is not working, [hasNew] returns a
    promise; until it settles every [hasNew] and [resolve] is rejected
    with EWORKING and changes nothing; it settles with [true], also when
    the manifest cannot be read, and leaves the resolver as it was and
    ready for the next call. *)
Theorem hasNew_excludes_until_settled
  (this_resolve : t -> resolving) (canonicalDir : string)
  (pkgMeta : option ResolverMeta.t) (json : outcome ResolverMeta.t) (r : t) :
  _working r = false ->
  let r1 := snd (hasNew canonicalDir pkgMeta r) in
  let r2 := snd (hasNew_settled canonicalDir pkgMeta json r1) in
  fst (hasNew canonicalDir pkgMeta r) = Promised /\
  (forall dir meta, hasNew dir meta r1 = (RejectedWith EWORKING, r1)) /\
  resolve this_resolve r1 = (RejectedWith EWORKING, r1, None) /\
  fst (hasNew_settled canonicalDir pkgMeta json r1) = Fulfilled true /\
  _working r2 = false /\
  (forall dir meta, fst (hasNew dir meta r2) = Promised) /\
  (_source r2, _target r2, _name r2, _workingDir r2, _pkgMeta r2)
  = (_source r, _target r, _name r, _workingDir r, _pkgMeta r).
Proof.
  intros W. unfold hasNew. rewrite W.
  assert (W1 : _working (snd (match pkgMeta with
      | Some _ => (Promised, with__working true r)
      | None => (Promised, issue (ReadJsonFile canonicalDir ".gitsu.json")
                             (with__working true r))
      end)) = true) by (destruct pkgMeta; reflexivity).
  cbv zeta. split; [destruct pkgMeta; reflexivity|].
  split; [intros dir meta; rewrite W1; reflexivity|].
  split; [unfold resolve; rewrite W1; reflexivity|].
  unfold hasNew_settled, _hasNew.
  destruct pkgMeta as [p|]; [|destruct json as [p|e]]; simpl;
    (split; [reflexivity|]); (split; [reflexivity|]);
    (split; [intros dir [meta|]; reflexivity | reflexivity]).
Qed.

(** X20: when [_resolve] throws at once, as the one of the base
    class does, [resolve()] throws with the working flag left set, and
    every later [resolve] or [hasNew] is rejected with EWORKING. *)
Theorem resolve_throw_leaves_working
  (this_resolve : t -> resolving) (r : t) (e : failure) :
  _working r = false ->
  this_resolve (with__working true r) = Throws e ->
  let r1 := with__working true r in
  resolve this_resolve r = (Thrown e, r1, None) /\
  resolve this_resolve r1 = (RejectedWith EWORKING, r1, None) /\
  forall dir meta, hasNew dir meta r1 = (RejectedWith EWORKING, r1).
Proof.
  intros W T. cbv zeta. unfold resolve, hasNew. rewrite W, T. simpl.
  auto.
Qed.

Lemma calls_issue (c : call) (r : t) : calls (issue c r) = calls r ++ [c].
Proof. reflexivity. Qed.


Lemma name_applied (meta : ResolverMeta.t) (r : t) :
  (if negb (opt_str_eqb (ResolverMeta.name meta) (_name r)) && _guessedName r
   then ResolverMeta.name meta else _name r)
  = (if _guessedName r then ResolverMeta.name meta else _name r).
Proof.
  destruct (_guessedName r); [|rewrite andb_false_r; reflexivity].
  rewrite andb_true_r.
  destruct (opt_str_eqb (ResolverMeta.name meta) (_name r)) eqn:E; [|reflexivity].
  simpl. destruct (ResolverMeta.name meta) as [a|], (_name r) as [b|];
    try discriminate; [|reflexivity].
  simpl in E. apply String.eqb_eq in E. subst b. reflexivity.
Qed.


Lemma readJson_effect (w : io) (dir : option string) (r : t) :
  let r1 := snd (_readJson w dir r) in
  fst (_readJson w dir r)
  = match read w with
    | Fulfilled (json, _) => Fulfilled json
    | Failed e => Failed e
    end /\
  (_source r1, _target r1, _name r1, _guessedName r1, _workingDir r1, _pkgMeta r1)
  = (_source r, _target r, _name r, _guessedName r, _workingDir r, _pkgMeta r) /\
  forall c, In c (calls r1) -> writes c = true -> In c (calls r).
Proof.
  unfold _readJson. cbv zeta.
  destruct (read w) as [[json dep]|e]; [destruct (truthy_opt dep)|];
    (split; [reflexivity|]); (split; [reflexivity|]);
    intros c Hc Wc; simpl in Hc; rewrite ?in_app_iff in Hc; simpl in Hc;
    intuition (subst; try discriminate; auto).
Qed.

Lemma applyPkgMeta_effect (w : io) (meta : ResolverMeta.t) (r : t) :
  let r1 := snd (_applyPkgMeta w meta r) in
  (fst (_applyPkgMeta w meta r) = Fulfilled meta \/
   exists e, fst (_applyPkgMeta w meta r) = Failed e /\ removed w = Failed e) /\
  _name r1 = (if _guessedName r then ResolverMeta.name meta else _name r) /\
  (_source r1, _target r1, _workingDir r1, _pkgMeta r1)
  = (_source r, _target r, _workingDir r, _pkgMeta r) /\
  forall c, In c (calls r1) -> writes c = true -> In c (calls r).
Proof.
  unfold _applyPkgMeta. cbv zeta.
  set (r0 := if negb (opt_str_eqb (ResolverMeta.name meta) (_name r)) && _guessedName r
             then with__name (ResolverMeta.name meta) r else r).
  assert (N : _name r0 = (if _guessedName r then ResolverMeta.name meta else _name r)).
  { rewrite <- name_applied. unfold r0.
    destruct (negb (opt_str_eqb (ResolverMeta.name meta) (_name r)) && _guessedName r);
      reflexivity. }
  assert (F : (_source r0, _target r0, _workingDir r0, _pkgMeta r0, calls r0)
              = (_source r, _target r, _workingDir r, _pkgMeta r, calls r)).
  { unfold r0.
    destruct (negb (opt_str_eqb (ResolverMeta.name meta) (_name r)) && _guessedName r);
      reflexivity. }
  clearbody r0. injection F as F1 F2 F3 F4 F5.
  destruct (ResolverMeta.ignore meta) as [[|i l]|].
  - simpl. rewrite F1, F2, F3, F4, F5. auto.
  - destruct (removed w) as [u|e]; simpl; rewrite F1, F2, F3, F4, F5;
      (split; [eauto|]); (split; [exact N|]); (split; [reflexivity|]);
      intros c Hc Wc; rewrite in_app_iff in Hc; simpl in Hc;
      intuition (subst; try discriminate; auto).
  - simpl. rewrite F1, F2, F3, F4, F5. auto.
Qed.

Lemma warn_missing_effect (meta : ResolverMeta.t) (attr : string) (present : bool)
  (r : t) :
  let r1 := warn_missing meta attr present r in
  (_source r1, _target r1, _name r1, _workingDir r1, _pkgMeta r1)
  = (_source r, _target r, _name r, _workingDir r, _pkgMeta r) /\
  forall c, In c (calls r1) -> writes c = true -> In c (calls r).
Proof.
  unfold warn_missing. destruct present; simpl; (split; [reflexivity|]).
  - auto.
  - intros c Hc Wc. rewrite in_app_iff in Hc. simpl in Hc.
    intuition (subst; try discriminate; auto).
Qed.

Lemma savePkgMeta_effect (w : io) (meta : ResolverMeta.t) (skipWrite : bool) (r : t) :
  let saved := stamped (_source r) (_target r) meta in
  let r1 := snd (_savePkgMeta w meta None None skipWrite r) in
  (fst (_savePkgMeta w meta None None skipWrite r) = Fulfilled saved /\
   _pkgMeta r1 = Some saved /\
   (skipWrite = false -> written w = Fulfilled tt)
   \/
   exists e, fst (_savePkgMeta w meta None None skipWrite r) = Failed e /\
     written w = Failed e /\ skipWrite = false) /\
  (_source r1, _target r1, _name r1, _workingDir r1)
  = (_source r, _target r, _name r, _workingDir r) /\
  (skipWrite = true ->
   forall c, In c (calls r1) -> writes c = true -> In c (calls r)).
Proof.
  unfold _savePkgMeta. cbv zeta.
  set (saved := stamped (_source r) (_target r) meta).
  destruct (warn_missing_effect saved "main" (ResolverMeta.main saved) r) as [F1 C1].
  set (r1 := warn_missing saved "main" (ResolverMeta.main saved) r) in *.
  destruct (warn_missing_effect saved "ignore"
              (match ResolverMeta.ignore saved with Some _ => true | None => false end) r1)
    as [F2 C2].
  set (r2 := warn_missing saved "ignore" _ r1) in *.
  clearbody r2 r1. cbv zeta in F1, F2.
  injection F1 as A1 A2 A3 A4 A5. injection F2 as B1 B2 B3 B4 B5.
  destruct skipWrite; simpl.
  - split; [left; split; [reflexivity|]; split; [reflexivity|discriminate]|].
    split; [congruence|]. intros _ c Hc Wc. auto.
  - destruct (written w) as [[]|e]; simpl.
    + split; [left; split; [reflexivity|]; split; reflexivity|].
      split; [congruence|]. discriminate.
    + split; [right; exists e; repeat split; reflexivity|].
      split; [congruence|]. discriminate.
Qed.

(** X21: however the promise of [_resolve] and the calls after it
    end, the chain of [resolve()] leaves the resolver not working, with
    its source and target.  When it succeeds it answers the working
    directory and has kept the manifest read, stamped with the source and
    the target, and the name of the manifest when the name was guessed;
    when it fails the working directory is unset and the error is the
    one of the step that failed.  When nothing was resolved, no manifest
    is written and no script is run. *)
Theorem resolve_settled_outcome (w : io) (settles : outcome bool) (r : t) :
  let answer := fst (resolve_settled w settles r) in
  let r' := snd (resolve_settled w settles r) in
  _working r' = false /\
  _source r' = _source r /\
  _target r' = _target r /\
  match answer with
  | Fulfilled dir =>
      dir = _workingDir r /\
      _workingDir r' = _workingDir r /\
      exists nothing_resolved meta deprecated,
        settles = Fulfilled nothing_resolved /\
        read w = Fulfilled (meta, deprecated) /\
        _pkgMeta r' = Some (stamped (_source r) (_target r) meta) /\
        _name r' = (if _guessedName r then ResolverMeta.name meta else _name r) /\
        (nothing_resolved = false ->
         written w = Fulfilled tt /\ scripted w = Fulfilled tt)
  | Failed e =>
      _workingDir r' = None /\
      (settles = Failed e \/ read w = Failed e \/ removed w = Failed e \/
       written w = Failed e \/ scripted w = Failed e)
  end /\
  (settles = Fulfilled true ->
   forall c, In c (calls r') -> writes c = true -> In c (calls r)).
Proof.
  cbv zeta. unfold resolve_settled.
  destruct settles as [nothing|e0].
  2:{ simpl. repeat split; auto. }
  destruct (readJson_effect w None r) as (O1 & F1 & C1).
  destruct (_readJson w None r) as [o1 r1]. cbn [fst snd] in O1, F1, C1.
  injection F1 as A1 A2 A3 A4 A5 A6.
  destruct (read w) as [[meta dep]|e1] eqn:Er; subst o1.
  2:{ simpl. repeat split; auto; try congruence; discriminate. }
  destruct (applyPkgMeta_effect w meta r1) as (O2 & N2 & F2 & C2).
  destruct (_applyPkgMeta w meta r1) as [o2 r2]. cbn [fst snd] in O2, N2, F2, C2.
  injection F2 as B1 B2 B3 B4.
  destruct O2 as [-> | (e2 & -> & Rm)].
  2:{ simpl. repeat split; auto; try congruence; discriminate. }
  assert (S : stamped (_source r2) (_target r2) meta
              = stamped (_source r) (_target r) meta) by (rewrite B1, A1, B2, A2; reflexivity).
  assert (N : _name r2 = (if _guessedName r then ResolverMeta.name meta else _name r))
    by (rewrite N2, A4, A3; reflexivity).
  destruct nothing.
  - destruct (savePkgMeta_effect w meta true r2) as (O3 & F3 & C3).
    destruct (_savePkgMeta w meta None None true r2) as [o3 r3].
    cbn [fst snd] in O3, F3, C3. injection F3 as D1 D2 D3 D4.
    destruct O3 as [(-> & P3 & _) | (e3 & _ & _ & ?)]; [|discriminate].
    simpl. split; [reflexivity|]. split; [congruence|]. split; [congruence|].
    split; [|intros _ c Hc Wc; apply C1; [apply C2; [apply C3; auto|]|]; auto].
    split; [congruence|]. split; [congruence|].
    exists true, meta, dep.
    split; [reflexivity|]. split; [reflexivity|]. split; [congruence|].
    split; [congruence|]. discriminate.
  - destruct (savePkgMeta_effect w meta false r2) as (O3 & F3 & _).
    destruct (_savePkgMeta w meta None None false r2) as [o3 r3].
    cbn [fst snd] in O3, F3. injection F3 as D1 D2 D3 D4.
    destruct O3 as [(-> & P3 & W3) | (e3 & -> & W3 & _)].
    + destruct (scripted w) as [[]|e4] eqn:Es; simpl.
      * split; [reflexivity|]. split; [congruence|]. split; [congruence|].
        split; [|discriminate].
        split; [congruence|]. split; [congruence|].
        exists false, meta, dep.
        split; [reflexivity|]. split; [reflexivity|]. split; [congruence|].
        split; [congruence|]. intros _. split; [apply W3|]; reflexivity.
      * split; [reflexivity|]. split; [congruence|]. split; [congruence|].
        split; [|discriminate]. split; [reflexivity|]. auto 6.
    + simpl. split; [reflexivity|]. split; [congruence|]. split; [congruence|].
      split; [|discriminate]. split; [reflexivity|]. auto 6.
Qed.

Lemma dashed_flat (s : string) (c : ascii) :
  In c (list_ascii_of_string (dashed s)) -> c <> "/"%char.
Proof.
  induction s as [|d s IH]; simpl; [tauto|].
  intros [E | I]; [|auto].
  subst c. destruct (Ascii.eqb d "/") eqn:D; [discriminate|].
  intros ->. rewrite Ascii.eqb_refl in D. discriminate.
Qed.

Lemma temp_name_flat (name : string) (c : ascii) :
  In c (list_ascii_of_string (temp_name name)) -> c <> "/"%char.
Proof.
  unfold temp_name, unprefixed. intros I. apply (dashed_flat name).
  destruct (dashed name) as [|d s]; [exact I|].
  destruct (Ascii.eqb d "%" || Ascii.eqb d ":"); [right|]; exact I.
Qed.

Lemma createTempDir_calls (made : outcome unit) (dir : outcome string) (r : t) :
  exists l, calls (snd (_createTempDir made dir r)) = calls r ++ l /\
    forall d n p, In (TmpDir d n p) l -> exists name, n = temp_name name.
Proof.
  unfold _createTempDir, issue. cbv zeta. cbn [_name tmp with_calls].
  destruct made as [u|e].
  - destruct (_name r) as [name|].
    + exists [Mkdirp (tmp r); TmpDir (tmp r) (temp_name name) pid]. split.
      * destruct dir; cbn [snd calls with_calls with__workingDir];
          rewrite <- app_assoc; reflexivity.
      * intros d n p [I | [I | []]]; [discriminate|].
        injection I as _ <- _. eauto.
    + exists [Mkdirp (tmp r)]. split; [reflexivity|].
      intros d n p [I | []]. discriminate.
  - exists [Mkdirp (tmp r)]. split; [reflexivity|].
    intros d n p [I | []]. discriminate.
Qed.

(** X22: the name [_createTempDir] hands to [tmp.dir] contains no
    slash; on success the directory made is the working directory, and
    when it fails the working directory is as before: the error is the
    one of [mkdirp] or [tmp.dir], or a [TypeError] when the resolver has
    no name. *)
Theorem createTempDir_outcome (made : outcome unit) (dir : outcome string) (r : t) :
  let answer := fst (_createTempDir made dir r) in
  let r' := snd (_createTempDir made dir r) in
  (forall d n p c, In (TmpDir d n p) (calls r') -> ~ In (TmpDir d n p) (calls r) ->
     In c (list_ascii_of_string n) -> c <> "/"%char) /\
  match answer with
  | Fulfilled d =>
      dir = Fulfilled d /\ _workingDir r' = Some d /\ _name r <> None
  | Failed e =>
      _workingDir r' = _workingDir r /\
      (made = Failed e \/ dir = Failed e \/
       _name r = None /\ exists message, e = Raised (TypeError message))
  end.
Proof.
  cbv zeta. split.
  - intros d n p c I N Hc.
    destruct (createTempDir_calls made dir r) as (l & E & L).
    rewrite E, in_app_iff in I. destruct I as [I | I]; [contradiction|].
    destruct (L d n p I) as (name & ->).
    apply (temp_name_flat name), Hc.
  - unfold _createTempDir, issue. cbv zeta. cbn [_name tmp with_calls].
    destruct made as [u|e]; [|simpl; auto].
    destruct (_name r) as [name|] eqn:En.
    + destruct dir as [d|e]; simpl.
      * split; [reflexivity|]. split; [reflexivity|]. discriminate.
      * auto.
    + simpl. split; [reflexivity|]. right. right. split; [reflexivity|]. eauto.
Qed.
End ResolverFacts.

(** A check for news whose manifest cannot be read. *)
Lemma hasNew_excludes_until_settled_witness :
  let r := Examples.repo_resolver in
  let r1 := snd (Resolver.hasNew "/cache/repo" None r) in
  let r2 := snd (Resolver.hasNew_settled "/cache/repo" None
                   (Resolver.Failed (Resolver.Plain "ENOENT")) r1) in
  Resolver._working r = false /\
  fst (Resolver.hasNew "/cache/repo" None r) = Resolver.Promised /\
  (forall dir meta,
     Resolver.hasNew dir meta r1 = (Resolver.RejectedWith Resolver.EWORKING, r1)) /\
  Resolver.resolve Resolver._resolve r1
  = (Resolver.RejectedWith Resolver.EWORKING, r1, None) /\
  fst (Resolver.hasNew_settled "/cache/repo" None
         (Resolver.Failed (Resolver.Plain "ENOENT")) r1) = Resolver.Fulfilled true /\
  Resolver._working r2 = false /\
  (forall dir meta, fst (Resolver.hasNew dir meta r2) = Resolver.Promised) /\
  (Resolver._source r2, Resolver._target r2, Resolver._name r2,
   Resolver._workingDir r2, Resolver._pkgMeta r2)
  = (Resolver._source r, Resolver._target r, Resolver._name r,
     Resolver._workingDir r, Resolver._pkgMeta r).
Proof.
  cbv zeta. split; [reflexivity|].
  exact (hasNew_excludes_until_settled Resolver._resolve "/cache/repo" None
           (Resolver.Failed (Resolver.Plain "ENOENT")) Examples.repo_resolver eq_refl).
Defined.

(** [resolve()] on a resolver of the base class. *)
Lemma resolve_throw_leaves_working_witness :
  let r := Examples.repo_resolver in
  let r1 := Resolver.with__working true r in
  Resolver._working r = false /\
  Resolver.resolve Resolver._resolve r
  = (Resolver.Thrown (Resolver.Plain "_resolve not implemented"), r1, None) /\
  Resolver.resolve Resolver._resolve r1
  = (Resolver.RejectedWith Resolver.EWORKING, r1, None) /\
  forall dir meta,
    Resolver.hasNew dir meta r1 = (Resolver.RejectedWith Resolver.EWORKING, r1).
Proof.
  cbv zeta. split; [reflexivity|].
  exact (resolve_throw_leaves_working Resolver._resolve Examples.repo_resolver
           (Resolver.Plain "_resolve not implemented") eq_refl eq_refl).
Defined.
